(** * The gitea bridge of git-bug: iterator, note classifier, importer, exporter

    A shallow embedding of the Go sources of the bridge
    (package [iterator], package [gitea]) and the properties of its
    synchronisation engine.

    Conventions of the embedding:
    - a Go [string] is a sequence of bytes: [String.string];
    - a Go [int] is a [Z] (no claim depends on wrap-around);
    - a Go [map[string]string] is a [gmap string string]; reading a missing
      key gives the empty string ([mapGet]), the two-result form is [!!];
    - a run-time panic (index out of range, explicit [panic]) is the
      [Panic] outcome;
    - an [error] result is an [option error] next to the value. *)

From Stdlib Require Import ZArith List String Ascii Bool Lia DecimalString.
From Stdlib Require DecimalPos.
From stdpp Require Import gmap strings list fin_maps.

Local Open Scope string_scope.
Local Open Scope Z_scope.

(** ** Outcomes and errors *)

Inductive outcome (A : Type) : Type :=
| Return (a : A)
| Panic (msg : string).
Arguments Return {A} a.
Arguments Panic {A} msg.

Definition obind {A B : Type} (o : outcome A) (k : A -> outcome B) : outcome B :=
  match o with
  | Return a => k a
  | Panic m => Panic m
  end.

(** Errors of the bridge and of its collaborators. *)
Inductive error : Type :=
| ErrRemote (msg : string)
| ErrMissingIdentityToken
| ErrBugNotExist
| ErrIdentityNotExist
| ErrMultipleMatch
| ErrNoMatchingOp
| ErrCommentNotFound
| ErrOther (msg : string).

Definition error_eqb (a b : error) : bool :=
  match a, b with
  | ErrRemote x, ErrRemote y => String.eqb x y
  | ErrMissingIdentityToken, ErrMissingIdentityToken => true
  | ErrBugNotExist, ErrBugNotExist => true
  | ErrIdentityNotExist, ErrIdentityNotExist => true
  | ErrMultipleMatch, ErrMultipleMatch => true
  | ErrNoMatchingOp, ErrNoMatchingOp => true
  | ErrCommentNotFound, ErrCommentNotFound => true
  | ErrOther x, ErrOther y => String.eqb x y
  | _, _ => false
  end.

(** ** Package [strings] of the Go standard library, on byte strings *)

Module GoStrings.

Fixpoint HasPrefix (s prefix : string) {struct prefix} : bool :=
  match prefix with
  | EmptyString => true
  | String c p =>
      match s with
      | EmptyString => false
      | String d s' => if Ascii.eqb c d then HasPrefix s' p else false
      end
  end.

(** [s[n:]] and [s[:n]] *)
Fixpoint drop (n : nat) (s : string) : string :=
  match n, s with
  | O, _ => s
  | S _, EmptyString => EmptyString
  | S k, String _ s' => drop k s'
  end.

Fixpoint take (n : nat) (s : string) : string :=
  match n, s with
  | O, _ => EmptyString
  | S _, EmptyString => EmptyString
  | S k, String c s' => String c (take k s')
  end.

(** [Index]: offset of the first instance of [substr] in [s];
    Go's [-1] is [None]. *)
Fixpoint Index (s substr : string) {struct s} : option nat :=
  if HasPrefix s substr then Some O
  else match s with
       | EmptyString => None
       | String _ s' => option_map S (Index s' substr)
       end.

Definition HasSuffix (s suffix : string) : bool :=
  (String.length suffix <=? String.length s)%nat
  && String.eqb (drop (String.length s - String.length suffix) s) suffix.

Definition TrimSuffix (s suffix : string) : string :=
  if HasSuffix s suffix
  then take (String.length s - String.length suffix) s
  else s.

(** [Count]: number of non-overlapping instances of [substr]; for the
    empty [substr] the number of bytes plus one (Go counts code points,
    which are the bytes of an ASCII string). *)
Fixpoint countLoop (fuel : nat) (s substr : string) : nat :=
  match fuel with
  | O => O
  | S f =>
      match Index s substr with
      | None => O
      | Some i => S (countLoop f (drop (i + String.length substr) s) substr)
      end
  end.

Definition Count (s substr : string) : nat :=
  match substr with
  | EmptyString => S (String.length s)
  | _ => countLoop (String.length s) s substr
  end.

Fixpoint explode (s : string) : list string :=
  match s with
  | EmptyString => []
  | String c s' => String c EmptyString :: explode s'
  end.

(** The loop of [genSplit]: at most [n] cuts, the rest of the string is
    the last element. *)
Fixpoint splitLoop (n : nat) (s sep : string) : list string :=
  match n with
  | O => [s]
  | S k =>
      match Index s sep with
      | None => [s]
      | Some m => take m s :: splitLoop k (drop (m + String.length sep) s) sep
      end
  end.

(** [Split(s, sep)] is [genSplit(s, sep, 0, -1)]. *)
Definition Split (s sep : string) : list string :=
  match sep with
  | EmptyString => explode s
  | _ => splitLoop (Count s sep) s sep
  end.

(** The loop of [Replace]: [n] replacements, then the rest of [s]. *)
Fixpoint replaceLoop (n : nat) (s old new : string) : string :=
  match n with
  | O => s
  | S k =>
      match Index s old with
      | None => s
      | Some j =>
          take j s ++ new ++ replaceLoop k (drop (j + String.length old) s) old new
      end
  end.

Fixpoint intersperse (new s : string) : string :=
  match s with
  | EmptyString => new
  | String c s' => new ++ String c (intersperse new s')
  end.

(** [Replace(s, old, new, -1)]: every non-overlapping instance. *)
Definition ReplaceAll (s old new : string) : string :=
  if String.eqb old new then s
  else match old with
       | EmptyString => intersperse new s
       | _ => replaceLoop (Count s old) s old new
       end.

End GoStrings.

(** ** The SDK records the bridge reads *)

Record User := {
  user_ID : Z;
  user_Name : string;
  user_PublicEmail : string;
  user_Username : string;
  user_AvatarURL : string }.

Record Issue := {
  issue_ID : Z;
  issue_IID : Z;
  issue_Title : string;
  issue_Description : string;
  issue_AuthorID : Z;
  issue_CreatedAt : Z;
  issue_WebURL : string }.

Record LabelEvent := {
  le_ID : Z;
  le_Action : string;
  le_LabelName : string;
  le_UserID : Z;
  le_CreatedAt : Z }.

Record Note := {
  note_ID : Z;
  note_System : bool;
  note_Body : string;
  note_AuthorID : Z;
  note_CreatedAt : Z;
  note_UpdatedAt : Z }.

(** ** The note classifier *)

(** The note kinds; the constants are declared next to [GetNoteType]. *)
Inductive NoteType : Type :=
| NOTE_COMMENT
| NOTE_TITLE_CHANGED
| NOTE_DESCRIPTION_CHANGED
| NOTE_CLOSED
| NOTE_REOPENED
| NOTE_LOCKED
| NOTE_UNLOCKED
| NOTE_CHANGED_DUEDATE
| NOTE_REMOVED_DUEDATE
| NOTE_ASSIGNED
| NOTE_UNASSIGNED
| NOTE_CHANGED_MILESTONE
| NOTE_REMOVED_MILESTONE
| NOTE_MENTIONED_IN_ISSUE
| NOTE_MENTIONED_IN_MERGE_REQUEST
| NOTE_UNKNOWN.

Definition title_separator : string := "** to **".

(** [getNewTitle]: element 1 of the split, insertion markers removed, one
    trailing [**] trimmed. Indexing a one-element slice at 1 panics. *)
Definition getNewTitle (diff : string) : outcome string :=
  match nth_error (GoStrings.Split diff title_separator) 1 with
  | None => Panic "index out of range [1]"
  | Some newTitle =>
      let newTitle := GoStrings.ReplaceAll newTitle "{+" "" in
      let newTitle := GoStrings.ReplaceAll newTitle "+}" "" in
      Return (GoStrings.TrimSuffix newTitle "**")
  end.

Definition GetNoteType (n : Note) : outcome (NoteType * string) :=
  if negb (note_System n) then Return (NOTE_COMMENT, note_Body n)
  else if String.eqb (note_Body n) "closed" then Return (NOTE_CLOSED, "")
  else if String.eqb (note_Body n) "reopened" then Return (NOTE_REOPENED, "")
  else if String.eqb (note_Body n) "changed the description"
       then Return (NOTE_DESCRIPTION_CHANGED, "")
  else if String.eqb (note_Body n) "locked this issue" then Return (NOTE_LOCKED, "")
  else if String.eqb (note_Body n) "unlocked this issue" then Return (NOTE_UNLOCKED, "")
  else if GoStrings.HasPrefix (note_Body n) "changed title from"
       then obind (getNewTitle (note_Body n)) (fun t => Return (NOTE_TITLE_CHANGED, t))
  else if GoStrings.HasPrefix (note_Body n) "changed due date to"
       then Return (NOTE_CHANGED_DUEDATE, "")
  else if String.eqb (note_Body n) "removed due date" then Return (NOTE_REMOVED_DUEDATE, "")
  else if GoStrings.HasPrefix (note_Body n) "assigned to @" then Return (NOTE_ASSIGNED, "")
  else if GoStrings.HasPrefix (note_Body n) "unassigned @" then Return (NOTE_UNASSIGNED, "")
  else if GoStrings.HasPrefix (note_Body n) "changed milestone to %"
       then Return (NOTE_CHANGED_MILESTONE, "")
  else if GoStrings.HasPrefix (note_Body n) "removed milestone"
       then Return (NOTE_REMOVED_MILESTONE, "")
  else if GoStrings.HasPrefix (note_Body n) "mentioned in issue"
       then Return (NOTE_MENTIONED_IN_ISSUE, "")
  else if GoStrings.HasPrefix (note_Body n) "mentioned in merge request"
       then Return (NOTE_MENTIONED_IN_MERGE_REQUEST, "")
  else Return (NOTE_UNKNOWN, "").

(** ** The remote read API *)

(** One page of a listing: the items and the reported number of pages, or
    the error of the call. *)
Definition Page (A : Type) : Type := (error + (list A * Z))%type.

(** A configured client [*gitea.Client]: the instance it talks to and the
    token it authenticates with. *)
Record Client := {
  client_baseURL : string;
  client_token : string }.

Record UpdateIssueOptions := {
  opt_Title : option string;
  opt_Description : option string;
  opt_Labels : option (list string);
  opt_StateEvent : option string }.

(** The remote instance: what it answers to each call of a client. The
    issue listing is asked with owner, project, page and page size; the
    per-issue listings with project, issue, page and page size; the write
    calls with the repository, the issue and the new content. *)
Record Server := {
  ListRepoIssues : Client -> string -> string -> Z -> Z -> Page Issue;
  ListIssueNotes : Client -> string -> Z -> Z -> Z -> Page Note;
  ListIssueLabelEvents : Client -> string -> Z -> Z -> Z -> Page LabelEvent;
  GetUser : Client -> Z -> error + User;
  CreateIssue : Client -> string -> string -> string -> error + Issue;
  CreateIssueNote : Client -> string -> Z -> string -> error + Note;
  UpdateIssueNote : Client -> string -> Z -> Z -> string -> option error;
  UpdateIssue : Client -> string -> Z -> UpdateIssueOptions -> option error }.

(** The remote calls an iterator issues, in the order it issues them. *)
Inductive Fetch : Type :=
| FetchIssues (page : Z)
| FetchNotes (issue page : Z)
| FetchLabelEvents (issue page : Z).

Record config := {
  gc : Client;
  timeout : Z;
  owner : string;
  project : string;
  capacity : Z }.

(** [cache[index]] on a Go slice: out of range panics. *)
Definition slice_at {A : Type} (cache : list A) (index : Z) : outcome A :=
  if index <? 0 then Panic "index out of range"
  else match nth_error cache (Z.to_nat index) with
       | Some v => Return v
       | None => Panic "index out of range"
       end.

(** The result of a sub-iterator's [Next]: the two Go results, the
    iterator after the call, and the fetches the call issued. *)
Record Step (S : Type) := {
  more : bool;
  failure : option error;
  after : S;
  fetched : list Fetch }.
Arguments more {S} _.
Arguments failure {S} _.
Arguments after {S} _.
Arguments fetched {S} _.
Arguments Build_Step {S} _ _ _ _.

(** ** [issueIterator]

    A nil [cache] is the empty list: [getNext] stores a page only when it
    is not empty, so the stored slice is nil exactly when it is empty. *)
Module IssueIterator.

Record issueIterator := {
  page : Z;
  lastPage : bool;
  index : Z;
  cache : list Issue }.

Definition Reset (ii : issueIterator) : issueIterator :=
  {| index := -1; page := 1; lastPage := false; cache := [] |}.

Definition newIssueIterator : issueIterator :=
  Reset {| page := 0; lastPage := false; index := 0; cache := [] |}.

Definition Value (ii : issueIterator) : outcome Issue :=
  slice_at (cache ii) (index ii).

Definition getNext (srv : Server) (conf : config) (ii : issueIterator) : Step issueIterator :=
  if lastPage ii then Build_Step false None ii []
  else
    let req := [FetchIssues (page ii)] in
    match ListRepoIssues srv (gc conf) (owner conf) (project conf) (page ii) (capacity conf) with
    | inl err => Build_Step false (Some err) (Reset ii) req
    | inr (issues, totalPages) =>
        let lp := if totalPages =? page ii then true else lastPage ii in
        match issues with
        | [] =>
            Build_Step false None
              {| page := page ii; lastPage := lp; index := index ii; cache := cache ii |} req
        | _ =>
            Build_Step true None
              {| page := page ii + 1; lastPage := lp; index := 0; cache := issues |} req
        end
    end.

Definition Next (srv : Server) (conf : config) (ii : issueIterator) : Step issueIterator :=
  match cache ii with
  | [] => getNext srv conf ii
  | _ =>
      if index ii <? Z.of_nat (length (cache ii)) - 1
      then Build_Step true None
             {| page := page ii; lastPage := lastPage ii;
                index := index ii + 1; cache := cache ii |} []
      else getNext srv conf ii
  end.

(** Positions of the iterator over a listing served as the pages
    [pages]: inside page [k] (counted from 0) at index [j]; at rest on
    the last item of the last page; and the fetches of the pages after
    page [k]. *)
Definition inPage (pages : list (list Issue)) (k j : nat) : issueIterator :=
  {| page := Z.of_nat (S (S k));
     lastPage := Z.of_nat (length pages) =? Z.of_nat (S k);
     index := Z.of_nat j;
     cache := nth k pages [] |}.

Definition exhausted (pages : list (list Issue)) : issueIterator :=
  inPage pages (length pages - 1) (length (nth (length pages - 1) pages []) - 1).

Definition laterFetches (pages : list (list Issue)) (k : nat) : list Fetch :=
  map (fun i => FetchIssues (Z.of_nat (S i))) (seq (S k) (length pages - S k)).

End IssueIterator.

(** ** [noteIterator] *)
Module NoteIterator.

Record noteIterator := {
  issue : Z;
  page : Z;
  lastPage : bool;
  index : Z;
  cache : list Note }.

Definition Reset (issue : Z) (it : noteIterator) : noteIterator :=
  {| issue := issue; index := -1; page := 1; lastPage := false; cache := [] |}.

Definition newNoteIterator : noteIterator :=
  Reset (-1) {| issue := 0; page := 0; lastPage := false; index := 0; cache := [] |}.

Definition Value (it : noteIterator) : outcome Note :=
  slice_at (cache it) (index it).

Definition getNext (srv : Server) (conf : config) (it : noteIterator) : Step noteIterator :=
  if lastPage it then Build_Step false None it []
  else
    let req := [FetchNotes (issue it) (page it)] in
    match ListIssueNotes srv (gc conf) (project conf) (issue it) (page it) (capacity conf) with
    | inl err => Build_Step false (Some err) (Reset (-1) it) req
    | inr (notes, totalPages) =>
        let lp := if totalPages =? page it then true else lastPage it in
        match notes with
        | [] =>
            Build_Step false None
              {| issue := issue it; page := page it; lastPage := lp;
                 index := index it; cache := cache it |} req
        | _ =>
            Build_Step true None
              {| issue := issue it; page := page it + 1; lastPage := lp;
                 index := 0; cache := notes |} req
        end
    end.

Definition Next (srv : Server) (conf : config) (it : noteIterator) : Step noteIterator :=
  match cache it with
  | [] => getNext srv conf it
  | _ =>
      if index it <? Z.of_nat (length (cache it)) - 1
      then Build_Step true None
             {| issue := issue it; page := page it; lastPage := lastPage it;
                index := index it + 1; cache := cache it |} []
      else getNext srv conf it
  end.

End NoteIterator.

(** ** [labelEventIterator] *)
Module LabelEventIterator.

(** Modelled from the spec: the file that declares [labelEventIterator]
    is not among the sources; only its uses by [Iterator] are. The spec
    describes one cursor contract for the three listings (page buffer,
    position, page number, exhausted flag, reset to a new issue scope;
    a fetch error resets the cursor and is returned), so the cursor is
    the one of [noteIterator] over the label-event listing. *)
Record labelEventIterator := {
  issue : Z;
  page : Z;
  lastPage : bool;
  index : Z;
  cache : list LabelEvent }.

Definition Reset (issue : Z) (it : labelEventIterator) : labelEventIterator :=
  {| issue := issue; index := -1; page := 1; lastPage := false; cache := [] |}.

Definition newLabelEventIterator : labelEventIterator :=
  Reset (-1) {| issue := 0; page := 0; lastPage := false; index := 0; cache := [] |}.

Definition Value (it : labelEventIterator) : outcome LabelEvent :=
  slice_at (cache it) (index it).

Definition getNext (srv : Server) (conf : config) (it : labelEventIterator) : Step labelEventIterator :=
  if lastPage it then Build_Step false None it []
  else
    let req := [FetchLabelEvents (issue it) (page it)] in
    match ListIssueLabelEvents srv (gc conf) (project conf) (issue it) (page it) (capacity conf) with
    | inl err => Build_Step false (Some err) (Reset (-1) it) req
    | inr (events, totalPages) =>
        let lp := if totalPages =? page it then true else lastPage it in
        match events with
        | [] =>
            Build_Step false None
              {| issue := issue it; page := page it; lastPage := lp;
                 index := index it; cache := cache it |} req
        | _ =>
            Build_Step true None
              {| issue := issue it; page := page it + 1; lastPage := lp;
                 index := 0; cache := events |} req
        end
    end.

Definition Next (srv : Server) (conf : config) (it : labelEventIterator) : Step labelEventIterator :=
  match cache it with
  | [] => getNext srv conf it
  | _ =>
      if index it <? Z.of_nat (length (cache it)) - 1
      then Build_Step true None
             {| issue := issue it; page := page it; lastPage := lastPage it;
                index := index it + 1; cache := cache it |} []
      else getNext srv conf it
  end.

End LabelEventIterator.

(** ** The composite [Iterator]

    [ctx.Err()] is what the shared context answers at the time of a call:
    cancellation comes from outside, so each call takes it as an argument,
    after the remote instance [srv] the client is connected to.
    A call returns its Go result and the iterator after it, or panics, and
    the fetches it issued. *)
Module CompositeIterator.

Record Iterator := {
  conf : config;
  err : option error;
  issue : IssueIterator.issueIterator;
  note : NoteIterator.noteIterator;
  labelEvent : LabelEventIterator.labelEventIterator }.

Definition NewIterator (client : Client) (capacity : Z)
    (projectOwner projectName : string) : Iterator :=
  {| conf := {| gc := client; timeout := 60; owner := projectOwner;
                project := projectName; capacity := capacity |};
     err := None;
     issue := IssueIterator.newIssueIterator;
     note := NoteIterator.newNoteIterator;
     labelEvent := LabelEventIterator.newLabelEventIterator |}.

Definition Error (i : Iterator) : option error := err i.

Definition Call : Type := (outcome (bool * Iterator) * list Fetch)%type.

Definition NextIssue (srv : Server) (ctxErr : option error) (i : Iterator) : Call :=
  match err i with
  | Some _ => (Return (false, i), [])
  | None =>
      match ctxErr with
      | Some _ => (Return (false, i), [])
      | None =>
          let st := IssueIterator.Next srv (conf i) (issue i) in
          match failure st with
          | Some e =>
              (Return (false,
                 {| conf := conf i; err := Some e; issue := after st;
                    note := note i; labelEvent := labelEvent i |}),
               fetched st)
          | None =>
              (obind (IssueIterator.Value (after st)) (fun v =>
               obind (IssueIterator.Value (after st)) (fun v' =>
               Return (more st,
                 {| conf := conf i; err := None; issue := after st;
                    note := NoteIterator.Reset (issue_IID v) (note i);
                    labelEvent :=
                      LabelEventIterator.Reset (issue_IID v') (labelEvent i) |}))),
               fetched st)
          end
      end
  end.

Definition IssueValue (i : Iterator) : outcome Issue :=
  IssueIterator.Value (issue i).

Definition NextNote (srv : Server) (ctxErr : option error) (i : Iterator) : Call :=
  match err i with
  | Some _ => (Return (false, i), [])
  | None =>
      match ctxErr with
      | Some _ => (Return (false, i), [])
      | None =>
          let st := NoteIterator.Next srv (conf i) (note i) in
          match failure st with
          | Some e =>
              (Return (false,
                 {| conf := conf i; err := Some e; issue := issue i;
                    note := after st; labelEvent := labelEvent i |}),
               fetched st)
          | None =>
              (Return (more st,
                 {| conf := conf i; err := None; issue := issue i;
                    note := after st; labelEvent := labelEvent i |}),
               fetched st)
          end
      end
  end.

Definition NoteValue (i : Iterator) : outcome Note :=
  NoteIterator.Value (note i).

Definition NextLabelEvent (srv : Server) (ctxErr : option error) (i : Iterator) : Call :=
  match err i with
  | Some _ => (Return (false, i), [])
  | None =>
      match ctxErr with
      | Some _ => (Return (false, i), [])
      | None =>
          let st := LabelEventIterator.Next srv (conf i) (labelEvent i) in
          match failure st with
          | Some e =>
              (Return (false,
                 {| conf := conf i; err := Some e; issue := issue i;
                    note := note i; labelEvent := after st |}),
               fetched st)
          | None =>
              (Return (more st,
                 {| conf := conf i; err := None; issue := issue i;
                    note := note i; labelEvent := after st |}),
               fetched st)
          end
      end
  end.

Definition LabelEventValue (i : Iterator) : outcome LabelEvent :=
  LabelEventIterator.Value (labelEvent i).

End CompositeIterator.

(** ** Package [strconv] *)
Module strconv.

Definition Itoa (i : Z) : string :=
  DecimalString.NilZero.string_of_int (Z.to_int i).

Definition digit_of (c : ascii) : option Z :=
  let n := Z.of_nat (nat_of_ascii c) in
  if (48 <=? n) && (n <=? 57) then Some (n - 48) else None.

Fixpoint digits (s : string) (acc : Z) : option Z :=
  match s with
  | EmptyString => Some acc
  | String c s' =>
      match digit_of c with
      | Some d => digits s' (10 * acc + d)
      | None => None
      end
  end.

(** [Atoi]: an optional sign, then at least one decimal digit; a value
    outside the 64-bit range is an error. *)
Definition Atoi (s : string) : error + Z :=
  let '(neg, body) :=
    match s with
    | String "-"%char r => (true, r)
    | String "+"%char r => (false, r)
    | _ => (false, s)
    end in
  match body with
  | EmptyString => inl (ErrOther "invalid syntax")
  | _ =>
      match digits body 0 with
      | None => inl (ErrOther "invalid syntax")
      | Some n =>
          let v := if neg : bool then - n else n in
          if (- 2 ^ 63 <=? v) && (v <? 2 ^ 63) then inr v
          else inl (ErrOther "value out of range")
      end
  end.

End strconv.

(** [fmt.Sprintf("%d", id)] *)
Definition parseID (id : Z) : string := strconv.Itoa id.

(** [m[k]] on a Go map: the zero value when the key is missing. *)
Definition mapGet (m : gmap string string) (k : string) : string :=
  default "" (m !! k).

(** ** Keys *)

Definition target : string := "gitea".

Definition metaKeyGiteaId : string := "gitea-id".
Definition metaKeyGiteaUrl : string := "gitea-url".
Definition metaKeyGiteaLogin : string := "gitea-login".
Definition metaKeyGiteaBaseUrl : string := "gitea-base-url".

Definition confKeyOwner : string := "owner".
Definition confKeyProject : string := "project".
Definition confKeyGiteaBaseUrl : string := "base-url".
Definition confKeyDefaultLogin : string := "default-login".

(** Modelled from the spec: the importer and the exporter use the
    constants [metaKeyGiteaProject] and [confKeyProjectID], which the
    constant block of the package does not declare. The spec lists
    remote-project among the metadata keys persisted on local entities,
    next to remote-id, remote-url, remote-login and remote-base-url; the
    two keys are taken distinct from the declared ones, as keys of one map
    literal must be. *)
Definition metaKeyGiteaProject : string := "gitea-project-id".
Definition confKeyProjectID : string := "project-id".

(** [core.MetaKeyOrigin], [auth.MetaKeyLogin], [auth.MetaKeyBaseURL] *)
Definition MetaKeyOrigin : string := "origin".
Definition MetaKeyLogin : string := "login".
Definition MetaKeyBaseURL : string := "base-url".

(** ** The local bug store

    Modelled from the spec: the packages [bug], [cache], [identity] and
    [auth] are collaborators of the bridge and not among the sources. A
    LocalBug is an append-only sequence of operations, each with an author,
    a timestamp and a metadata map to which entries can be attached after
    creation; the snapshot (comment list, author, creation metadata) is
    derived from the sequence. An entity id is a number drawn from a
    counter of the store; a pointer to a bug or to an identity is its id.
    The operations of the store are taken to succeed: their error results,
    which the bridge only passes on, are not modelled. *)

Abbreviation Id := N.

Module bug.

Definition OpenStatus : Z := 1.
Definition ClosedStatus : Z := 2.

Inductive OpKind : Type :=
| CreateOperation (Title Message : string)
| AddCommentOperation (Message : string)
| EditCommentOperation (Target : Id) (Message : string)
| SetStatusOperation (Status : Z)
| SetTitleOperation (Title : string)
| LabelChangeOperation (Added Removed : list string)
| SetMetadataOperation (Target : Id) (NewMetadata : gmap string string).

Record Operation := {
  op_Id : Id;
  op_Author : Id;
  op_UnixTime : Z;
  op_Kind : OpKind;
  op_Metadata : gmap string string }.

(** [op.GetMetadata(key)] *)
Definition GetMetadata (op : Operation) (key : string) : option string :=
  op_Metadata op !! key.

Record Comment := {
  comment_Id : Id;
  comment_Message : string }.

Definition editComment (target : Id) (message : string) (c : Comment) : Comment :=
  if N.eqb (comment_Id c) target
  then {| comment_Id := comment_Id c; comment_Message := message |}
  else c.

Definition apply (cs : list Comment) (op : Operation) : list Comment :=
  match op_Kind op with
  | CreateOperation _ m => cs ++ [{| comment_Id := op_Id op; comment_Message := m |}]
  | AddCommentOperation m => cs ++ [{| comment_Id := op_Id op; comment_Message := m |}]
  | EditCommentOperation t m => map (editComment t m) cs
  | _ => cs
  end.

Record Snapshot := {
  Operations : list Operation;
  Comments : list Comment }.

Definition Compile (ops : list Operation) : Snapshot :=
  {| Operations := ops; Comments := fold_left apply ops [] |}.

(** [snapshot.GetCreateMetadata(key)]: the metadata of the first
    operation. *)
Definition GetCreateMetadata (snap : Snapshot) (key : string) : option string :=
  match Operations snap with
  | [] => None
  | op :: _ => GetMetadata op key
  end.

Definition SearchComment (snap : Snapshot) (id : Id) : error + Comment :=
  match List.find (fun c => N.eqb (comment_Id c) id) (Comments snap) with
  | Some c => inr c
  | None => inl ErrCommentNotFound
  end.

(** Attaching metadata to an operation never overrides an entry. *)
Definition attach (new : gmap string string) (op : Operation) : Operation :=
  {| op_Id := op_Id op; op_Author := op_Author op; op_UnixTime := op_UnixTime op;
     op_Kind := op_Kind op; op_Metadata := op_Metadata op ∪ new |}.

End bug.

Module auth.

Inductive Kind : Type := KindToken | KindLoginPassword.

Definition Kind_eqb (a b : Kind) : bool :=
  match a, b with
  | KindToken, KindToken => true
  | KindLoginPassword, KindLoginPassword => true
  | _, _ => false
  end.

(** A stored credential; [Value] is the token of a token credential. *)
Record Credential := {
  cred_ID : Id;
  cred_Target : string;
  cred_Kind : Kind;
  cred_Metadata : gmap string string;
  cred_Value : string }.

Definition GetMetadata (c : Credential) (key : string) : option string :=
  cred_Metadata c !! key.

Definition WithTarget (t : string) (c : Credential) : bool :=
  String.eqb (cred_Target c) t.
Definition WithKind (k : Kind) (c : Credential) : bool :=
  Kind_eqb (cred_Kind c) k.
Definition WithMeta (key val : string) (c : Credential) : bool :=
  String.eqb (mapGet (cred_Metadata c) key) val.

(** [auth.List(repo, opts...)]: the stored credentials that satisfy every
    option, in the order of the store. *)
Definition List (stored : list Credential) (opts : list (Credential -> bool))
  : list Credential :=
  List.filter (fun c => forallb (fun o => o c) opts) stored.

End auth.

Module cache.

Record IdentityCache := {
  ident_Id : Id;
  ident_Name : string;
  ident_Email : string;
  ident_Login : string;
  ident_AvatarUrl : string;
  ident_ImmutableMetadata : gmap string string }.

Record BugCache := {
  bug_Id : Id;
  bug_ops : list bug.Operation;
  bug_staged : nat }.

Record BugExcerpt := { CreateMetadata : gmap string string }.

Definition excerpt (b : BugCache) : BugExcerpt :=
  {| CreateMetadata :=
       match bug_ops b with
       | [] => ∅
       | op :: _ => bug.op_Metadata op
       end |}.

Record RepoCache := {
  bugs : list BugCache;
  identities : list IdentityCache;
  credentials : list auth.Credential;
  userIdentity : Id;
  nextId : Id }.

Definition Snapshot (b : BugCache) : bug.Snapshot := bug.Compile (bug_ops b).

Definition NeedCommit (b : BugCache) : bool := negb (Nat.eqb (bug_staged b) 0).

(** [repo.ResolveBugMatcher(f)]: the one bug whose excerpt satisfies
    [f]; none is [ErrBugNotExist], several is a multiple-match error. *)
Definition ResolveBugMatcher (repo : RepoCache) (f : BugExcerpt -> bool) : error + Id :=
  match List.filter (fun b => f (excerpt b)) (bugs repo) with
  | [] => inl ErrBugNotExist
  | [b] => inr (bug_Id b)
  | _ => inl ErrMultipleMatch
  end.

Definition ResolveBug (repo : RepoCache) (id : Id) : option BugCache :=
  List.find (fun b => N.eqb (bug_Id b) id) (bugs repo).

(** [b.ResolveOperationWithMetadata(key, value)]: the one operation of
    the bug tagged [key = value]. *)
Definition ResolveOperationWithMetadata (b : BugCache) (key value : string) : error + Id :=
  match List.filter
          (fun op => match bug.GetMetadata op key with
                     | Some v => String.eqb value v
                     | None => false
                     end) (bug_ops b) with
  | [] => inl ErrNoMatchingOp
  | [op] => inr (bug.op_Id op)
  | _ => inl ErrMultipleMatch
  end.

(** [repo.ResolveIdentityImmutableMetadata(key, value)] *)
Definition ResolveIdentityImmutableMetadata (repo : RepoCache) (key value : string)
  : error + IdentityCache :=
  match List.filter
          (fun i => match ident_ImmutableMetadata i !! key with
                    | Some v => String.eqb v value
                    | None => false
                    end) (identities repo) with
  | [] => inl ErrIdentityNotExist
  | [i] => inr i
  | _ => inl ErrMultipleMatch
  end.

Definition IsErrMultipleMatch (e : error) : bool := error_eqb e ErrMultipleMatch.

Definition setBugs (repo : RepoCache) (bs : list BugCache) : RepoCache :=
  {| bugs := bs; identities := identities repo; credentials := credentials repo;
     userIdentity := userIdentity repo; nextId := nextId repo |}.

Definition bump (repo : RepoCache) : RepoCache :=
  {| bugs := bugs repo; identities := identities repo; credentials := credentials repo;
     userIdentity := userIdentity repo; nextId := N.succ (nextId repo) |}.

Definition updateBug (id : Id) (f : BugCache -> BugCache) (repo : RepoCache) : RepoCache :=
  setBugs repo (map (fun b => if N.eqb (bug_Id b) id then f b else b) (bugs repo)).

(** [repo.NewBugRaw(author, unixTime, title, message, files, metadata)]:
    a new bug whose first operation is the creation, committed at once.
    The result is the bug and its creation operation. *)
Definition NewBugRaw (author : Id) (unixTime : Z) (title message : string)
    (metadata : gmap string string) (repo : RepoCache) : (Id * bug.Operation) * RepoCache :=
  let bid := nextId repo in
  let oid := N.succ bid in
  let op := {| bug.op_Id := oid; bug.op_Author := author; bug.op_UnixTime := unixTime;
               bug.op_Kind := bug.CreateOperation title message;
               bug.op_Metadata := metadata |} in
  let b := {| bug_Id := bid; bug_ops := [op]; bug_staged := 0 |} in
  ((bid, op), bump (bump (setBugs repo (bugs repo ++ [b])))).

(** The raw operations of a bug ([AddCommentRaw], [EditCommentRaw],
    [OpenRaw], [CloseRaw], [SetTitleRaw], [ForceChangeLabelsRaw]): one
    operation appended to the log and staged. *)
Definition appendRaw (bid : Id) (author : Id) (unixTime : Z) (kind : bug.OpKind)
    (metadata : gmap string string) (repo : RepoCache) : bug.Operation * RepoCache :=
  let op := {| bug.op_Id := nextId repo; bug.op_Author := author;
               bug.op_UnixTime := unixTime; bug.op_Kind := kind;
               bug.op_Metadata := metadata |} in
  (op, bump (updateBug bid
               (fun b => {| bug_Id := bug_Id b; bug_ops := bug_ops b ++ [op];
                            bug_staged := S (bug_staged b) |}) repo)).

(** [b.SetMetadata(target, newMetadata)]: a SetMetadata operation by the
    user of the store is appended and staged; its effect is to attach
    the entries to the target operation. *)
Definition SetMetadata (bid : Id) (target : Id) (newMetadata : gmap string string)
    (repo : RepoCache) : bug.Operation * RepoCache :=
  let op := {| bug.op_Id := nextId repo; bug.op_Author := userIdentity repo;
               bug.op_UnixTime := 0;
               bug.op_Kind := bug.SetMetadataOperation target newMetadata;
               bug.op_Metadata := ∅ |} in
  (op, bump (updateBug bid
               (fun b =>
                  {| bug_Id := bug_Id b;
                     bug_ops :=
                       map (fun o => if N.eqb (bug.op_Id o) target
                                     then bug.attach newMetadata o else o) (bug_ops b)
                       ++ [op];
                     bug_staged := S (bug_staged b) |}) repo)).

(** [b.Commit()] and [b.CommitAsNeeded()]: nothing stays staged. *)
Definition Commit (bid : Id) (repo : RepoCache) : RepoCache :=
  updateBug bid (fun b => {| bug_Id := bug_Id b; bug_ops := bug_ops b; bug_staged := 0 |}) repo.

(** [repo.NewIdentityRaw(name, email, login, avatarUrl, metadata)] *)
Definition NewIdentityRaw (name email login avatarUrl : string)
    (metadata : gmap string string) (repo : RepoCache) : IdentityCache * RepoCache :=
  let i := {| ident_Id := nextId repo; ident_Name := name; ident_Email := email;
              ident_Login := login; ident_AvatarUrl := avatarUrl;
              ident_ImmutableMetadata := metadata |} in
  (i, bump {| bugs := bugs repo; identities := identities repo ++ [i];
              credentials := credentials repo; userIdentity := userIdentity repo;
              nextId := nextId repo |}).

End cache.

(** ** Stateful code

    A function of the bridge that mutates the store, sends results or calls
    the remote instance is a state transformer with four ways to end: a
    value, a returned [error], a panic, or the exhaustion of the fuel that
    bounds a loop of this embedding. The state is kept in each case: what
    the function did before it stopped stays done. *)

Inductive res (A : Type) : Type :=
| Ok (a : A)
| Fail (e : error)
| Crash (msg : string)
| OutOfFuel.
Arguments Ok {A} a.
Arguments Fail {A} e.
Arguments Crash {A} msg.
Arguments OutOfFuel {A}.

Definition M (S A : Type) : Type := S -> res A * S.

#[global] Instance M_ret {S : Type} : MRet (M S) := fun A a s => (Ok a, s).

#[global] Instance M_bind {S : Type} : MBind (M S) :=
  fun A B k m s =>
    match m s with
    | (Ok a, s') => k a s'
    | (Fail e, s') => (Fail e, s')
    | (Crash msg, s') => (Crash msg, s')
    | (OutOfFuel, s') => (OutOfFuel, s')
    end.

Definition fail {S A : Type} (e : error) : M S A := fun s => (Fail e, s).
Definition crash {S A : Type} (msg : string) : M S A := fun s => (Crash msg, s).
Definition outOfFuel {S A : Type} : M S A := fun s => (OutOfFuel, s).
Definition get {S : Type} : M S S := fun s => (Ok s, s).
Definition modify {S : Type} (f : S -> S) : M S unit := fun s => (Ok tt, f s).

(** [v, err := f()]: the error of [m] as a value. *)
Definition try {S A : Type} (m : M S A) : M S (error + A) :=
  fun s =>
    match m s with
    | (Ok a, s') => (Ok (inr a), s')
    | (Fail e, s') => (Ok (inl e), s')
    | (Crash msg, s') => (Crash msg, s')
    | (OutOfFuel, s') => (OutOfFuel, s')
    end.

Definition ofOutcome {S A : Type} (o : outcome A) : M S A :=
  match o with
  | Return a => mret a
  | Panic msg => crash msg
  end.

(** ** The importer *)

Inductive ImportResult : Type :=
| ImportBug (id : Id)
| ImportNothing (id : Id) (reason : string)
| ImportError (stage : string) (err : error) (id : string)
| ImportStatusChange (id : Id)
| ImportTitleEdition (id : Id)
| ImportComment (id : Id)
| ImportCommentEdition (id : Id)
| ImportIdentity (id : Id).

(** The fields of [giteaImporter] that a pass only reads. *)
Record giteaImporter := {
  gi_conf : gmap string string;
  gi_client : Client }.

(** What a pass changes: the store behind [repo], the importer's iterator,
    the results sent on [gi.out], and the fetches issued so far. *)
Record ImportState := {
  repo : cache.RepoCache;
  iterator : CompositeIterator.Iterator;
  out : list ImportResult;
  fetches : list Fetch }.

Section Importer.

(** The remote instance, and [text.Cleanup], a collaborator of the
    bridge. *)
Variable srv : Server.
Variable Cleanup : string -> error + string.

Definition send (r : ImportResult) : M ImportState unit :=
  modify (fun s => {| repo := repo s; iterator := iterator s;
                      out := out s ++ [r]; fetches := fetches s |}).

Definition onRepo {A : Type} (f : cache.RepoCache -> A * cache.RepoCache)
  : M ImportState A :=
  fun s =>
    let '(a, r) := f (repo s) in
    (Ok a, {| repo := r; iterator := iterator s; out := out s; fetches := fetches s |}).

(** Dereferencing the pointer [b]. *)
Definition deref (b : Id) : M ImportState cache.BugCache :=
  fun s =>
    match cache.ResolveBug (repo s) b with
    | Some bc => (Ok bc, s)
    | None => (Crash "nil pointer dereference", s)
    end.

Definition ofResult {A : Type} (r : error + A) : M ImportState A :=
  match r with
  | inl e => fail e
  | inr a => mret a
  end.

(** [ensurePerson]: the identity that carries the remote id, created
    from the remote profile when the store has none. The writes of the
    local store are modelled as succeeding, so the error return that the
    source has after [repo.NewIdentityRaw] has no counterpart here; the
    two returns on the errors of the lookups are modelled. *)
Definition ensurePerson (gi : giteaImporter) (id : Z) : M ImportState Id :=
  s ← get;
  match cache.ResolveIdentityImmutableMetadata (repo s) metaKeyGiteaId (strconv.Itoa id) with
  | inr i => mret (cache.ident_Id i)
  | inl err =>
      if cache.IsErrMultipleMatch err then fail err
      else
        user ← ofResult (GetUser srv (gi_client gi) id);
        i ← onRepo (cache.NewIdentityRaw
                      (user_Name user) (user_PublicEmail user)
                      (user_Username user) (user_AvatarURL user)
                      {[ metaKeyGiteaId := strconv.Itoa id;
                         metaKeyGiteaLogin := user_Username user ]});
        send (ImportIdentity (cache.ident_Id i));;
        mret (cache.ident_Id i)
  end.

(** The matcher of [ensureIssue], as the source writes it. *)
Definition issueMatcher (gi : giteaImporter) (issue : Issue)
    (excerpt : cache.BugExcerpt) : bool :=
  String.eqb (mapGet (cache.CreateMetadata excerpt) MetaKeyOrigin) target
  && String.eqb (mapGet (cache.CreateMetadata excerpt) metaKeyGiteaId)
       (parseID (issue_IID issue))
  && String.eqb (mapGet (cache.CreateMetadata excerpt) metaKeyGiteaBaseUrl)
       (mapGet (gi_conf gi) confKeyProjectID)
  && String.eqb (mapGet (cache.CreateMetadata excerpt) metaKeyGiteaProject)
       (mapGet (gi_conf gi) confKeyGiteaBaseUrl).

Definition ensureIssue (gi : giteaImporter) (issue : Issue) : M ImportState Id :=
  author ← ensurePerson gi (issue_AuthorID issue);
  s ← get;
  match cache.ResolveBugMatcher (repo s) (issueMatcher gi issue) with
  | inr b => mret b
  | inl err =>
      if negb (error_eqb err ErrBugNotExist) then fail err
      else
        cleanText ← ofResult (Cleanup (issue_Description issue));
        '(b, _) ← onRepo (cache.NewBugRaw author (issue_CreatedAt issue)
                     (issue_Title issue) cleanText
                     {[ MetaKeyOrigin := target;
                        metaKeyGiteaId := parseID (issue_IID issue);
                        metaKeyGiteaUrl := issue_WebURL issue;
                        metaKeyGiteaProject := mapGet (gi_conf gi) confKeyProjectID;
                        metaKeyGiteaBaseUrl := mapGet (gi_conf gi) confKeyGiteaBaseUrl ]});
        send (ImportBug b);;
        mret b
  end.

Definition ensureNote (gi : giteaImporter) (b : Id) (note : Note) : M ImportState unit :=
  let giteaID := parseID (note_ID note) in
  bc ← deref b;
  let resolved := cache.ResolveOperationWithMetadata bc metaKeyGiteaId giteaID in
  let errResolve := match resolved with inl e => Some e | inr _ => None end in
  match errResolve with
  | Some e =>
      if negb (error_eqb e ErrNoMatchingOp) then fail e else mret tt
  | None => mret tt
  end;;
  author ← ensurePerson gi (note_AuthorID note);
  '(noteType, body) ← ofOutcome (GetNoteType note);
  match noteType with
  | NOTE_CLOSED =>
      match errResolve with
      | None => mret tt
      | Some _ =>
          op ← onRepo (cache.appendRaw b author (note_CreatedAt note)
                         (bug.SetStatusOperation bug.ClosedStatus)
                         {[ metaKeyGiteaId := giteaID ]});
          send (ImportStatusChange (bug.op_Id op))
      end
  | NOTE_REOPENED =>
      match errResolve with
      | None => mret tt
      | Some _ =>
          op ← onRepo (cache.appendRaw b author (note_CreatedAt note)
                         (bug.SetStatusOperation bug.OpenStatus)
                         {[ metaKeyGiteaId := giteaID ]});
          send (ImportStatusChange (bug.op_Id op))
      end
  | NOTE_DESCRIPTION_CHANGED =>
      s ← get;
      issue ← ofOutcome (CompositeIterator.IssueValue (iterator s));
      bc ← deref b;
      firstComment ← ofOutcome (slice_at (bug.Comments (cache.Snapshot bc)) 0);
      match errResolve with
      | Some _ =>
          if negb (String.eqb (issue_Description issue) (bug.comment_Message firstComment))
          then
            op ← onRepo (cache.appendRaw b author (note_UpdatedAt note)
                           (bug.EditCommentOperation (bug.comment_Id firstComment)
                              (issue_Description issue))
                           {[ metaKeyGiteaId := giteaID ]});
            send (ImportTitleEdition (bug.op_Id op))
          else mret tt
      | None => mret tt
      end
  | NOTE_COMMENT =>
      cleanText ← ofResult (Cleanup body);
      match resolved with
      | inl _ =>
          op ← onRepo (cache.appendRaw b author (note_CreatedAt note)
                         (bug.AddCommentOperation cleanText)
                         {[ metaKeyGiteaId := giteaID ]});
          send (ImportComment (bug.op_Id op))
      | inr id =>
          bc ← deref b;
          comment ← ofResult (bug.SearchComment (cache.Snapshot bc) id);
          if negb (String.eqb (bug.comment_Message comment) cleanText)
          then
            op ← onRepo (cache.appendRaw b author (note_UpdatedAt note)
                           (bug.EditCommentOperation (bug.comment_Id comment) cleanText)
                           ∅);
            send (ImportCommentEdition (bug.op_Id op))
          else mret tt
      end
  | NOTE_TITLE_CHANGED =>
      match errResolve with
      | None => mret tt
      | Some _ =>
          op ← onRepo (cache.appendRaw b author (note_CreatedAt note)
                         (bug.SetTitleOperation body)
                         {[ metaKeyGiteaId := giteaID ]});
          send (ImportTitleEdition (bug.op_Id op))
      end
  | NOTE_UNKNOWN | NOTE_ASSIGNED | NOTE_UNASSIGNED
  | NOTE_CHANGED_MILESTONE | NOTE_REMOVED_MILESTONE
  | NOTE_CHANGED_DUEDATE | NOTE_REMOVED_DUEDATE
  | NOTE_LOCKED | NOTE_UNLOCKED
  | NOTE_MENTIONED_IN_ISSUE | NOTE_MENTIONED_IN_MERGE_REQUEST => mret tt
  end.

Definition ensureLabelEvent (gi : giteaImporter) (b : Id) (labelEvent : LabelEvent)
  : M ImportState unit :=
  bc ← deref b;
  match cache.ResolveOperationWithMetadata bc metaKeyGiteaId (parseID (le_ID labelEvent)) with
  | inr _ => mret tt
  | inl err =>
      if negb (error_eqb err ErrNoMatchingOp) then fail err
      else
        author ← ensurePerson gi (le_UserID labelEvent);
        if String.eqb (le_Action labelEvent) "add" then
          onRepo (cache.appendRaw b author (le_CreatedAt labelEvent)
                    (bug.LabelChangeOperation [le_LabelName labelEvent] [])
                    {[ metaKeyGiteaId := parseID (le_ID labelEvent) ]});;
          mret tt
        else if String.eqb (le_Action labelEvent) "remove" then
          onRepo (cache.appendRaw b author (le_CreatedAt labelEvent)
                    (bug.LabelChangeOperation [] [le_LabelName labelEvent])
                    {[ metaKeyGiteaId := parseID (le_ID labelEvent) ]});;
          mret tt
        else fail (ErrOther "unexpected label event action")
  end.

End Importer.

Section ImportAll.

Variable srv : Server.
Variable Cleanup : string -> error + string.
(** What [ctx.Err()] answers during the pass. *)
Variable ctxErr : option error.

(** One call of the importer's iterator. *)
Definition advance
    (call : Server -> option error -> CompositeIterator.Iterator -> CompositeIterator.Call)
  : M ImportState bool :=
  fun s =>
    let '(o, fs) := call srv ctxErr (iterator s) in
    match o with
    | Return (more, it) =>
        (Ok more, {| repo := repo s; iterator := it; out := out s;
                     fetches := fetches s ++ fs |})
    | Panic msg =>
        (Crash msg, {| repo := repo s; iterator := iterator s; out := out s;
                       fetches := fetches s ++ fs |})
    end.

(** [for gi.iterator.NextNote() { ... }]; a failed [ensureNote] is
    reported and ends the pass ([Fail]). *)
Fixpoint importNotes (fuel : nat) (gi : giteaImporter) (b : Id) : M ImportState unit :=
  match fuel with
  | O => outOfFuel
  | S f =>
      more ← advance CompositeIterator.NextNote;
      if more : bool then
        s ← get;
        note ← ofOutcome (CompositeIterator.NoteValue (iterator s));
        r ← try (ensureNote srv Cleanup gi b note);
        match r with
        | inl err =>
            send (ImportError "note creation" err (strconv.Itoa (note_ID note)));;
            fail err
        | inr _ => importNotes f gi b
        end
      else mret tt
  end.

Fixpoint importLabelEvents (fuel : nat) (gi : giteaImporter) (b : Id)
  : M ImportState unit :=
  match fuel with
  | O => outOfFuel
  | S f =>
      more ← advance CompositeIterator.NextLabelEvent;
      if more : bool then
        s ← get;
        labelEvent ← ofOutcome (CompositeIterator.LabelEventValue (iterator s));
        r ← try (ensureLabelEvent srv gi b labelEvent);
        match r with
        | inl err =>
            send (ImportError "label event creation" err (strconv.Itoa (le_ID labelEvent)));;
            fail err
        | inr _ => importLabelEvents f gi b
        end
      else mret tt
  end.

Fixpoint importIssues (fuel : nat) (gi : giteaImporter) : M ImportState unit :=
  match fuel with
  | O => outOfFuel
  | S f =>
      more ← advance CompositeIterator.NextIssue;
      if more : bool then
        s ← get;
        issue ← ofOutcome (CompositeIterator.IssueValue (iterator s));
        r ← try (ensureIssue srv Cleanup gi issue);
        match r with
        | inl err => send (ImportError "issue creation" err "");; fail err
        | inr b =>
            importNotes fuel gi b;;
            importLabelEvents fuel gi b;;
            bc ← deref b;
            (if negb (cache.NeedCommit bc)
             then send (ImportNothing b "no imported operation")
             else onRepo (fun r => (tt, cache.Commit b r)));;
            importIssues f gi
        end
      else mret tt
  end.

(** [ImportAll]: a new iterator of capacity 10, the loop over the
    issues, and the report of the iterator's sticky error. The source
    gives [NewIterator] the one string [gi.conf[confKeyProjectID]] where
    it takes an owner and a name; here it is the name, and the owner is
    [gi.conf[confKeyOwner]]. *)
Definition ImportAll (fuel : nat) (gi : giteaImporter) : M ImportState unit :=
  modify (fun s =>
    {| repo := repo s;
       iterator := CompositeIterator.NewIterator (gi_client gi) 10
                     (mapGet (gi_conf gi) confKeyOwner)
                     (mapGet (gi_conf gi) confKeyProjectID);
       out := out s; fetches := fetches s |});;
  importIssues fuel gi;;
  s ← get;
  match CompositeIterator.Error (iterator s) with
  | Some err => send (ImportError "" err "")
  | None => mret tt
  end.

End ImportAll.

(** ** The exporter *)

Inductive ExportResult : Type :=
| ExportNothing (id : Id) (reason : string)
| ExportError (err : error) (id : Id)
| ExportBug (id : Id)
| ExportComment (id : Id)
| ExportCommentEdition (id : Id)
| ExportStatusChange (id : Id)
| ExportTitleEdition (id : Id)
| ExportLabelChange (id : Id).

(** The write calls the exporter issues, in the order it issues them. *)
Inductive RemoteWrite : Type :=
| CallCreateIssue (gc : Client) (repositoryID title body : string)
| CallCreateIssueNote (gc : Client) (repositoryID : string) (issueID : Z) (body : string)
| CallUpdateIssueNote (gc : Client) (repositoryID : string) (issueID noteID : Z)
    (body : string)
| CallUpdateIssue (gc : Client) (repositoryID : string) (issueID : Z)
    (opts : UpdateIssueOptions).

(** [giteaExporter]. The struct declares [repositoryOwner] and
    [repositoryName]; [exportBug] reads [ge.repositoryID], kept here as a
    field of its own. The keys of [cachedOperationIDs] are operation ids
    (their [String()] in the source). *)
Record giteaExporter := {
  conf : gmap string string;
  identityClient : gmap Id Client;
  repositoryOwner : string;
  repositoryName : string;
  repositoryID : string;
  cachedOperationIDs : gmap Id string }.

Record ExportState := {
  ge : giteaExporter;
  store : cache.RepoCache;
  results : list ExportResult;
  calls : list RemoteWrite }.

(** [buildClient]: the client of an instance, authenticated with the
    token. The connection error of the SDK is not modelled. *)
Definition buildClient (baseURL : string) (token : auth.Credential) : Client :=
  {| client_baseURL := baseURL; client_token := auth.cred_Value token |}.

Definition setIdentityClient (g : giteaExporter) (m : gmap Id Client) : giteaExporter :=
  {| conf := conf g; identityClient := m; repositoryOwner := repositoryOwner g;
     repositoryName := repositoryName g; repositoryID := repositoryID g;
     cachedOperationIDs := cachedOperationIDs g |}.

Definition setCachedOperationIDs (g : giteaExporter) (m : gmap Id string) : giteaExporter :=
  {| conf := conf g; identityClient := identityClient g;
     repositoryOwner := repositoryOwner g; repositoryName := repositoryName g;
     repositoryID := repositoryID g; cachedOperationIDs := m |}.

(** The loop of [cacheAllClient] over [creds]; [all] is the whole slice,
    which the body indexes at 0. The result is the returned error and the
    exporter as the loop left it. *)
Fixpoint cacheAllClientLoop (repo : cache.RepoCache) (all creds : list auth.Credential)
    (g : giteaExporter) : outcome (option error * giteaExporter) :=
  match creds with
  | [] => Return (None, g)
  | cred :: rest =>
      match auth.GetMetadata cred MetaKeyLogin with
      | None => cacheAllClientLoop repo all rest g
      | Some login =>
          match cache.ResolveIdentityImmutableMetadata repo metaKeyGiteaLogin login with
          | inl err =>
              if error_eqb err ErrIdentityNotExist
              then cacheAllClientLoop repo all rest g
              else Return (None, g)
          | inr user =>
              match identityClient g !! cache.ident_Id user with
              | Some _ => cacheAllClientLoop repo all rest g
              | None =>
                  match all with
                  | [] => Panic "index out of range [0]"
                  | first :: _ =>
                      let client := buildClient (mapGet (conf g) confKeyGiteaBaseUrl) first in
                      cacheAllClientLoop repo all rest
                        (setIdentityClient g
                           (<[cache.ident_Id user := client]> (identityClient g)))
                  end
              end
          end
      end
  end.

Definition cacheAllClient (repo : cache.RepoCache) (baseURL : string) (g : giteaExporter)
  : outcome (option error * giteaExporter) :=
  let creds := auth.List (cache.credentials repo)
                 [auth.WithTarget target; auth.WithKind auth.KindToken;
                  auth.WithMeta MetaKeyBaseURL baseURL] in
  cacheAllClientLoop repo creds creds g.

(** [Init]; [repositoryID] is not set by the source and is given. *)
Definition Init (repo : cache.RepoCache) (cfg : gmap string string) (repositoryID : string)
  : outcome (option error * giteaExporter) :=
  cacheAllClient repo (mapGet cfg confKeyGiteaBaseUrl)
    {| conf := cfg; identityClient := ∅;
       repositoryOwner := mapGet cfg confKeyOwner;
       repositoryName := mapGet cfg confKeyProject;
       repositoryID := repositoryID;
       cachedOperationIDs := ∅ |}.

Definition getIdentityClient (g : giteaExporter) (userId : Id) : error + Client :=
  match identityClient g !! userId with
  | Some client => inr client
  | None => inl ErrMissingIdentityToken
  end.

Section Exporter.

Variable srv : Server.

Definition report (r : ExportResult) : M ExportState unit :=
  modify (fun s => {| ge := ge s; store := store s;
                      results := results s ++ [r]; calls := calls s |}).

Definition record (c : RemoteWrite) : M ExportState unit :=
  modify (fun s => {| ge := ge s; store := store s;
                      results := results s; calls := calls s ++ [c] |}).

Definition onStore {A : Type} (f : cache.RepoCache -> A * cache.RepoCache)
  : M ExportState A :=
  fun s =>
    let '(a, r) := f (store s) in
    (Ok a, {| ge := ge s; store := r; results := results s; calls := calls s |}).

(** [ge.cachedOperationIDs[key] = value] *)
Definition cacheOperationID (key : Id) (value : string) : M ExportState unit :=
  modify (fun s =>
    {| ge := setCachedOperationIDs (ge s) (<[key := value]> (cachedOperationIDs (ge s)));
       store := store s; results := results s; calls := calls s |}).

Definition derefBug (b : Id) : M ExportState cache.BugCache :=
  fun s =>
    match cache.ResolveBug (store s) b with
    | Some bc => (Ok bc, s)
    | None => (Crash "nil pointer dereference", s)
    end.

(** The remote calls: each is recorded, then answered by the instance. *)
Definition createGiteaIssue (gc : Client) (repositoryID title body : string)
  : M ExportState (error + (Z * Z * string)) :=
  record (CallCreateIssue gc repositoryID title body);;
  match CreateIssue srv gc repositoryID title body with
  | inl err => mret (inl err)
  | inr issue => mret (inr (issue_ID issue, issue_IID issue, issue_WebURL issue))
  end.

Definition addCommentGiteaIssue (gc : Client) (repositoryID : string) (issueID : Z)
    (body : string) : M ExportState (error + Z) :=
  record (CallCreateIssueNote gc repositoryID issueID body);;
  match CreateIssueNote srv gc repositoryID issueID body with
  | inl err => mret (inl err)
  | inr note => mret (inr (note_ID note))
  end.

Definition editCommentGiteaIssue (gc : Client) (repositoryID : string)
    (issueID noteID : Z) (body : string) : M ExportState (option error) :=
  record (CallUpdateIssueNote gc repositoryID issueID noteID body);;
  mret (UpdateIssueNote srv gc repositoryID issueID noteID body).

Definition updateIssue (gc : Client) (repositoryID : string) (issueID : Z)
    (opts : UpdateIssueOptions) : M ExportState (option error) :=
  record (CallUpdateIssue gc repositoryID issueID opts);;
  mret (UpdateIssue srv gc repositoryID issueID opts).

Definition updateGiteaIssueStatus (gc : Client) (repositoryID : string) (issueID : Z)
    (status : Z) : M ExportState (option error) :=
  if status =? bug.OpenStatus then
    updateIssue gc repositoryID issueID
      {| opt_Title := None; opt_Description := None; opt_Labels := None;
         opt_StateEvent := Some "reopen" |}
  else if status =? bug.ClosedStatus then
    updateIssue gc repositoryID issueID
      {| opt_Title := None; opt_Description := None; opt_Labels := None;
         opt_StateEvent := Some "close" |}
  else crash "unknown bug state".

Definition updateGiteaIssueBody (gc : Client) (repositoryID : string) (issueID : Z)
    (body : string) : M ExportState (option error) :=
  updateIssue gc repositoryID issueID
    {| opt_Title := None; opt_Description := Some body; opt_Labels := None;
       opt_StateEvent := None |}.

Definition updateGiteaIssueTitle (gc : Client) (repositoryID : string) (issueID : Z)
    (title : string) : M ExportState (option error) :=
  updateIssue gc repositoryID issueID
    {| opt_Title := Some title; opt_Description := None; opt_Labels := None;
       opt_StateEvent := None |}.

Definition updateGiteaIssueLabels (gc : Client) (repositoryID : string) (issueID : Z)
    (labels : list string) : M ExportState (option error) :=
  updateIssue gc repositoryID issueID
    {| opt_Title := None; opt_Description := None; opt_Labels := Some labels;
       opt_StateEvent := None |}.

Definition markOperationAsExported (b : Id) (target : Id) (giteaID giteaURL : string)
  : M ExportState unit :=
  onStore (cache.SetMetadata b target
             {[ metaKeyGiteaId := giteaID; metaKeyGiteaUrl := giteaURL ]});;
  mret tt.

Definition CommitAsNeeded (b : Id) : M ExportState unit :=
  onStore (fun r => (tt, cache.Commit b r)).

(** The first part of [exportBug], after the origin check: the remote
    issue of the bug, recorded on the creation operation or created now.
    [None] is a [return] of [exportBug]. The variable [GiteaBaseUrl] is
    declared and never assigned: it holds the empty string. *)
Definition remoteIssue (b : Id) (snapshot : bug.Snapshot) (createOp : bug.Operation)
    (title message : string) : M ExportState (option (Z * string)) :=
  let GiteaBaseUrl := "" in
  s ← get;
  match bug.GetCreateMetadata snapshot metaKeyGiteaId with
  | Some giteaID =>
      let otherInstance :=
        match bug.GetCreateMetadata snapshot metaKeyGiteaBaseUrl with
        | Some giteaBaseUrl =>
            negb (String.eqb giteaBaseUrl (mapGet (conf (ge s)) confKeyGiteaBaseUrl))
        | None => false
        end in
      if otherInstance then
        report (ExportNothing b "skipping issue imported from another Gitea instance");;
        mret None
      else
        match bug.GetCreateMetadata snapshot metaKeyGiteaProject with
        | None =>
            report (ExportError (ErrOther "expected to find gitea project id") b);;
            mret None
        | Some projectID =>
            if negb (String.eqb projectID (mapGet (conf (ge s)) confKeyProjectID)) then
              report (ExportNothing b "skipping issue imported from another repository");;
              mret None
            else
              match strconv.Atoi giteaID with
              | inl _ =>
                  report (ExportError (ErrOther ("unexpected gitea id format: " ++ giteaID)) b);;
                  mret None
              | inr bugGiteaID => mret (Some (bugGiteaID, giteaID))
              end
        end
  | None =>
      match getIdentityClient (ge s) (bug.op_Author createOp) with
      | inl _ => report (ExportNothing b "missing author token");; mret None
      | inr client =>
          r ← createGiteaIssue client (repositoryID (ge s)) title message;
          match r with
          | inl err => report (ExportError err b);; mret None
          | inr (_, id, url) =>
              let idString := strconv.Itoa id in
              report (ExportBug b);;
              onStore (cache.SetMetadata b (bug.op_Id createOp)
                         {[ metaKeyGiteaId := idString;
                            metaKeyGiteaUrl := url;
                            metaKeyGiteaBaseUrl := GiteaBaseUrl ]});;
              CommitAsNeeded b;;
              mret (Some (id, idString))
          end
      end
  end.

(** The state of the walk: the running label set and [bugUpdated]. *)
Record Walk := {
  labelSet : gset string;
  bugUpdated : bool }.

(** After the switch: the operation is marked as exported and the bug
    committed. *)
Definition exported (b : Id) (op : bug.Operation) (id : Z) (w : Walk)
  : M ExportState (option Walk) :=
  let url := "" in
  markOperationAsExported b (bug.op_Id op) (strconv.Itoa id) url;;
  CommitAsNeeded b;;
  mret (Some {| labelSet := labelSet w; bugUpdated := true |}).

(** One iteration of the loop over [snapshot.Operations[1:]]. [None] is
    a [return] of [exportBug], [Some] the walk going on. The source
    builds the list of labels by ranging over a Go map, in no fixed
    order; [elements] gives the labels in one order, and what is stated
    of the list is stated up to order. *)
Definition exportOperation (b : Id) (bugGiteaID : Z) (bugCreationId : Id)
    (op : bug.Operation) (w : Walk) : M ExportState (option Walk) :=
  match bug.op_Kind op with
  | bug.SetMetadataOperation _ _ => mret (Some w)
  | kind =>
      match bug.GetMetadata op metaKeyGiteaId with
      | Some id => cacheOperationID (bug.op_Id op) id;; mret (Some w)
      | None =>
          s ← get;
          match getIdentityClient (ge s) (bug.op_Author op) with
          | inl _ => mret (Some w)
          | inr client =>
              let repositoryID := repositoryID (ge s) in
              match kind with
              | bug.AddCommentOperation message =>
                  r ← addCommentGiteaIssue client repositoryID bugGiteaID message;
                  match r with
                  | inl err => report (ExportError err b);; mret None
                  | inr id =>
                      report (ExportComment (bug.op_Id op));;
                      cacheOperationID (bug.op_Id op) (strconv.Itoa id);;
                      exported b op id w
                  end
              | bug.EditCommentOperation targetId message =>
                  if N.eqb targetId bugCreationId then
                    r ← updateGiteaIssueBody client repositoryID bugGiteaID message;
                    match r with
                    | Some err => report (ExportError err b);; mret None
                    | None =>
                        report (ExportCommentEdition (bug.op_Id op));;
                        exported b op bugGiteaID w
                    end
                  else
                    match cachedOperationIDs (ge s) !! targetId with
                    | None =>
                        report (ExportError
                                  (ErrOther "unexpected error: comment id not found") targetId);;
                        mret None
                    | Some commentID =>
                        match strconv.Atoi commentID with
                        | inl _ =>
                            report (ExportError
                                      (ErrOther "unexpected comment id format") targetId);;
                            mret None
                        | inr commentIDint =>
                            r ← editCommentGiteaIssue client repositoryID bugGiteaID
                                  commentIDint message;
                            match r with
                            | Some err => report (ExportError err b);; mret None
                            | None =>
                                report (ExportCommentEdition (bug.op_Id op));;
                                exported b op commentIDint w
                            end
                        end
                    end
              | bug.SetStatusOperation status =>
                  r ← updateGiteaIssueStatus client repositoryID bugGiteaID status;
                  match r with
                  | Some err => report (ExportError err b);; mret None
                  | None =>
                      report (ExportStatusChange (bug.op_Id op));;
                      exported b op bugGiteaID w
                  end
              | bug.SetTitleOperation title =>
                  r ← updateGiteaIssueTitle client repositoryID bugGiteaID title;
                  match r with
                  | Some err => report (ExportError err b);; mret None
                  | None =>
                      report (ExportTitleEdition (bug.op_Id op));;
                      exported b op bugGiteaID w
                  end
              | bug.LabelChangeOperation added removed =>
                  let labelSet := fold_left (fun set label => {[ label ]} ∪ set)
                                    added (labelSet w) in
                  let labelSet := fold_left (fun set label => set ∖ {[ label ]})
                                    removed labelSet in
                  let labels := elements labelSet in
                  let w := {| labelSet := labelSet; bugUpdated := bugUpdated w |} in
                  r ← updateGiteaIssueLabels client repositoryID bugGiteaID labels;
                  match r with
                  | Some err => report (ExportError err b);; mret None
                  | None =>
                      report (ExportLabelChange (bug.op_Id op));;
                      exported b op bugGiteaID w
                  end
              | _ => crash "unhandled operation type case"
              end
          end
      end
  end.

Fixpoint exportOperations (b : Id) (bugGiteaID : Z) (bugCreationId : Id)
    (ops : list bug.Operation) (w : Walk) : M ExportState (option Walk) :=
  match ops with
  | [] => mret (Some w)
  | op :: rest =>
      r ← exportOperation b bugGiteaID bugCreationId op w;
      match r with
      | None => mret None
      | Some w' => exportOperations b bugGiteaID bugCreationId rest w'
      end
  end.

(** [exportBug]. The walk reads the operations of the snapshot taken at
    the start: an operation's metadata is read before any SetMetadata
    targets it (the targets are the creation operation, which is not
    walked, and the operation just exported). *)
Definition exportBug (b : Id) : M ExportState unit :=
  bc ← derefBug b;
  let snapshot := cache.Snapshot bc in
  let foreign :=
    match bug.GetCreateMetadata snapshot MetaKeyOrigin with
    | Some origin => negb (String.eqb origin target)
    | None => false
    end in
  if foreign then
    report (ExportNothing b
              ("issue tagged with origin: "
               ++ default "" (bug.GetCreateMetadata snapshot MetaKeyOrigin)))
  else
    match bug.Operations snapshot with
    | [] => crash "index out of range [0]"
    | createOp :: rest =>
        match bug.op_Kind createOp with
        | bug.CreateOperation title message =>
            found ← remoteIssue b snapshot createOp title message;
            match found with
            | None => mret tt
            | Some (bugGiteaID, bugGiteaIDString) =>
                let bugCreationId := bug.op_Id createOp in
                cacheOperationID bugCreationId bugGiteaIDString;;
                r ← exportOperations b bugGiteaID bugCreationId rest
                      {| labelSet := ∅; bugUpdated := false |};
                match r with
                | None => mret tt
                | Some w =>
                    if bugUpdated w then mret tt
                    else report (ExportNothing b "nothing has been exported")
                end
            end
        | _ => crash "interface conversion: not a CreateOperation"
        end
    end.

End Exporter.

(** Modelled from the spec: the snapshot's creation time is the time of
    the creation operation, and a snapshot has an actor when one of its
    operations is authored by it. *)
Definition CreateTime (snap : bug.Snapshot) : Z :=
  match bug.Operations snap with
  | [] => 0
  | op :: _ => bug.op_UnixTime op
  end.

Definition HasAnyActor (snap : bug.Snapshot) (ids : list Id) : bool :=
  existsb (fun op => existsb (N.eqb (bug.op_Author op)) ids) (bug.Operations snap).

Section ExportAll.

Variable srv : Server.
Variable ctxErr : option error.

Fixpoint exportBugs (since : Z) (allIdentitiesIds : list Id) (allBugsIds : list Id)
  : M ExportState unit :=
  match allBugsIds with
  | [] => mret tt
  | id :: rest =>
      match ctxErr with
      | Some _ => mret tt
      | None =>
          s ← get;
          match cache.ResolveBug (store s) id with
          | None => report (ExportError ErrBugNotExist id)
          | Some bc =>
              let snapshot := cache.Snapshot bc in
              if CreateTime snapshot <? since then
                report (ExportNothing id "bug created before the since date");;
                exportBugs since allIdentitiesIds rest
              else
                (if HasAnyActor snapshot allIdentitiesIds
                 then exportBug srv id else mret tt);;
                exportBugs since allIdentitiesIds rest
          end
      end
  end.

Definition ExportAll (since : Z) : M ExportState unit :=
  s ← get;
  exportBugs since (map fst (map_to_list (identityClient (ge s))))
    (map cache.bug_Id (cache.bugs (store s))).

End ExportAll.

(** ** Occurrences of a separator, and the title of the spec *)

(** [sep] occurs in [s]. *)
Definition occurs (sep s : string) : Prop :=
  exists a b : string, s = a ++ sep ++ b.



(** ** Runs of the iterators *)

(** A listing of [items] served in pages of [size] items: page 1 holds the
    first [size] items, page 2 the next ones, and so on; every answer
    reports the number of pages, the quotient of [length items] by [size]
    rounded up. *)
Definition pageOf {A : Type} (items : list A) (size page : Z) : list A :=
  firstn (Z.to_nat size) (skipn (Z.to_nat ((page - 1) * size)) items).

Definition totalPages {A : Type} (items : list A) (size : Z) : Z :=
  (Z.of_nat (length items) + size - 1) / size.

(** Calling [Next] until it returns false, with [Value] read after each
    call that returns true: the values read, the fetches issued, and the
    iterator at the end. [None] when a call fails, when a value is out of
    range, or when [fuel] calls did not reach the end. *)
Fixpoint drain (srv : Server) (conf : config) (fuel : nat)
    (ii : IssueIterator.issueIterator)
  : option (list Issue * list Fetch * IssueIterator.issueIterator) :=
  match fuel with
  | O => None
  | S f =>
      let st := IssueIterator.Next srv conf ii in
      match failure st with
      | Some _ => None
      | None =>
          if more st then
            match IssueIterator.Value (after st) with
            | Panic _ => None
            | Return v =>
                match drain srv conf f (after st) with
                | Some (vs, fs, ii') => Some (v :: vs, (fetched st ++ fs)%list, ii')
                | None => None
                end
            end
          else Some ([], fetched st, after st)
      end
  end.

(** The three advancing calls of the composite iterator. *)
Inductive Advance : Type := AdvanceIssue | AdvanceNote | AdvanceLabelEvent.

Definition advanceBy (srv : Server) (a : Advance) (ctxErr : option error)
    (i : CompositeIterator.Iterator) : CompositeIterator.Call :=
  match a with
  | AdvanceIssue => CompositeIterator.NextIssue srv ctxErr i
  | AdvanceNote => CompositeIterator.NextNote srv ctxErr i
  | AdvanceLabelEvent => CompositeIterator.NextLabelEvent srv ctxErr i
  end.

(** A sequence of advancing calls, each with what the context answers at
    its time: the results of the calls, the iterator at the end, and all
    the fetches issued. *)
Fixpoint runCalls (srv : Server) (cs : list (Advance * option error))
    (i : CompositeIterator.Iterator)
  : outcome (list bool * CompositeIterator.Iterator) * list Fetch :=
  match cs with
  | [] => (Return ([], i), [])
  | (a, ctxErr) :: rest =>
      match advanceBy srv a ctxErr i with
      | (Panic msg, fs) => (Panic msg, fs)
      | (Return (b, i'), fs) =>
          match runCalls srv rest i' with
          | (Panic msg, fs') => (Panic msg, (fs ++ fs')%list)
          | (Return (bs, i''), fs') => (Return (b :: bs, i''), (fs ++ fs')%list)
          end
      end
  end.

(** The pages of the listing of [items] in pages of [size] items. *)
Definition pagesOf {A : Type} (items : list A) (size : Z) : list (list A) :=
  map (fun i => pageOf items size (Z.of_nat (S i)))
      (seq 0 (Z.to_nat (totalPages items size))).

(** The error, if any, of the sub-iterator's [Next] behind an advancing
    call. *)
Definition subFailure (srv : Server) (a : Advance) (i : CompositeIterator.Iterator)
  : option error :=
  match a with
  | AdvanceIssue =>
      failure (IssueIterator.Next srv (CompositeIterator.conf i) (CompositeIterator.issue i))
  | AdvanceNote =>
      failure (NoteIterator.Next srv (CompositeIterator.conf i) (CompositeIterator.note i))
  | AdvanceLabelEvent =>
      failure (LabelEventIterator.Next srv (CompositeIterator.conf i)
                 (CompositeIterator.labelEvent i))
  end.

(** ** A concrete instance and store

    One remote project with the issue number 1, whose notes and label
    events are given; the users alice (id 7) and bob (id 8); a bridge
    configured for the instance [https://gitea.com/] and the project 42. *)
Module Scenario.

Definition baseURL : string := "https://gitea.com/".

Definition cfg : gmap string string :=
  {[ confKeyGiteaBaseUrl := baseURL;
     confKeyProjectID := "42";
     confKeyOwner := "alice";
     confKeyProject := "demo";
     confKeyDefaultLogin := "alice" ]}.

Definition alice : User :=
  {| user_ID := 7; user_Name := "Alice"; user_PublicEmail := "alice@example.org";
     user_Username := "alice"; user_AvatarURL := "" |}.

Definition bob : User :=
  {| user_ID := 8; user_Name := "Bob"; user_PublicEmail := "bob@example.org";
     user_Username := "bob"; user_AvatarURL := "" |}.

Definition token (id : Id) (login value : string) : auth.Credential :=
  {| auth.cred_ID := id; auth.cred_Target := target; auth.cred_Kind := auth.KindToken;
     auth.cred_Metadata := {[ MetaKeyLogin := login; MetaKeyBaseURL := baseURL ]};
     auth.cred_Value := value |}.

Definition tokenOfAlice : auth.Credential := token 1 "alice" "TOKEN-A".
Definition tokenOfBob : auth.Credential := token 2 "bob" "TOKEN-B".

Definition issue1 : Issue :=
  {| issue_ID := 100; issue_IID := 1; issue_Title := "first issue";
     issue_Description := "description"; issue_AuthorID := 7;
     issue_CreatedAt := 1000; issue_WebURL := "https://gitea.com/alice/demo/issues/1" |}.

(** A listing that fits in one page. *)
Definition onePage {A : Type} (l : list A) (page : Z) : Page A :=
  inr (if page =? 1 then l else [], 1).

Definition remote (notes : list Note) (events : list LabelEvent) : Server :=
  {| ListRepoIssues := fun _ _ _ page _ => onePage [issue1] page;
     ListIssueNotes := fun _ _ _ page _ => onePage notes page;
     ListIssueLabelEvents := fun _ _ _ page _ => onePage events page;
     GetUser := fun _ id =>
       if id =? 7 then inr alice
       else if id =? 8 then inr bob
       else inl (ErrRemote "404 Not Found");
     CreateIssue := fun _ _ title body =>
       inr {| issue_ID := 100; issue_IID := 1; issue_Title := title;
              issue_Description := body; issue_AuthorID := 7;
              issue_CreatedAt := 1000;
              issue_WebURL := "https://gitea.com/alice/demo/issues/1" |};
     CreateIssueNote := fun _ _ _ body =>
       inr {| note_ID := 500; note_System := false; note_Body := body;
              note_AuthorID := 7; note_CreatedAt := 2000; note_UpdatedAt := 2000 |};
     UpdateIssueNote := fun _ _ _ _ _ => None;
     UpdateIssue := fun _ _ _ _ => None |}.

Definition cleanup (s : string) : error + string := inr s.

Definition emptyStore (creds : list auth.Credential) : cache.RepoCache :=
  {| cache.bugs := []; cache.identities := []; cache.credentials := creds;
     cache.userIdentity := 1%N; cache.nextId := 10%N |}.

Definition gi : giteaImporter :=
  {| gi_conf := cfg; gi_client := buildClient baseURL tokenOfAlice |}.

Definition importFrom (r : cache.RepoCache) : ImportState :=
  {| repo := r;
     iterator := CompositeIterator.NewIterator (gi_client gi) 10 "" "";
     out := []; fetches := [] |}.

(** One import pass over the instance, into the store [r]. *)
Definition importPass (notes : list Note) (events : list LabelEvent)
    (r : cache.RepoCache) : res unit * ImportState :=
  ImportAll (remote notes events) cleanup None 8 gi (importFrom r).

Definition exporterOf (r : cache.RepoCache) : giteaExporter :=
  match Init r cfg "alice/demo" with
  | Return (_, g) => g
  | Panic _ =>
      {| conf := cfg; identityClient := ∅; repositoryOwner := "";
         repositoryName := ""; repositoryID := ""; cachedOperationIDs := ∅ |}
  end.

Definition exportFrom (r : cache.RepoCache) : ExportState :=
  {| ge := exporterOf r; store := r; results := []; calls := [] |}.

(** One export pass over the store [r], to the same instance. *)
Definition exportPass (r : cache.RepoCache) : res unit * ExportState :=
  ExportAll (remote [] []) None 0 (exportFrom r).

(** The tuple that identifies the remote issue of a bug. *)
Definition identity (b : cache.BugCache) : string * string * string * string :=
  let m := cache.CreateMetadata (cache.excerpt b) in
  (mapGet m MetaKeyOrigin, mapGet m metaKeyGiteaId,
   mapGet m metaKeyGiteaProject, mapGet m metaKeyGiteaBaseUrl).

(** The same remote state imported twice. *)
Definition importedOnce : ImportState := snd (importPass [] [] (emptyStore [tokenOfAlice])).
Definition importedTwice : ImportState := snd (importPass [] [] (repo importedOnce)).

(** A store with the identities of alice and bob and a token for
    each, the token of alice first. *)
Definition twoIdentities : cache.RepoCache :=
  let r := emptyStore [tokenOfAlice; tokenOfBob] in
  let '(_, r) :=
    cache.NewIdentityRaw "Alice" "alice@example.org" "alice" ""
      {[ metaKeyGiteaId := "7"; metaKeyGiteaLogin := "alice" ]} r in
  let '(_, r) :=
    cache.NewIdentityRaw "Bob" "bob@example.org" "bob" ""
      {[ metaKeyGiteaId := "8"; metaKeyGiteaLogin := "bob" ]} r in
  r.

(** A first import of the issue with the one comment whose id is the
    number of the issue, then an export. *)
Definition comment1 : Note :=
  {| note_ID := 1; note_System := false; note_Body := "hello";
     note_AuthorID := 7; note_CreatedAt := 1100; note_UpdatedAt := 1100 |}.

Definition freshlyImported : ImportState :=
  snd (importPass [comment1] [] (emptyStore [tokenOfAlice])).

(** The same with a comment of another id. *)
Definition comment5 : Note :=
  {| note_ID := 5; note_System := false; note_Body := "hello";
     note_AuthorID := 7; note_CreatedAt := 1100; note_UpdatedAt := 1100 |}.

(** A bug written locally by alice (identity 10, bug 11), exported,
    and exported again. *)
Definition localBug : cache.RepoCache :=
  let r := emptyStore [tokenOfAlice] in
  let '(_, r) :=
    cache.NewIdentityRaw "Alice" "alice@example.org" "alice" ""
      {[ metaKeyGiteaId := "7"; metaKeyGiteaLogin := "alice" ]} r in
  let '(_, r) := cache.NewBugRaw 10%N 1000 "local bug" "text" ∅ r in
  r.

Definition exportedOnce : ExportState :=
  snd (exportBug (remote [] []) 11%N (exportFrom localBug)).

Definition exportedTwice : ExportState :=
  snd (exportBug (remote [] []) 11%N (exportFrom (store exportedOnce))).

(** The issue imported with the labels A and B added remotely, then
    the label A removed locally by alice (identity 10, bug 11), then
    exported. *)
Definition addA : LabelEvent :=
  {| le_ID := 31; le_Action := "add"; le_LabelName := "A"; le_UserID := 7;
     le_CreatedAt := 1200 |}.
Definition addB : LabelEvent :=
  {| le_ID := 32; le_Action := "add"; le_LabelName := "B"; le_UserID := 7;
     le_CreatedAt := 1300 |}.

Definition labelled : cache.RepoCache :=
  repo (snd (importPass [] [addA; addB] (emptyStore [tokenOfAlice]))).

Definition labelRemoved : cache.RepoCache :=
  cache.Commit 11%N
    (snd (cache.appendRaw 11%N 10%N 1400 (bug.LabelChangeOperation [] ["A"]) ∅ labelled)).

(** The labels added and removed in one walk: both operations local. *)
Definition labelsLocal : cache.RepoCache :=
  let r := repo (snd (importPass [] [] (emptyStore [tokenOfAlice]))) in
  let r := snd (cache.appendRaw 11%N 10%N 1400 (bug.LabelChangeOperation ["A"; "B"] []) ∅ r) in
  let r := snd (cache.appendRaw 11%N 10%N 1500 (bug.LabelChangeOperation [] ["A"]) ∅ r) in
  cache.Commit 11%N r.

(** Three issues, to be listed in pages of two. *)
Definition issue2 : Issue :=
  {| issue_ID := 101; issue_IID := 2; issue_Title := "second issue";
     issue_Description := ""; issue_AuthorID := 7; issue_CreatedAt := 1001;
     issue_WebURL := "https://gitea.com/alice/demo/issues/2" |}.
Definition issue3 : Issue :=
  {| issue_ID := 102; issue_IID := 3; issue_Title := "third issue";
     issue_Description := ""; issue_AuthorID := 8; issue_CreatedAt := 1002;
     issue_WebURL := "https://gitea.com/alice/demo/issues/3" |}.

(** The instance whose project holds [items], listed by pages of the
    size asked. *)
Definition listing (items : list Issue) : Server :=
  {| ListRepoIssues := fun _ _ _ page size =>
       inr (pageOf items size page, totalPages items size);
     ListIssueNotes := ListIssueNotes (remote [] []);
     ListIssueLabelEvents := ListIssueLabelEvents (remote [] []);
     GetUser := GetUser (remote [] []);
     CreateIssue := CreateIssue (remote [] []);
     CreateIssueNote := CreateIssueNote (remote [] []);
     UpdateIssueNote := UpdateIssueNote (remote [] []);
     UpdateIssue := UpdateIssue (remote [] []) |}.

Definition pagesOfTwo : config :=
  {| gc := gi_client gi; timeout := 60; owner := "alice"; project := "demo";
     capacity := 2 |}.

(** The instance whose issue listing times out. *)
Definition unreachable : Server :=
  {| ListRepoIssues := fun _ _ _ _ _ => inl (ErrRemote "timeout");
     ListIssueNotes := ListIssueNotes (remote [] []);
     ListIssueLabelEvents := ListIssueLabelEvents (remote [] []);
     GetUser := GetUser (remote [] []);
     CreateIssue := CreateIssue (remote [] []);
     CreateIssueNote := CreateIssueNote (remote [] []);
     UpdateIssueNote := UpdateIssueNote (remote [] []);
     UpdateIssue := UpdateIssue (remote [] []) |}.

Definition freshIterator : CompositeIterator.Iterator :=
  CompositeIterator.NewIterator (gi_client gi) 10 "alice" "demo".

End Scenario.

(** ** Tagged operations *)

(** An operation that the export walk skips whoever its author is: a
    SetMetadata operation, or an operation that carries a remote id. *)
Definition tagged (op : bug.Operation) : bool :=
  match bug.GetMetadata op metaKeyGiteaId with
  | Some _ => true
  | None =>
      match bug.op_Kind op with
      | bug.SetMetadataOperation _ _ => true
      | _ => false
      end
  end.

Definition allTagged (r : cache.RepoCache) : bool :=
  forallb (fun b => forallb tagged (cache.bug_ops b)) (cache.bugs r).

Definition isCommentEdition (r : ImportResult) : bool :=
  match r with
  | ImportCommentEdition _ => true
  | _ => false
  end.

(** No edition of an already imported comment among the results. *)
Definition noCommentEdition (l : list ImportResult) : bool :=
  forallb (fun r => negb (isCommentEdition r)) l.

(** What a step of the importer does to the results sent and to the
    tags: results are only added, and unless a comment edition is among
    the results, a store of tagged operations stays one. *)
Definition grows (s s' : ImportState) : Prop :=
  (exists l : list ImportResult, out s' = (out s ++ l)%list)
  /\ (allTagged (repo s) = true ->
      noCommentEdition (out s') = true ->
      allTagged (repo s') = true).

Definition keeps {A : Type} (m : M ImportState A) : Prop :=
  forall s : ImportState, grows s (snd (m s)).


(** What a step of the exporter leaves alone: the store and the calls. *)
Definition silent (x x' : ExportState) : Prop :=
  store x' = store x /\ calls x' = calls x.

Definition quiet {A : Type} (m : M ExportState A) : Prop :=
  forall x : ExportState, silent x (snd (m x)).

Definition quietOnTagged {A : Type} (m : M ExportState A) : Prop :=
  forall x : ExportState, allTagged (store x) = true -> silent x (snd (m x)).

(** ** Runs of the note iterator *)

(** [drain] for the notes of one issue. *)
Fixpoint drainNotes (srv : Server) (conf : config) (fuel : nat)
    (it : NoteIterator.noteIterator)
  : option (list Note * list Fetch * NoteIterator.noteIterator) :=
  match fuel with
  | O => None
  | S f =>
      let st := NoteIterator.Next srv conf it in
      match failure st with
      | Some _ => None
      | None =>
          if more st then
            match NoteIterator.Value (after st) with
            | Panic _ => None
            | Return v =>
                match drainNotes srv conf f (after st) with
                | Some (vs, fs, it') => Some (v :: vs, (fetched st ++ fs)%list, it')
                | None => None
                end
            end
          else Some ([], fetched st, after st)
      end
  end.

(** Positions of the note iterator of the issue [iss] over a listing
    served as [pages]: inside page [k] (counted from 0) at index [j], and
    at rest on the last note of the last page. *)
Definition noteInPage (iss : Z) (pages : list (list Note)) (k j : nat)
  : NoteIterator.noteIterator :=
  {| NoteIterator.issue := iss;
     NoteIterator.page := Z.of_nat (S (S k));
     NoteIterator.lastPage := Z.of_nat (length pages) =? Z.of_nat (S k);
     NoteIterator.index := Z.of_nat j;
     NoteIterator.cache := nth k pages [] |}.

Definition noteExhausted (iss : Z) (pages : list (list Note)) : NoteIterator.noteIterator :=
  noteInPage iss pages (length pages - 1) (length (nth (length pages - 1) pages []) - 1).

Definition noteLaterFetches (iss : Z) (pages : list (list Note)) (k : nat) : list Fetch :=
  map (fun i => FetchNotes iss (Z.of_nat (S i))) (seq (S k) (length pages - S k)).

(** ** More concrete inputs *)
Module Cases.

Definition note (id : Z) (body : string) : Note :=
  {| note_ID := id; note_System := false; note_Body := body;
     note_AuthorID := 7; note_CreatedAt := 1100; note_UpdatedAt := 1100 |}.

Definition threeNotes : list Note := [note 51 "one"; note 52 "two"; note 53 "three"].

(** The instance of [Scenario.remote] whose notes are [notes], listed by
    pages of the size asked. *)
Definition noteListing (notes : list Note) : Server :=
  {| ListRepoIssues := ListRepoIssues (Scenario.remote [] []);
     ListIssueNotes := fun _ _ _ page size =>
       inr (pageOf notes size page, totalPages notes size);
     ListIssueLabelEvents := ListIssueLabelEvents (Scenario.remote [] []);
     GetUser := GetUser (Scenario.remote [] []);
     CreateIssue := CreateIssue (Scenario.remote [] []);
     CreateIssueNote := CreateIssueNote (Scenario.remote [] []);
     UpdateIssueNote := UpdateIssueNote (Scenario.remote [] []);
     UpdateIssue := UpdateIssue (Scenario.remote [] []) |}.

(** The instance whose note listing times out. *)
Definition notesUnreachable : Server :=
  {| ListRepoIssues := ListRepoIssues (Scenario.remote [] []);
     ListIssueNotes := fun _ _ _ _ _ => inl (ErrRemote "timeout");
     ListIssueLabelEvents := ListIssueLabelEvents (Scenario.remote [] []);
     GetUser := GetUser (Scenario.remote [] []);
     CreateIssue := CreateIssue (Scenario.remote [] []);
     CreateIssueNote := CreateIssueNote (Scenario.remote [] []);
     UpdateIssueNote := UpdateIssueNote (Scenario.remote [] []);
     UpdateIssue := UpdateIssue (Scenario.remote [] []) |}.

(** The iterator of [Scenario.remote] after its first [NextIssue]. *)
Definition onFirstIssue : CompositeIterator.Iterator :=
  match fst (CompositeIterator.NextIssue (Scenario.remote [] []) None
               Scenario.freshIterator) with
  | Return (_, i) => i
  | Panic _ => Scenario.freshIterator
  end.

(** A bridge configured with the one string as project and as base
    URL. *)
Definition oneString : giteaImporter :=
  {| gi_conf := {[ confKeyGiteaBaseUrl := "42"; confKeyProjectID := "42" ]};
     gi_client := gi_client Scenario.gi |}.

(** The store of [Scenario] after the import of its issue alone: the
    identity 10 of alice and the bug 11. *)
Definition afterIssue : ImportState :=
  snd (ensureIssue (Scenario.remote [] []) Scenario.cleanup Scenario.gi Scenario.issue1
         (Scenario.importFrom (Scenario.emptyStore [Scenario.tokenOfAlice]))).

(** The same after the import of one note, and of one label event. *)
Definition afterNote (n : Note) : ImportState :=
  snd (ensureNote (Scenario.remote [] []) Scenario.cleanup Scenario.gi 11%N n afterIssue).

Definition afterLabelEvent (e : LabelEvent) : ImportState :=
  snd (ensureLabelEvent (Scenario.remote [] []) Scenario.gi 11%N e afterIssue).

(** The note of the closing of the issue. *)
Definition closing : Note :=
  {| note_ID := 61; note_System := true; note_Body := "closed";
     note_AuthorID := 7; note_CreatedAt := 1200; note_UpdatedAt := 1200 |}.

(** A local change of labels by alice, and a walk that has seen the
    label C. *)
Definition relabel : bug.Operation :=
  {| bug.op_Id := 20%N; bug.op_Author := 10%N; bug.op_UnixTime := 1400;
     bug.op_Kind := bug.LabelChangeOperation ["A"; "B"] ["A"];
     bug.op_Metadata := ∅ |}.

Definition seenC : Walk := {| labelSet := {[ "C" ]}; bugUpdated := false |}.

(** The instance whose user profiles cannot be fetched. *)
Definition usersUnreachable : Server :=
  {| ListRepoIssues := ListRepoIssues (Scenario.remote [] []);
     ListIssueNotes := ListIssueNotes (Scenario.remote [] []);
     ListIssueLabelEvents := ListIssueLabelEvents (Scenario.remote [] []);
     GetUser := fun _ _ => inl (ErrRemote "timeout");
     CreateIssue := CreateIssue (Scenario.remote [] []);
     CreateIssueNote := CreateIssueNote (Scenario.remote [] []);
     UpdateIssueNote := UpdateIssueNote (Scenario.remote [] []);
     UpdateIssue := UpdateIssue (Scenario.remote [] []) |}.

End Cases.

(** ** What the importer does to the store *)

(** A step of the importer related by [R] to the state it starts from. *)
Definition preserves (R : ImportState -> ImportState -> Prop) {A : Type}
    (m : M ImportState A) : Prop :=
  forall s : ImportState, R s (snd (m s)).

(** A relation on stores, read on the states of the importer. *)
Definition onRepos (Rr : cache.RepoCache -> cache.RepoCache -> Prop)
    (s s' : ImportState) : Prop :=
  Rr (repo s) (repo s').

(** The bug [b'] is the bug [b] with operations appended. *)
Definition bugExtends (b b' : cache.BugCache) : Prop :=
  cache.bug_Id b' = cache.bug_Id b
  /\ exists l : list bug.Operation, cache.bug_ops b' = (cache.bug_ops b ++ l)%list.

(** The store [r'] is the store [r] with operations appended to its bugs,
    and bugs and identities appended to its lists; the credentials and the
    user are the same, and the counter of ids has not gone back. *)
Definition storeExtends (r r' : cache.RepoCache) : Prop :=
  (exists (bs news : list cache.BugCache),
     cache.bugs r' = (bs ++ news)%list /\ Forall2 bugExtends (cache.bugs r) bs)
  /\ (exists l : list cache.IdentityCache,
        cache.identities r' = (cache.identities r ++ l)%list)
  /\ cache.credentials r' = cache.credentials r
  /\ cache.userIdentity r' = cache.userIdentity r
  /\ (cache.nextId r <= cache.nextId r')%N.

(** The same bugs. *)
Definition sameBugs (r r' : cache.RepoCache) : Prop :=
  cache.bugs r' = cache.bugs r.

(** The bugs of [r'] are those of [r] with at most one operation, which
    satisfies [P], appended to the bug [b] and to no other. *)
Definition oneMore (P : bug.Operation -> Prop) (b : Id) (r r' : cache.RepoCache) : Prop :=
  cache.bugs r' = cache.bugs r
  \/ exists op : bug.Operation,
       P op
       /\ cache.bugs r'
          = map (fun bc =>
                   if N.eqb (cache.bug_Id bc) b
                   then {| cache.bug_Id := cache.bug_Id bc;
                           cache.bug_ops := (cache.bug_ops bc ++ [op])%list;
                           cache.bug_staged := S (cache.bug_staged bc) |}
                   else bc) (cache.bugs r).

(** A step of the importer that appends at most one operation, which
    satisfies [P], to the bug [b] and leaves the other bugs as they are. *)
Definition appendsAtMostOne (P : bug.Operation -> Prop) (b : Id) {A : Type}
    (m : M ImportState A) : Prop :=
  forall s : ImportState, oneMore P b (repo s) (repo (snd (m s))).

(** The bugs of [r'] are those of [r], followed by at most one new bug,
    which satisfies [P]. *)
Definition oneMoreBug (P : cache.BugCache -> Prop) (r r' : cache.RepoCache) : Prop :=
  cache.bugs r' = cache.bugs r
  \/ exists bc : cache.BugCache, P bc /\ cache.bugs r' = (cache.bugs r ++ [bc])%list.

(** ** What the exporter does to the store *)

(** A step of the exporter related by [R] to the state it starts from. *)
Definition preservesE (R : ExportState -> ExportState -> Prop) {A : Type}
    (m : M ExportState A) : Prop :=
  forall x : ExportState, R x (snd (m x)).

(** The keys that the exporter writes on an operation. *)
Definition exportKeys : list string :=
  [metaKeyGiteaId; metaKeyGiteaUrl; metaKeyGiteaBaseUrl].

(** The operation [o'] is the operation [o] with entries added to its
    metadata, under the keys of the exporter only. *)
Definition opKept (o o' : bug.Operation) : Prop :=
  bug.op_Id o' = bug.op_Id o
  /\ bug.op_Author o' = bug.op_Author o
  /\ bug.op_UnixTime o' = bug.op_UnixTime o
  /\ bug.op_Kind o' = bug.op_Kind o
  /\ (forall (k v : string),
        bug.op_Metadata o !! k = Some v -> bug.op_Metadata o' !! k = Some v)
  /\ (forall k : string,
        ~ In k exportKeys -> bug.op_Metadata o' !! k = bug.op_Metadata o !! k).

Definition isSetMetadata (o : bug.Operation) : Prop :=
  exists (t : Id) (m : gmap string string), bug.op_Kind o = bug.SetMetadataOperation t m.

(** The bug [b'] is the bug [b], its operations kept, followed by
    SetMetadata operations. *)
Definition bugKept (b b' : cache.BugCache) : Prop :=
  cache.bug_Id b' = cache.bug_Id b
  /\ exists (ops news : list bug.Operation),
       cache.bug_ops b' = (ops ++ news)%list
       /\ Forall2 opKept (cache.bug_ops b) ops
       /\ List.Forall isSetMetadata news.

(** The store [r'] holds the bugs of [r], kept, and the same identities,
    credentials and user. *)
Definition storeKept (r r' : cache.RepoCache) : Prop :=
  Forall2 bugKept (cache.bugs r) (cache.bugs r')
  /\ cache.identities r' = cache.identities r
  /\ cache.credentials r' = cache.credentials r
  /\ cache.userIdentity r' = cache.userIdentity r
  /\ (cache.nextId r <= cache.nextId r')%N.

(** What a step of the exporter may do: keep the store, add results and
    calls, and leave the configuration and the clients of the exporter
    as they are. *)
Definition exportKeeps (x x' : ExportState) : Prop :=
  storeKept (store x) (store x')
  /\ conf (ge x') = conf (ge x)
  /\ identityClient (ge x') = identityClient (ge x)
  /\ repositoryID (ge x') = repositoryID (ge x)
  /\ (exists l : list ExportResult, results x' = (results x ++ l)%list)
  /\ (exists l : list RemoteWrite, calls x' = (calls x ++ l)%list).

(** ** The fetch behind an advancing call *)

(** The sub-iterator behind an advancing call is due to fetch: it is not
    marked exhausted, and it holds no page or stands on the last item of
    the page it holds. Its [Next] then goes through [getNext] to the
    listing call. *)
Definition dueToFetch (a : Advance) (i : CompositeIterator.Iterator) : bool :=
  match a with
  | AdvanceIssue =>
      let ii := CompositeIterator.issue i in
      negb (IssueIterator.lastPage ii)
      && match IssueIterator.cache ii with
         | [] => true
         | _ => negb (IssueIterator.index ii
                      <? Z.of_nat (length (IssueIterator.cache ii)) - 1)
         end
  | AdvanceNote =>
      let it := CompositeIterator.note i in
      negb (NoteIterator.lastPage it)
      && match NoteIterator.cache it with
         | [] => true
         | _ => negb (NoteIterator.index it
                      <? Z.of_nat (length (NoteIterator.cache it)) - 1)
         end
  | AdvanceLabelEvent =>
      let it := CompositeIterator.labelEvent i in
      negb (LabelEventIterator.lastPage it)
      && match LabelEventIterator.cache it with
         | [] => true
         | _ => negb (LabelEventIterator.index it
                      <? Z.of_nat (length (LabelEventIterator.cache it)) - 1)
         end
  end.

(** What the remote instance answers to the listing call of that fetch,
    the page the sub-iterator stands at: the error of the call, if it
    fails. *)
Definition fetchError (srv : Server) (a : Advance) (i : CompositeIterator.Iterator)
  : option error :=
  let c := CompositeIterator.conf i in
  match a with
  | AdvanceIssue =>
      match ListRepoIssues srv (gc c) (owner c) (project c)
              (IssueIterator.page (CompositeIterator.issue i)) (capacity c) with
      | inl e => Some e
      | inr _ => None
      end
  | AdvanceNote =>
      match ListIssueNotes srv (gc c) (project c)
              (NoteIterator.issue (CompositeIterator.note i))
              (NoteIterator.page (CompositeIterator.note i)) (capacity c) with
      | inl e => Some e
      | inr _ => None
      end
  | AdvanceLabelEvent =>
      match ListIssueLabelEvents srv (gc c) (project c)
              (LabelEventIterator.issue (CompositeIterator.labelEvent i))
              (LabelEventIterator.page (CompositeIterator.labelEvent i)) (capacity c) with
      | inl e => Some e
      | inr _ => None
      end
  end.

(** The fetch itself, as the log of fetches records it. *)
Definition fetchOf (a : Advance) (i : CompositeIterator.Iterator) : Fetch :=
  match a with
  | AdvanceIssue => FetchIssues (IssueIterator.page (CompositeIterator.issue i))
  | AdvanceNote =>
      FetchNotes (NoteIterator.issue (CompositeIterator.note i))
        (NoteIterator.page (CompositeIterator.note i))
  | AdvanceLabelEvent =>
      FetchLabelEvents (LabelEventIterator.issue (CompositeIterator.labelEvent i))
        (LabelEventIterator.page (CompositeIterator.labelEvent i))
  end.

(** ** What an import pass appends, operation by operation *)

(** An appended operation is accounted for by the results [sent]: it is
    tagged, or it was reported as the edition of an imported comment. *)
Definition accounted (sent : list ImportResult) (op : bug.Operation) : Prop :=
  tagged op = true \/ In (ImportCommentEdition (bug.op_Id op)) sent.

(** The bug [b'] is the bug [b] with operations appended, all accounted
    for. *)
Definition bugAccounted (sent : list ImportResult) (b b' : cache.BugCache) : Prop :=
  cache.bug_Id b' = cache.bug_Id b
  /\ exists added : list bug.Operation,
       cache.bug_ops b' = (cache.bug_ops b ++ added)%list
       /\ List.Forall (accounted sent) added.

(** The bugs of [r'] are the bugs of [r], in place, with operations
    accounted for by [sent] appended, followed by bugs that hold only
    such operations. *)
Definition storeAccounted (sent : list ImportResult) (r r' : cache.RepoCache) : Prop :=
  exists (bs news : list cache.BugCache),
    cache.bugs r' = (bs ++ news)%list
    /\ Forall2 (bugAccounted sent) (cache.bugs r) bs
    /\ List.Forall (fun b => List.Forall (accounted sent) (cache.bug_ops b)) news.

(** What a step of the importer does to the bugs and to the results:
    results are added, and they account for what the bugs receive. *)
Definition importAccounts (s s' : ImportState) : Prop :=
  exists sent : list ImportResult,
    out s' = (out s ++ sent)%list /\ storeAccounted sent (repo s) (repo s').

(** An instance for the round trip: the issue of [Scenario] with one
    comment, imported into a store that already holds a bug written
    locally and never exported. *)
Module RoundTrip.

Definition imported : ImportState :=
  snd (ImportAll (Scenario.remote [Scenario.comment5] []) Scenario.cleanup None 8
         Scenario.gi (Scenario.importFrom Scenario.localBug)).

End RoundTrip.


(** * Facts about the string functions *)

#[local] Arguments String.append !s1 s2 : simpl nomatch.

Section StringFacts.

Import GoStrings.

Lemma length_append_s (a b : string) :
  String.length (a ++ b) = (String.length a + String.length b)%nat.
Proof. induction a as [|c a IH]; simpl; [reflexivity | now rewrite IH]. Qed.






Lemma HasPrefix_app (p r : string) : HasPrefix (p ++ r) p = true.
Proof.
  induction p as [|c p IH]; simpl; [reflexivity |].
  now rewrite Ascii.eqb_refl.
Qed.

Lemma HasPrefix_inv (s p : string) :
  HasPrefix s p = true -> s = p ++ drop (String.length p) s.
Proof.
  revert s; induction p as [|c p IH]; intros s H; simpl in *; [reflexivity |].
  destruct s as [|d s]; [discriminate |].
  destruct (Ascii.eqb_spec c d) as [->|]; [| discriminate].
  simpl. f_equal. now apply IH.
Qed.



(** [Index] finds an instance... *)
Lemma Index_Some_split (s sep : string) (m : nat) :
  Index s sep = Some m ->
  s = take m s ++ sep ++ drop (m + String.length sep) s.
Proof.
  revert m; induction s as [|c s IH]; intros m H.
  - simpl in H. destruct (HasPrefix "" sep) eqn:E; [| discriminate].
    injection H as <-. simpl. now apply HasPrefix_inv.
  - cbn [Index] in H. destruct (HasPrefix (String c s) sep) eqn:E.
    + injection H as <-. simpl take. simpl. now apply HasPrefix_inv in E.
    + destruct (Index s sep) as [k|] eqn:Ek; [| discriminate].
      injection H as <-. simpl. f_equal. now apply IH.
Qed.

(** ... and only misses when there is none. *)
Lemma Index_None_iff (s sep : string) :
  Index s sep = None <-> ~ occurs sep s.
Proof.
  split.
  - induction s as [|c s IH]; intros H [a [b E]].
    + simpl in H. destruct (HasPrefix "" sep) eqn:Ep; [discriminate |].
      destruct a; [| discriminate]. simpl in E.
      rewrite E, HasPrefix_app in Ep. discriminate.
    + cbn [Index] in H. destruct (HasPrefix (String c s) sep) eqn:Ep; [discriminate |].
      destruct (Index s sep) eqn:Ei; [discriminate |].
      destruct a as [|d a]; simpl in E.
      * rewrite E, HasPrefix_app in Ep. discriminate.
      * injection E as _ E. apply IH; [reflexivity |]. now exists a, b.
  - intros H. destruct (Index s sep) as [m|] eqn:E; [| reflexivity].
    exfalso. apply H. apply Index_Some_split in E.
    now exists (take m s), (drop (m + String.length sep) s).
Qed.





(** Past the length of the string the fuel of [countLoop] is idle. *)
Lemma Index_Some_shrinks (s sep : string) (m : nat) :
  sep <> "" -> Index s sep = Some m ->
  (String.length (drop (m + String.length sep) s) < String.length s)%nat.
Proof.
  intros Hne H. apply Index_Some_split in H.
  apply (f_equal String.length) in H. rewrite !length_append_s in H.
  destruct sep; [congruence | simpl in *; lia].
Qed.

Lemma countLoop_fuel (sep : string) :
  sep <> "" ->
  forall (f1 f2 : nat) (s : string),
    (String.length s <= f1)%nat -> (String.length s <= f2)%nat ->
    countLoop f1 s sep = countLoop f2 s sep.
Proof.
  intros Hne. induction f1 as [|f1 IH]; intros f2 s H1 H2.
  - destruct s; [| simpl in H1; lia].
    destruct f2; simpl; [reflexivity |].
    destruct sep; [congruence | reflexivity].
  - destruct f2 as [|f2].
    + destruct s; [| simpl in H2; lia]. simpl.
      destruct sep; [congruence | reflexivity].
    + simpl. destruct (Index s sep) as [m|] eqn:E; [| reflexivity].
      f_equal. pose proof (Index_Some_shrinks s sep m Hne E).
      apply IH; clear IH; lia.
Qed.

Lemma Count_Some (s sep : string) (m : nat) :
  sep <> "" -> Index s sep = Some m ->
  Count s sep = S (Count (drop (m + String.length sep) s) sep).
Proof.
  intros Hne E. unfold Count. destruct sep as [|d sep]; [congruence |].
  pose proof (Index_Some_shrinks s _ m Hne E) as Hlt.
  destruct (String.length s) as [|n] eqn:En; [lia |].
  cbn [countLoop]. rewrite E. f_equal.
  apply countLoop_fuel; [assumption | lia | lia].
Qed.

Lemma Count_None (s sep : string) :
  sep <> "" -> Index s sep = None -> Count s sep = O.
Proof.
  intros Hne E. unfold Count. destruct sep; [congruence |].
  destruct (String.length s); simpl; [reflexivity | now rewrite E].
Qed.

(** [Split] cuts at the first instance and splits the rest. *)
Lemma Split_None (s sep : string) :
  sep <> "" -> Index s sep = None -> Split s sep = [s].
Proof.
  intros Hne E. unfold Split. rewrite (Count_None s sep Hne E).
  destruct sep; [congruence | reflexivity].
Qed.

Lemma Split_Some (s sep : string) (m : nat) :
  sep <> "" -> Index s sep = Some m ->
  Split s sep = take m s :: Split (drop (m + String.length sep) s) sep.
Proof.
  intros Hne E. unfold Split. rewrite (Count_Some s sep m Hne E).
  destruct sep; [congruence |]. cbn [splitLoop]. now rewrite E.
Qed.

Lemma Split_head (s sep : string) :
  sep <> "" ->
  exists (h : string) (t : list string),
    Split s sep = h :: t /\
    h = match Index s sep with Some k => take k s | None => s end.
Proof.
  intros Hne. destruct (Index s sep) as [k|] eqn:E.
  - rewrite (Split_Some s sep k Hne E). eauto.
  - rewrite (Split_None s sep Hne E). eauto.
Qed.


End StringFacts.

(** * The note classifier *)

Section Classifier.

Import GoStrings.

Lemma title_separator_nonempty : title_separator <> "".
Proof. discriminate. Qed.

Lemma getNewTitle_absent (diff : string) :
  ~ occurs title_separator diff ->
  getNewTitle diff = Panic "index out of range [1]".
Proof.
  intros H. apply Index_None_iff in H. unfold getNewTitle.
  now rewrite (Split_None _ _ title_separator_nonempty H).
Qed.

Lemma getNewTitle_present (diff : string) (m : nat) :
  Index diff title_separator = Some m ->
  let rest := drop (m + String.length title_separator) diff in
  let seg := match Index rest title_separator with
             | Some k => take k rest
             | None => rest
             end in
  getNewTitle diff
  = Return (TrimSuffix (ReplaceAll (ReplaceAll seg "{+" "") "+}" "") "**").
Proof.
  intros E rest seg. unfold getNewTitle.
  rewrite (Split_Some _ _ _ title_separator_nonempty E).
  destruct (Split_head rest title_separator title_separator_nonempty)
    as [h [t [Es Eh]]].
  fold rest. rewrite Es. cbn [nth_error]. now rewrite Eh.
Qed.

(** A body that starts with [changed title from] is none of the literal
    bodies tested before the title rule. *)
Lemma title_prefix_not_literal (body : string) :
  HasPrefix body "changed title from" = true ->
  String.eqb body "closed" = false
  /\ String.eqb body "reopened" = false
  /\ String.eqb body "changed the description" = false
  /\ String.eqb body "locked this issue" = false
  /\ String.eqb body "unlocked this issue" = false.
Proof.
  intros H. apply HasPrefix_inv in H. rewrite H. repeat split; reflexivity.
Qed.

Lemma GetNoteType_title (n : Note) :
  note_System n = true ->
  HasPrefix (note_Body n) "changed title from" = true ->
  GetNoteType n
  = obind (getNewTitle (note_Body n)) (fun t => Return (NOTE_TITLE_CHANGED, t)).
Proof.
  intros Hs Hp. unfold GetNoteType. rewrite Hs. cbn [negb].
  destruct (title_prefix_not_literal _ Hp) as (-> & -> & -> & -> & ->).
  now rewrite Hp.
Qed.

End Classifier.




(** C10. A system note whose body starts with [changed title from]:
    without [** to **] in the body [GetNoteType] panics on the index 1 of
    a one-element slice; with it, the note is classified as a title change
    with the title [getNewTitle] extracts. *)
Theorem C10_title_classification_partial (n : Note) :
  note_System n = true ->
  GoStrings.HasPrefix (note_Body n) "changed title from" = true ->
  (~ occurs "** to **" (note_Body n) ->
   GetNoteType n = Panic "index out of range [1]")
  /\ (occurs "** to **" (note_Body n) ->
      exists t : string,
        getNewTitle (note_Body n) = Return t
        /\ GetNoteType n = Return (NOTE_TITLE_CHANGED, t)).
Proof.
  intros Hs Hp. rewrite (GetNoteType_title n Hs Hp). split.
  - intros Hno. now rewrite (getNewTitle_absent _ Hno).
  - intros Hocc.
    destruct (GoStrings.Index (note_Body n) title_separator) as [m|] eqn:E.
    + rewrite (getNewTitle_present _ _ E). cbn zeta. eexists. split; reflexivity.
    + apply Index_None_iff in E. contradiction.
Qed.

Lemma C10_title_classification_partial_witness :
  GetNoteType {| note_ID := 1; note_System := true;
                 note_Body := "changed title from a to b";
                 note_AuthorID := 1; note_CreatedAt := 0; note_UpdatedAt := 0 |}
  = Panic "index out of range [1]".
Proof.
  apply (C10_title_classification_partial
           {| note_ID := 1; note_System := true;
              note_Body := "changed title from a to b";
              note_AuthorID := 1; note_CreatedAt := 0; note_UpdatedAt := 0 |}).
  - reflexivity.
  - reflexivity.
  - apply Index_None_iff. reflexivity.
Defined.

(** * The issue iterator over a paged listing *)

Section Pagination.

Local Open Scope list_scope.

Import IssueIterator.

Variable srv : Server.
Variable conf : config.
(** The pages the instance serves, all non-empty, each answer reporting
    their number. *)
Variable pages : list (list Issue).
Hypothesis pages_nonempty : Forall (fun p => p <> []) pages.
Hypothesis served :
  forall k : nat,
    (k < length pages)%nat ->
    ListRepoIssues srv (gc conf) (owner conf) (project conf)
      (Z.of_nat (S k)) (capacity conf)
    = inr (nth k pages [], Z.of_nat (length pages)).

Local Abbreviation inPage := (IssueIterator.inPage pages).
Local Abbreviation laterFetches := (IssueIterator.laterFetches pages).
Local Abbreviation exhausted := (IssueIterator.exhausted pages).

Lemma drain_S (fuel : nat) (ii : issueIterator) :
  drain srv conf (S fuel) ii
  = match failure (Next srv conf ii) with
    | Some _ => None
    | None =>
        if more (Next srv conf ii) then
          match Value (after (Next srv conf ii)) with
          | Panic _ => None
          | Return v =>
              match drain srv conf fuel (after (Next srv conf ii)) with
              | Some (vs, fs, ii') =>
                  Some (v :: vs, fetched (Next srv conf ii) ++ fs, ii')
              | None => None
              end
          end
        else Some ([], fetched (Next srv conf ii), after (Next srv conf ii))
    end.
Proof. reflexivity. Qed.

Lemma nth_page_nonempty (k : nat) :
  (k < length pages)%nat -> nth k pages [] <> [].
Proof.
  intros Hk. apply (proj1 (List.Forall_forall _ _) pages_nonempty).
  now apply nth_In.
Qed.

Lemma slice_at_middle {A : Type} (pre suf : list A) (x : A) :
  slice_at (pre ++ x :: suf) (Z.of_nat (length pre)) = Return x.
Proof.
  unfold slice_at. destruct (Z.ltb_spec (Z.of_nat (length pre)) 0); [lia |].
  rewrite Nat2Z.id. rewrite nth_error_app2 by lia.
  now rewrite Nat.sub_diag.
Qed.

Lemma Value_inPage (k : nat) (pre suf : list Issue) (x : Issue) :
  nth k pages [] = pre ++ x :: suf ->
  Value (inPage k (length pre)) = Return x.
Proof.
  intros Hc. unfold Value, IssueIterator.inPage. cbn [cache index]. rewrite Hc.
  apply slice_at_middle.
Qed.

(** Inside a page, [Next] moves the index without fetching. *)
Lemma Next_inPage (k : nat) (pre suf : list Issue) (x y : Issue) :
  nth k pages [] = pre ++ x :: y :: suf ->
  Next srv conf (inPage k (length pre))
  = Build_Step true None (inPage k (S (length pre))) [].
Proof.
  intros Hc. unfold Next, IssueIterator.inPage. cbn [cache index page lastPage]. rewrite Hc.
  destruct (pre ++ x :: y :: suf) eqn:E; [now destruct pre |]. rewrite <- E.
  destruct (Z.ltb_spec (Z.of_nat (length pre))
              (Z.of_nat (length (pre ++ x :: y :: suf)) - 1)) as [_|Hge].
  2: { rewrite length_app in Hge. simpl in Hge. lia. }
  do 2 f_equal. lia.
Qed.

Lemma drain_page (k : nat) (suf pre : list Issue) (x : Issue) (fuel : nat)
    (vs : list Issue) (fs : list Fetch) (fin : issueIterator) :
  nth k pages [] = pre ++ x :: suf ->
  drain srv conf fuel (inPage k (length pre + length suf)) = Some (vs, fs, fin) ->
  drain srv conf (length suf + fuel) (inPage k (length pre)) = Some (suf ++ vs, fs, fin).
Proof.
  revert pre x. induction suf as [|y suf IH]; intros pre x Hc Hd.
  - simpl in *. now rewrite Nat.add_0_r in Hd.
  - cbn [length Nat.add drain]. rewrite (Next_inPage k pre suf x y Hc).
    cbn [failure more after fetched].
    assert (nth k pages [] = (pre ++ [x]) ++ y :: suf) as Hc'
      by (now rewrite <- app_assoc).
    assert (S (length pre) = length (pre ++ [x])) as El
      by (rewrite length_app; simpl; lia).
    rewrite El. rewrite (Value_inPage k _ _ _ Hc').
    rewrite (IH (pre ++ [x]) y Hc'); [reflexivity |].
    rewrite <- El. rewrite <- Hd. f_equal. f_equal. simpl. lia.
Qed.

(** At the end of the last page, [Next] returns false without a fetch
    and leaves the iterator as it is. *)
Lemma Next_end_last (k j : nat) (pre : list Issue) (x : Issue) :
  nth k pages [] = pre ++ [x] ->
  j = length pre ->
  S k = length pages ->
  Next srv conf (inPage k j) = Build_Step false None (inPage k j) [].
Proof.
  intros Hc -> Hk. unfold Next, IssueIterator.inPage. cbn [cache index page lastPage]. rewrite Hc.
  destruct (pre ++ [x]) eqn:E; [now destruct pre |]. rewrite <- E.
  destruct (Z.ltb_spec (Z.of_nat (length pre))
              (Z.of_nat (length (pre ++ [x])) - 1)) as [Hlt|_].
  1: { rewrite length_app in Hlt. simpl in Hlt. lia. }
  unfold getNext. cbn [lastPage]. rewrite <- Hk, Z.eqb_refl. reflexivity.
Qed.

(** At the end of another page, [Next] fetches the next page and stands
    on its first item. *)
Lemma Next_end_page (k j : nat) (pre : list Issue) (x : Issue) :
  nth k pages [] = pre ++ [x] ->
  j = length pre ->
  (S k < length pages)%nat ->
  Next srv conf (inPage k j)
  = Build_Step true None (inPage (S k) 0) [FetchIssues (Z.of_nat (S (S k)))].
Proof.
  intros Hc -> Hk. unfold Next, IssueIterator.inPage. cbn [cache index page lastPage]. rewrite Hc.
  destruct (pre ++ [x]) eqn:E; [now destruct pre |]. rewrite <- E.
  destruct (Z.ltb_spec (Z.of_nat (length pre))
              (Z.of_nat (length (pre ++ [x])) - 1)) as [Hlt|_].
  1: { rewrite length_app in Hlt. simpl in Hlt. lia. }
  unfold getNext. cbn [lastPage page].
  destruct (Z.eqb_spec (Z.of_nat (length pages)) (Z.of_nat (S k))) as [Heq|_]; [lia |].
  rewrite (served (S k) Hk).
  pose proof (nth_page_nonempty (S k) Hk) as Hne.
  destruct (nth (S k) pages []) eqn:En; [congruence |].
  replace (Z.of_nat (S (S k)) + 1) with (Z.of_nat (S (S (S k)))) by lia.
  now destruct (Z.of_nat (length pages) =? Z.of_nat (S (S k))).
Qed.

(** The first call fetches page 1. *)
Lemma Next_first :
  (0 < length pages)%nat ->
  Next srv conf newIssueIterator
  = Build_Step true None (inPage 0 0) [FetchIssues 1].
Proof.
  intros Hk. unfold Next, newIssueIterator, Reset, getNext.
  cbn [cache index page lastPage].
  change 1 with (Z.of_nat 1) at 1. rewrite (served 0%nat Hk).
  pose proof (nth_page_nonempty 0%nat Hk) as Hne.
  destruct (nth 0%nat pages []) eqn:En; [congruence |].
  unfold IssueIterator.inPage. rewrite En.
  change (Z.of_nat 2) with (1 + 1). change (Z.of_nat 1) with 1.
  change (Z.of_nat 0) with 0.
  now destruct (Z.of_nat (length pages) =? 1).
Qed.

(** From the last item of page [k] on. *)
Lemma drain_end (k j : nat) (pre : list Issue) (x : Issue) (fuel : nat)
    (r : list Issue * list Fetch * issueIterator) :
  nth k pages [] = pre ++ [x] ->
  j = length pre ->
  (k < length pages)%nat ->
  (if Nat.eqb (S k) (length pages)
   then r = ([], [], inPage k j)
   else exists (y : Issue) (vs : list Issue) (fs : list Fetch) (fin : issueIterator),
          Value (inPage (S k) 0) = Return y
          /\ drain srv conf fuel (inPage (S k) 0) = Some (vs, fs, fin)
          /\ r = (y :: vs, FetchIssues (Z.of_nat (S (S k))) :: fs, fin)) ->
  drain srv conf (S fuel) (inPage k j) = Some r.
Proof.
  intros Hc Hj Hk Hr. cbn [drain].
  destruct (Nat.eqb_spec (S k) (length pages)) as [He|Hn].
  - rewrite (Next_end_last k j pre x Hc Hj He). now subst r.
  - destruct Hr as (y & vs & fs & fin & Hv & Hd & ->).
    rewrite (Next_end_page k j pre x Hc Hj) by lia.
    cbn [failure more after fetched]. now rewrite Hv, Hd.
Qed.

(** From the first item of page [k] on, to the end of the page and
    over its end. *)
Lemma drain_whole_page (k : nat) (x : Issue) (rest : list Issue) (fuel : nat)
    (vs : list Issue) (fs : list Fetch) (fin : issueIterator) :
  nth k pages [] = x :: rest ->
  (k < length pages)%nat ->
  (if Nat.eqb (S k) (length pages)
   then (vs, fs, fin) = ([], [], inPage k (length rest))
   else exists (y : Issue) (vs' : list Issue) (fs' : list Fetch),
          Value (inPage (S k) 0) = Return y
          /\ drain srv conf fuel (inPage (S k) 0) = Some (vs', fs', fin)
          /\ (vs, fs) = (y :: vs', FetchIssues (Z.of_nat (S (S k))) :: fs')) ->
  drain srv conf (length rest + S fuel) (inPage k 0) = Some (rest ++ vs, fs, fin).
Proof.
  intros Hc Hk Hr.
  destruct (exists_last (l := x :: rest)) as [pre [z Ez]]; [discriminate |].
  assert (length rest = length pre) as Hlen.
  { apply (f_equal (@length _)) in Ez. rewrite length_app in Ez. simpl in Ez. lia. }
  apply (drain_page k rest [] x); [exact Hc |]. cbn [length Nat.add].
  apply (drain_end k (length rest) pre z); [congruence | exact Hlen | exact Hk |].
  destruct (Nat.eqb (S k) (length pages)); [exact Hr |].
  destruct Hr as (y & vs' & fs' & Hv & Hd & [= -> ->]).
  now exists y, vs', fs', fin.
Qed.

Lemma skipn_nth {A : Type} (d : A) (l : list A) (k : nat) :
  (k < length l)%nat -> skipn k l = nth k l d :: skipn (S k) l.
Proof.
  revert k; induction l as [|a l IH]; intros [|k] Hk; simpl in *; try lia.
  - reflexivity.
  - apply IH. lia.
Qed.

(** From the first item of page [k] on: the rest of the page, the later
    pages, one fetch for each of them. *)
Lemma drain_pages (r k : nat) :
  (S k + r = length pages)%nat ->
  drain srv conf
    (S (length (tl (nth k pages []) ++ concat (skipn (S k) pages)))) (inPage k 0)
  = Some (tl (nth k pages []) ++ concat (skipn (S k) pages),
          laterFetches k, exhausted).
Proof.
  revert k. induction r as [|r IH]; intros k Hk.
  - assert (k < length pages)%nat as Hlt by lia.
    pose proof (nth_page_nonempty k Hlt) as Hne.
    destruct (nth k pages []) as [|x rest] eqn:En; [congruence |].
    rewrite skipn_all2 by lia. cbn [tl concat]. rewrite app_nil_r.
    replace (S (length rest)) with (length rest + 1)%nat by lia.
    rewrite <- (app_nil_r rest) at 2.
    apply (drain_whole_page k x rest 0); [exact En | exact Hlt |].
    destruct (Nat.eqb_spec (S k) (length pages)) as [_|Hn]; [| lia].
    unfold IssueIterator.laterFetches, IssueIterator.exhausted.
    replace (length pages - S k)%nat with 0%nat by lia.
    replace (length pages - 1)%nat with k by lia. rewrite En.
    simpl. now rewrite Nat.sub_0_r.
  - assert (k < length pages)%nat as Hlt by lia.
    assert (S k < length pages)%nat as Hlt' by lia.
    pose proof (nth_page_nonempty k Hlt) as Hne.
    pose proof (nth_page_nonempty (S k) Hlt') as Hne'.
    specialize (IH (S k) ltac:(lia)).
    rewrite (skipn_nth [] pages (S k) Hlt').
    destruct (nth k pages []) as [|x rest] eqn:En; [congruence |].
    destruct (nth (S k) pages []) as [|y rest'] eqn:En'; [congruence |].
    cbn [tl concat] in *. rewrite <- app_comm_cons.
    set (vs' := rest' ++ concat (skipn (S (S k)) pages)) in *.
    replace (S (length (rest ++ y :: vs')))
      with (length rest + S (S (length vs')))%nat
      by (rewrite length_app; simpl; lia).
    apply (drain_whole_page k x rest (S (length vs'))); [exact En | exact Hlt |].
    destruct (Nat.eqb_spec (S k) (length pages)) as [He|_]; [lia |].
    exists y, vs', (laterFetches (S k)). repeat split.
    + unfold Value, IssueIterator.inPage. cbn [cache index]. now rewrite En'.
    + exact IH.
    + f_equal. unfold IssueIterator.laterFetches.
      replace (length pages - S k)%nat with (S (length pages - S (S k))) by lia.
      reflexivity.
Qed.

(** The whole run: every item of every page in order, one fetch per
    page, and the iterator at rest on the last item. *)
Lemma drain_all :
  (0 < length pages)%nat ->
  drain srv conf (S (length (concat pages))) newIssueIterator
  = Some (concat pages,
          map (fun i => FetchIssues (Z.of_nat (S i))) (seq 0 (length pages)),
          exhausted).
Proof.
  intros Hk. pose proof (nth_page_nonempty 0%nat Hk) as Hne.
  pose proof (drain_pages (length pages - 1) 0 ltac:(lia)) as Hd.
  destruct (nth 0 pages []) as [|x rest] eqn:En; [congruence |].
  cbn [tl] in Hd.
  assert (concat pages = x :: (rest ++ concat (skipn 1 pages))) as Ec.
  { pose proof (skipn_nth [] pages 0 Hk) as Ep.
    change (skipn 0 pages) with pages in Ep.
    rewrite Ep at 1. cbn [concat]. now rewrite En. }
  rewrite Ec. cbn [length]. rewrite drain_S, (Next_first Hk).
  cbn [failure more after fetched].
  replace (Value (inPage 0 0)) with (Return x)
    by (unfold Value, IssueIterator.inPage; cbn [cache index]; now rewrite En).
  rewrite Hd. f_equal. f_equal. unfold IssueIterator.laterFetches.
  replace (length pages) with (S (length pages - 1)) at 2 by lia.
  reflexivity.
Qed.

(** At rest, [Next] returns false, fetches nothing and changes nothing. *)
Lemma Next_exhausted :
  (0 < length pages)%nat ->
  Next srv conf exhausted = Build_Step false None exhausted [].
Proof.
  intros Hk. unfold IssueIterator.exhausted.
  assert (length pages - 1 < length pages)%nat as Hlt by lia.
  pose proof (nth_page_nonempty _ Hlt) as Hne.
  destruct (exists_last Hne) as [pre [z Ez]].
  apply (Next_end_last _ _ pre z); [exact Ez | | lia].
  rewrite Ez, length_app. simpl. lia.
Qed.

End Pagination.

(** * Pages of a fixed size *)

Section PagesOf.

Local Open Scope list_scope.

Context {A : Type}.
Variable items : list A.
Variable size : Z.
Hypothesis size_pos : 1 <= size.

Lemma totalPages_bounds :
  Z.of_nat (length items) <= totalPages items size * size
  /\ (totalPages items size - 1) * size < Z.of_nat (length items) + size - 1
  /\ (items <> [] -> (totalPages items size - 1) * size < Z.of_nat (length items))
  /\ 0 <= totalPages items size.
Proof.
  unfold totalPages. set (n := Z.of_nat (length items)).
  assert (0 <= n) by (subst n; lia).
  pose proof (Z.div_mod (n + size - 1) size ltac:(lia)) as Hd.
  pose proof (Z.mod_pos_bound (n + size - 1) size ltac:(lia)) as Hm.
  assert (0 <= (n + size - 1) / size) by (apply Z.div_pos; lia).
  split; [nia |]. split; [nia |]. split; [| assumption].
  intros Hne. assert (1 <= n) by (subst n; destruct items; [congruence | simpl; lia]).
  nia.
Qed.

Lemma pageOf_nat (i : nat) :
  pageOf items size (Z.of_nat (S i))
  = firstn (Z.to_nat size) (skipn (i * Z.to_nat size) items).
Proof.
  unfold pageOf. do 2 f_equal.
  replace (Z.of_nat (S i) - 1) with (Z.of_nat i) by lia.
  rewrite Z2Nat.inj_mul by lia. now rewrite Nat2Z.id.
Qed.

Lemma length_pagesOf : length (pagesOf items size) = Z.to_nat (totalPages items size).
Proof. unfold pagesOf. now rewrite length_map, length_seq. Qed.

Lemma nth_pagesOf (k : nat) :
  (k < length (pagesOf items size))%nat ->
  nth k (pagesOf items size) [] = pageOf items size (Z.of_nat (S k)).
Proof.
  intros Hk. rewrite length_pagesOf in Hk. unfold pagesOf.
  rewrite (nth_indep _ [] (pageOf items size (Z.of_nat (S 0)))) 
    by (now rewrite length_map, length_seq).
  rewrite (map_nth (fun i => pageOf items size (Z.of_nat (S i)))).
  now rewrite seq_nth.
Qed.

Lemma pagesOf_nonempty : Forall (fun p => p <> []) (pagesOf items size).
Proof.
  apply List.Forall_forall. intros p Hp. unfold pagesOf in Hp.
  apply List.in_map_iff in Hp. destruct Hp as [i [<- Hi]]. apply in_seq in Hi.
  rewrite pageOf_nat. intros E.
  apply (f_equal (@length A)) in E. rewrite length_firstn, length_skipn in E.
  simpl in E.
  assert (items <> []) as Hne.
  { intros Ei. unfold totalPages in Hi. rewrite Ei in Hi. simpl in Hi.
    rewrite Z.div_small in Hi by lia. simpl in Hi. lia. }
  destruct totalPages_bounds as (_ & _ & Hlt & _). specialize (Hlt Hne).
  assert (Z.of_nat i * size < Z.of_nat (length items)) by nia.
  assert (Z.of_nat (i * Z.to_nat size) = Z.of_nat i * size)
    by (rewrite Nat2Z.inj_mul, Z2Nat.id; lia).
  lia.
Qed.

Lemma concat_chunks (p n : nat) (l : list A) :
  (length l <= n * p)%nat ->
  concat (map (fun i => firstn p (skipn (i * p) l)) (seq 0 n)) = l.
Proof.
  revert l. induction n as [|n IH]; intros l Hl.
  - destruct l; [reflexivity | simpl in Hl; lia].
  - cbn [seq map concat]. rewrite <- seq_shift, map_map.
    rewrite (map_ext _ (fun i => firstn p (skipn (i * p) (skipn p l)))).
    + rewrite IH by (rewrite length_skipn; lia).
      apply firstn_skipn.
    + intros i. rewrite skipn_skipn. do 2 f_equal. lia.
Qed.

Lemma concat_pagesOf : concat (pagesOf items size) = items.
Proof.
  unfold pagesOf.
  rewrite (map_ext _ (fun i => firstn (Z.to_nat size) (skipn (i * Z.to_nat size) items)))
    by apply pageOf_nat.
  apply concat_chunks.
  destruct totalPages_bounds as (Hge & _ & _ & Hpos).
  apply Nat2Z.inj_le. rewrite Nat2Z.inj_mul, !Z2Nat.id by lia. exact Hge.
Qed.

End PagesOf.

Section DrainMonotone.

Variable srv : Server.
Variable conf : config.

(** More fuel does not change a finished run. *)
Lemma drain_more_fuel (f : nat) :
  forall (ii : IssueIterator.issueIterator)
         (r : list Issue * list Fetch * IssueIterator.issueIterator) (f' : nat),
    drain srv conf f ii = Some r -> (f <= f')%nat -> drain srv conf f' ii = Some r.
Proof.
  induction f as [|f IH]; intros ii r f' H Hle; [discriminate |].
  destruct f' as [|f']; [lia |].
  rewrite drain_S in *.
  destruct (failure (IssueIterator.Next srv conf ii)); [discriminate |].
  destruct (more (IssueIterator.Next srv conf ii)); [| exact H].
  destruct (IssueIterator.Value (after (IssueIterator.Next srv conf ii)));
    [| discriminate].
  destruct (drain srv conf f (after (IssueIterator.Next srv conf ii)))
    as [[[vs fs] fin]|] eqn:E; [| discriminate].
  rewrite (IH _ _ f' E) by lia. exact H.
Qed.

End DrainMonotone.

(** C6. Over a listing of N >= 1 items served in pages of P items, each
    answer reporting ceil(N/P) pages: calling [Next] until it returns false
    yields the N items in order and issues one fetch for each of the pages
    1 .. ceil(N/P); the iterator is then at rest, where [Next] returns
    false, fetches nothing and changes nothing; and [Reset] brings back the
    initial iterator, from which the same run, with the same fetches,
    starts again. *)
Theorem C6_pagination (srv : Server) (conf : config) (items : list Issue) :
  items <> [] ->
  1 <= capacity conf ->
  (forall page : Z,
     ListRepoIssues srv (gc conf) (owner conf) (project conf) page (capacity conf)
     = inr (pageOf items (capacity conf) page, totalPages items (capacity conf))) ->
  let pageFetches := map FetchIssues (seqZ 1 (totalPages items (capacity conf))) in
  exists rest : IssueIterator.issueIterator,
    (forall fuel : nat,
       (length items < fuel)%nat ->
       drain srv conf fuel IssueIterator.newIssueIterator
       = Some (items, pageFetches, rest))
    /\ length pageFetches
       = Z.to_nat ((Z.of_nat (length items) + capacity conf - 1) / capacity conf)
    /\ IssueIterator.Next srv conf rest = Build_Step false None rest []
    /\ IssueIterator.Reset rest = IssueIterator.newIssueIterator
    /\ (forall fuel : nat,
          (length items < fuel)%nat ->
          drain srv conf fuel (IssueIterator.Reset rest)
          = Some (items, pageFetches, rest)).
Proof.
  intros Hne Hcap Hsrv pageFetches.
  set (pages := pagesOf items (capacity conf)).
  assert (Forall (fun p => p <> []) pages) as Hpn by (apply pagesOf_nonempty; lia).
  destruct (totalPages_bounds items (capacity conf) Hcap) as (Hge & _ & Hlt & Hpos).
  specialize (Hlt Hne).
  assert (Z.of_nat (length pages) = totalPages items (capacity conf)) as HT.
  { unfold pages. rewrite length_pagesOf, Z2Nat.id; lia. }
  assert (forall k : nat, (k < length pages)%nat ->
            ListRepoIssues srv (gc conf) (owner conf) (project conf)
              (Z.of_nat (S k)) (capacity conf)
            = inr (nth k pages [], Z.of_nat (length pages))) as Hserved.
  { intros k Hk. rewrite Hsrv, HT. unfold pages. now rewrite nth_pagesOf. }
  assert (0 < length pages)%nat as Hk0.
  { assert (1 <= Z.of_nat (length items)) by (destruct items; [congruence | simpl; lia]).
    assert (0 < totalPages items (capacity conf)) by nia. lia. }
  assert (forall fuel : nat,
            (length items < fuel)%nat ->
            drain srv conf fuel IssueIterator.newIssueIterator
            = Some (items, pageFetches, IssueIterator.exhausted pages)) as Hrun.
  { intros fuel Hfuel.
    apply (drain_more_fuel srv conf (S (length (concat pages)))).
    - rewrite (drain_all srv conf pages Hpn Hserved Hk0).
      unfold pages at 1. rewrite concat_pagesOf by lia. do 2 f_equal.
      unfold pageFetches, seqZ. rewrite <- HT, Nat2Z.id. rewrite <- list_fmap_compose.
      f_equal. apply map_ext. intros i. unfold compose. f_equal. lia.
    - unfold pages. rewrite concat_pagesOf by lia. lia. }
  exists (IssueIterator.exhausted pages).
  split; [exact Hrun |]. split.
  { unfold pageFetches. now rewrite length_map, length_seqZ. }
  split; [exact (Next_exhausted srv conf pages Hpn Hk0) |].
  split; [reflexivity | exact Hrun].
Qed.

(** * The composite iterator *)

Section Composite.

Import CompositeIterator.
Local Open Scope list_scope.

Variable srv : Server.

(** With a sticky error, an advancing call returns false at once. *)
Lemma advance_after_error (a : Advance) (ctxErr : option error) (i : Iterator)
    (e : error) :
  Error i = Some e -> advanceBy srv a ctxErr i = (Return (false, i), []).
Proof.
  unfold Error. intros He.
  destruct a; cbn [advanceBy]; unfold NextIssue, NextNote, NextLabelEvent;
    now rewrite He.
Qed.

Lemma runCalls_after_error (cs : list (Advance * option error)) (i : Iterator)
    (e : error) :
  Error i = Some e ->
  runCalls srv cs i = (Return (repeat false (length cs), i), []).
Proof.
  intros He. induction cs as [|[a ctxErr] cs IH]; [reflexivity |].
  cbn [runCalls]. rewrite (advance_after_error a ctxErr i e He), IH.
  reflexivity.
Qed.

(** A failing fetch is recorded and the call returns false. *)
Lemma advance_records_error (a : Advance) (i : Iterator) (e : error) :
  Error i = None ->
  subFailure srv a i = Some e ->
  exists i' : Iterator,
    fst (advanceBy srv a None i) = Return (false, i') /\ Error i' = Some e.
Proof.
  unfold Error. intros Hn Hf.
  destruct a; cbn [advanceBy subFailure] in *;
    unfold NextIssue, NextNote, NextLabelEvent; rewrite Hn, Hf;
    eexists; split; reflexivity.
Qed.

(** A sub-iterator returns an error only from a fetch that failed. *)
Lemma issue_failure_is_fetch_error (c : config) (ii : IssueIterator.issueIterator)
    (e : error) :
  failure (IssueIterator.Next srv c ii) = Some e ->
  ListRepoIssues srv (gc c) (owner c) (project c) (IssueIterator.page ii) (capacity c)
  = inl e
  /\ fetched (IssueIterator.Next srv c ii) = [FetchIssues (IssueIterator.page ii)].
Proof.
  unfold IssueIterator.Next, IssueIterator.getNext.
  destruct (IssueIterator.cache ii);
    [| destruct (IssueIterator.index ii <? _); [discriminate |]];
    (destruct (IssueIterator.lastPage ii); [discriminate |];
     destruct (ListRepoIssues srv _ _ _ _ _) as [err|[[|x xs] tp]];
     cbn; intros H; try discriminate; injection H as ->; now split).
Qed.

Lemma note_failure_is_fetch_error (c : config) (it : NoteIterator.noteIterator)
    (e : error) :
  failure (NoteIterator.Next srv c it) = Some e ->
  ListIssueNotes srv (gc c) (project c) (NoteIterator.issue it)
    (NoteIterator.page it) (capacity c) = inl e
  /\ fetched (NoteIterator.Next srv c it)
     = [FetchNotes (NoteIterator.issue it) (NoteIterator.page it)].
Proof.
  unfold NoteIterator.Next, NoteIterator.getNext.
  destruct (NoteIterator.cache it);
    [| destruct (NoteIterator.index it <? _); [discriminate |]];
    (destruct (NoteIterator.lastPage it); [discriminate |];
     destruct (ListIssueNotes srv _ _ _ _ _) as [err|[[|x xs] tp]];
     cbn; intros H; try discriminate; injection H as ->; now split).
Qed.

(** When [NextIssue] returns, the issue sub-iterator stands on an item. *)
Lemma NextIssue_returns_on_item (i i' : Iterator) (b : bool) (fs : list Fetch) :
  Error i = None ->
  NextIssue srv None i = (Return (b, i'), fs) ->
  Error i' = None ->
  0 <= IssueIterator.index (issue i')
       < Z.of_nat (length (IssueIterator.cache (issue i'))).
Proof.
  unfold Error, NextIssue. intros Hn H Hn'. rewrite Hn in H.
  destruct (failure (IssueIterator.Next srv (conf i) (issue i))) as [e|].
  - injection H as _ <- _. discriminate.
  - unfold IssueIterator.Value, slice_at in H.
    set (it := after (IssueIterator.Next srv (conf i) (issue i))) in *.
    destruct (Z.ltb_spec (IssueIterator.index it) 0) as [|Hge]; [discriminate |].
    destruct (nth_error (IssueIterator.cache it) (Z.to_nat (IssueIterator.index it)))
      eqn:En; [| discriminate].
    cbn [obind] in H. injection H as _ <- _. cbn [issue].
    assert (Z.to_nat (IssueIterator.index it) < length (IssueIterator.cache it))%nat
      by (apply nth_error_Some; congruence).
    lia.
Qed.

(** A sub-iterator that is due to fetch issues the listing call; when
    the call fails, the advancing call records the error after that one
    fetch and returns false. *)
Lemma fetch_error_is_recorded (a : Advance) (i : Iterator) (e : error) :
  Error i = None ->
  dueToFetch a i = true ->
  fetchError srv a i = Some e ->
  exists i' : Iterator,
    advanceBy srv a None i = (Return (false, i'), [fetchOf a i]) /\ Error i' = Some e.
Proof.
  unfold Error. intros Hn Hd Hf.
  destruct a; cbn [advanceBy dueToFetch fetchError fetchOf] in *; cbv zeta in *;
    apply andb_true_iff in Hd as [Hl Hc]; apply negb_true_iff in Hl.
  - unfold NextIssue. rewrite Hn.
    assert (IssueIterator.Next srv (conf i) (issue i)
            = IssueIterator.getNext srv (conf i) (issue i)) as ->.
    { unfold IssueIterator.Next. destruct (IssueIterator.cache (issue i)); [reflexivity |].
      apply negb_true_iff in Hc. now rewrite Hc. }
    unfold IssueIterator.getNext. rewrite Hl.
    destruct (ListRepoIssues srv _ _ _ _ _) as [err|r]; [| discriminate].
    injection Hf as ->. cbn. eexists. split; reflexivity.
  - unfold NextNote. rewrite Hn.
    assert (NoteIterator.Next srv (conf i) (note i)
            = NoteIterator.getNext srv (conf i) (note i)) as ->.
    { unfold NoteIterator.Next. destruct (NoteIterator.cache (note i)); [reflexivity |].
      apply negb_true_iff in Hc. now rewrite Hc. }
    unfold NoteIterator.getNext. rewrite Hl.
    destruct (ListIssueNotes srv _ _ _ _ _) as [err|r]; [| discriminate].
    injection Hf as ->. cbn. eexists. split; reflexivity.
  - unfold NextLabelEvent. rewrite Hn.
    assert (LabelEventIterator.Next srv (conf i) (labelEvent i)
            = LabelEventIterator.getNext srv (conf i) (labelEvent i)) as ->.
    { unfold LabelEventIterator.Next.
      destruct (LabelEventIterator.cache (labelEvent i)); [reflexivity |].
      apply negb_true_iff in Hc. now rewrite Hc. }
    unfold LabelEventIterator.getNext. rewrite Hl.
    destruct (ListIssueLabelEvents srv _ _ _ _ _) as [err|r]; [| discriminate].
    injection Hf as ->. cbn. eexists. split; reflexivity.
Qed.

End Composite.

(** C7. When an advancing call finds its sub-iterator (issues, notes or
    label events) due to fetch and the listing call of that fetch fails
    with [e], the call issues that one fetch, returns false, and the
    composite iterator holds [e]; from then on every advancing call,
    whatever the sub-iterator and whatever the context, returns false
    without a fetch and leaves the iterator as it is, so that [Error()]
    keeps returning [e]. *)
Theorem C7_sticky_error (srv : Server) (a : Advance) (i : CompositeIterator.Iterator)
    (e : error) :
  CompositeIterator.Error i = None ->
  dueToFetch a i = true ->
  fetchError srv a i = Some e ->
  exists i' : CompositeIterator.Iterator,
    advanceBy srv a None i = (Return (false, i'), [fetchOf a i])
    /\ CompositeIterator.Error i' = Some e
    /\ forall cs : list (Advance * option error),
         runCalls srv cs i' = (Return (repeat false (length cs), i'), []).
Proof.
  intros Hn Hd Hf.
  destruct (fetch_error_is_recorded srv a i e Hn Hd Hf) as [i' [Ha He]].
  exists i'. repeat split; [exact Ha | exact He |].
  intros cs. now apply runCalls_after_error with (e := e).
Qed.

(** C9. With no sticky error and a live context: when the issue
    sub-iterator has no page and its fetch answers an empty list without
    error, [NextIssue] panics on [Value()], an index out of range, after
    the fetch; and whenever [NextIssue] returns false without recording an
    error, the issue sub-iterator holds a non-empty page and its index is
    inside it. *)
Theorem C9_NextIssue_empty_listing (srv : Server) (i : CompositeIterator.Iterator) :
  CompositeIterator.Error i = None ->
  (forall totalPages : Z,
     IssueIterator.cache (CompositeIterator.issue i) = [] ->
     IssueIterator.lastPage (CompositeIterator.issue i) = false ->
     ListRepoIssues srv (gc (CompositeIterator.conf i))
       (owner (CompositeIterator.conf i)) (project (CompositeIterator.conf i))
       (IssueIterator.page (CompositeIterator.issue i))
       (capacity (CompositeIterator.conf i))
     = inr ([], totalPages) ->
     CompositeIterator.NextIssue srv None i
     = (Panic "index out of range",
        [FetchIssues (IssueIterator.page (CompositeIterator.issue i))]))
  /\ (forall (i' : CompositeIterator.Iterator) (fs : list Fetch),
        CompositeIterator.NextIssue srv None i = (Return (false, i'), fs) ->
        CompositeIterator.Error i' = None ->
        IssueIterator.cache (CompositeIterator.issue i') <> []
        /\ 0 <= IssueIterator.index (CompositeIterator.issue i')
             < Z.of_nat (length (IssueIterator.cache (CompositeIterator.issue i')))).
Proof.
  intros Hn. split.
  - intros tp Hc Hl Hs. unfold CompositeIterator.NextIssue.
    unfold CompositeIterator.Error in Hn. rewrite Hn.
    unfold IssueIterator.Next. rewrite Hc. unfold IssueIterator.getNext.
    rewrite Hl, Hs. cbn [failure after fetched more].
    unfold IssueIterator.Value, slice_at. cbn [IssueIterator.cache IssueIterator.index].
    rewrite Hc. destruct (IssueIterator.index (CompositeIterator.issue i) <? 0);
      [reflexivity |].
    now destruct (Z.to_nat (IssueIterator.index (CompositeIterator.issue i))).
  - intros i' fs H Hn'.
    pose proof (NextIssue_returns_on_item srv i i' false fs Hn H Hn') as Hr.
    split; [| exact Hr].
    intros Hc. rewrite Hc in Hr. simpl in Hr. lia.
Qed.

(** * The claims on the concrete instance *)

Lemma C6_pagination_witness :
  exists rest : IssueIterator.issueIterator,
    drain (Scenario.listing [Scenario.issue1; Scenario.issue2; Scenario.issue3])
      Scenario.pagesOfTwo 4 IssueIterator.newIssueIterator
    = Some ([Scenario.issue1; Scenario.issue2; Scenario.issue3],
            [FetchIssues 1; FetchIssues 2], rest).
Proof.
  destruct (C6_pagination
              (Scenario.listing [Scenario.issue1; Scenario.issue2; Scenario.issue3])
              Scenario.pagesOfTwo
              [Scenario.issue1; Scenario.issue2; Scenario.issue3])
    as [rest [H _]].
  - discriminate.
  - simpl. lia.
  - intros page. reflexivity.
  - exists rest. apply (H 4%nat). simpl. lia.
Defined.

(** * The importer's matcher and the exporter's clients *)

(** The matcher of [ensureIssue] rejects the creation metadata that
    [ensureIssue] itself writes, unless the configured project and base
    URL are the same string. *)
Lemma issueMatcher_misses_created_bug (gi : giteaImporter) (issue : Issue) :
  mapGet (gi_conf gi) confKeyProjectID <> mapGet (gi_conf gi) confKeyGiteaBaseUrl ->
  issueMatcher gi issue
    {| cache.CreateMetadata :=
         {[ MetaKeyOrigin := target;
            metaKeyGiteaId := parseID (issue_IID issue);
            metaKeyGiteaUrl := issue_WebURL issue;
            metaKeyGiteaProject := mapGet (gi_conf gi) confKeyProjectID;
            metaKeyGiteaBaseUrl := mapGet (gi_conf gi) confKeyGiteaBaseUrl ]} |}
  = false.
Proof.
  intros Hne. unfold issueMatcher. cbn [cache.CreateMetadata].
  assert (mapGet
            ({[ MetaKeyOrigin := target;
                metaKeyGiteaId := parseID (issue_IID issue);
                metaKeyGiteaUrl := issue_WebURL issue;
                metaKeyGiteaProject := mapGet (gi_conf gi) confKeyProjectID;
                metaKeyGiteaBaseUrl := mapGet (gi_conf gi) confKeyGiteaBaseUrl ]}
               : gmap string string) metaKeyGiteaBaseUrl
          = mapGet (gi_conf gi) confKeyGiteaBaseUrl) as ->.
  { unfold mapGet at 1.
    rewrite !lookup_insert_ne by discriminate.
    now rewrite lookup_singleton_eq. }
  apply not_eq_sym, String.eqb_neq in Hne. rewrite Hne.
  now rewrite andb_false_r.
Qed.

(** Every client that [cacheAllClient] adds to the cache is built from
    the first credential of the list. *)
Lemma cacheAllClientLoop_first_token (repo : cache.RepoCache)
    (all creds : list auth.Credential) :
  forall (g g' : giteaExporter) (r : option error),
    cacheAllClientLoop repo all creds g = Return (r, g') ->
    forall (id : Id) (c : Client),
      identityClient g' !! id = Some c ->
      identityClient g !! id = Some c
      \/ exists first : auth.Credential,
           head all = Some first
           /\ c = buildClient (mapGet (conf g) confKeyGiteaBaseUrl) first.
Proof.
  induction creds as [|cred rest IH]; intros g g' r H id c Hc; cbn [cacheAllClientLoop] in H.
  - injection H as _ <-. now left.
  - destruct (auth.GetMetadata cred MetaKeyLogin) as [login|]; [| eauto].
    destruct (cache.ResolveIdentityImmutableMetadata repo metaKeyGiteaLogin login)
      as [err|user].
    + destruct (error_eqb err ErrIdentityNotExist); [eauto |].
      injection H as _ <-. now left.
    + destruct (identityClient g !! cache.ident_Id user) eqn:Eu; [eauto |].
      destruct all as [|first all']; [discriminate |].
      destruct (IH _ _ _ H id c Hc) as [Hin | Hnew].
      * cbn [identityClient setIdentityClient] in Hin.
        destruct (decide (cache.ident_Id user = id)) as [E|Hneq].
        -- rewrite E, lookup_insert_eq in Hin. injection Hin as <-.
           right. now exists first.
        -- rewrite lookup_insert_ne in Hin by exact Hneq. now left.
      * right. exact Hnew.
Qed.

Lemma C7_sticky_error_witness :
  (exists i' : CompositeIterator.Iterator,
     advanceBy Scenario.unreachable AdvanceIssue None Scenario.freshIterator
     = (Return (false, i'), [FetchIssues 1])
     /\ CompositeIterator.Error i' = Some (ErrRemote "timeout")
     /\ runCalls Scenario.unreachable
          [(AdvanceNote, None); (AdvanceLabelEvent, None); (AdvanceIssue, None)] i'
        = (Return ([false; false; false], i'), []))
  /\ (exists i' : CompositeIterator.Iterator,
        advanceBy Cases.notesUnreachable AdvanceNote None Cases.onFirstIssue
        = (Return (false, i'), [FetchNotes 1 1])
        /\ CompositeIterator.Error i' = Some (ErrRemote "timeout")
        /\ runCalls Cases.notesUnreachable
             [(AdvanceNote, None); (AdvanceLabelEvent, None); (AdvanceIssue, None)] i'
           = (Return ([false; false; false], i'), [])).
Proof.
  split.
  - destruct (C7_sticky_error Scenario.unreachable AdvanceIssue Scenario.freshIterator
                (ErrRemote "timeout") eq_refl eq_refl eq_refl)
      as [i' [H1 [H2 H3]]].
    exists i'. repeat split; [exact H1 | exact H2 |].
    apply (H3 [(AdvanceNote, None); (AdvanceLabelEvent, None); (AdvanceIssue, None)]).
  - destruct (C7_sticky_error Cases.notesUnreachable AdvanceNote Cases.onFirstIssue
                (ErrRemote "timeout") eq_refl eq_refl eq_refl)
      as [i' [H1 [H2 H3]]].
    exists i'. repeat split; [exact H1 | exact H2 |].
    apply (H3 [(AdvanceNote, None); (AdvanceLabelEvent, None); (AdvanceIssue, None)]).
Defined.

Lemma C9_NextIssue_empty_listing_witness :
  CompositeIterator.NextIssue (Scenario.listing []) None Scenario.freshIterator
  = (Panic "index out of range", [FetchIssues 1]).
Proof.
  apply (proj1 (C9_NextIssue_empty_listing (Scenario.listing []) Scenario.freshIterator
                  eq_refl) (totalPages (@nil Issue) 10));
    reflexivity.
Defined.

(** C1 on the instance: the issue number 1, imported twice from an
    unchanged remote state, is two local bugs with the same identifying
    tuple; the second pass reports a new bug. *)
Theorem C1_second_import_duplicates :
  map Scenario.identity (cache.bugs (repo Scenario.importedOnce))
  = [("gitea", "1", "42", "https://gitea.com/")]
  /\ map Scenario.identity (cache.bugs (repo Scenario.importedTwice))
     = [("gitea", "1", "42", "https://gitea.com/");
        ("gitea", "1", "42", "https://gitea.com/")]
  /\ out Scenario.importedTwice
     = [ImportBug 13; ImportNothing 13 "no imported operation"].
Proof. vm_compute. repeat split; reflexivity. Qed.

(** C2 on the instance: the client cached for bob (identity 11) carries
    the token of alice, the first credential, not the token of the
    credential whose login is bob. *)
Theorem C2_clients_share_first_token :
  cache.ident_Id <$> (match cache.ResolveIdentityImmutableMetadata
                              Scenario.twoIdentities metaKeyGiteaLogin "bob" with
                      | inr i => Some i
                      | inl _ => None
                      end) = Some 11%N
  /\ auth.GetMetadata Scenario.tokenOfBob MetaKeyLogin = Some "bob"
  /\ auth.cred_Value Scenario.tokenOfBob = "TOKEN-B"
  /\ client_token <$> (identityClient (Scenario.exporterOf Scenario.twoIdentities) !! 11%N)
     = Some "TOKEN-A".
Proof. vm_compute. repeat split; reflexivity. Qed.

(** C3, as the spec states it, fails on the instance: the first import of
    the issue whose one comment has the id of the issue appends an
    untagged EditComment, and the export pass that follows rewrites the
    body of the remote issue. *)
Lemma C3_fresh_import_exports_a_write :
  out Scenario.freshlyImported
  = [ImportIdentity 10; ImportBug 11; ImportCommentEdition 13]
  /\ calls (snd (Scenario.exportPass (repo Scenario.freshlyImported)))
     = [CallUpdateIssue (buildClient Scenario.baseURL Scenario.tokenOfAlice)
          "alice/demo" 1
          {| opt_Title := None; opt_Description := Some "hello";
             opt_Labels := None; opt_StateEvent := None |}]
  /\ calls (snd (Scenario.exportPass (repo Scenario.freshlyImported))) <> [].
Proof. vm_compute. repeat split; try reflexivity. discriminate. Qed.

(** C4 on the instance: the first export creates the remote issue and
    records the empty string as its base URL; the second export, with the
    same configuration, creates nothing and skips the bug as imported from
    another instance. *)
Theorem C4_resume_skips_created_bug :
  calls Scenario.exportedOnce
  = [CallCreateIssue (buildClient Scenario.baseURL Scenario.tokenOfAlice)
       "alice/demo" "local bug" "text"]
  /\ results Scenario.exportedOnce
     = [ExportBug 11; ExportNothing 11 "nothing has been exported"]
  /\ match cache.ResolveBug (store Scenario.exportedOnce) 11%N with
     | Some b => bug.GetCreateMetadata (cache.Snapshot b) metaKeyGiteaBaseUrl
     | None => None
     end = Some ""
  /\ mapGet (conf (ge Scenario.exportedOnce)) confKeyGiteaBaseUrl = "https://gitea.com/"
  /\ calls Scenario.exportedTwice = []
  /\ results Scenario.exportedTwice
     = [ExportNothing 11 "skipping issue imported from another Gitea instance"].
Proof. vm_compute. repeat split; reflexivity. Qed.

(** C8 on the instance: after the import of the additions of A and B, the
    export of the local removal of A pushes the empty label list, not the
    list of B alone; when the additions and the removal are exported in one
    walk, the first call carries A and B and the second B alone, in
    whatever order the list is built. *)
Theorem C8_labels_of_skipped_operations_lost :
  map bug.op_Kind (concat (map cache.bug_ops (cache.bugs Scenario.labelRemoved)))
  = [bug.CreateOperation "first issue" "description";
     bug.LabelChangeOperation ["A"] [];
     bug.LabelChangeOperation ["B"] [];
     bug.LabelChangeOperation [] ["A"]]
  /\ calls (snd (Scenario.exportPass Scenario.labelRemoved))
     = [CallUpdateIssue (buildClient Scenario.baseURL Scenario.tokenOfAlice)
          "alice/demo" 1
          {| opt_Title := None; opt_Description := None;
             opt_Labels := Some []; opt_StateEvent := None |}]
  /\ exists first second : list string,
       map (fun c => match c with
                     | CallUpdateIssue _ _ _ o => opt_Labels o
                     | _ => None
                     end) (calls (snd (Scenario.exportPass Scenario.labelsLocal)))
       = [Some first; Some second]
       /\ Permutation first ["A"; "B"]
       /\ Permutation second ["B"].
Proof.
  split; [vm_compute; reflexivity |]. split; [vm_compute; reflexivity |].
  exists ["A"; "B"], ["B"]. split; [vm_compute; reflexivity |].
  split; apply Permutation_refl.
Qed.

(** * The import pass keeps the operations tagged *)

Section ImportKeepsTags.

Local Open Scope list_scope.

Lemma grows_refl (s : ImportState) : grows s s.
Proof. split; [exists []; now rewrite app_nil_r | auto]. Qed.

Lemma noCommentEdition_app (l l' : list ImportResult) :
  noCommentEdition (l ++ l') = true -> noCommentEdition l = true.
Proof.
  unfold noCommentEdition. rewrite forallb_app.
  intros H. now apply andb_true_iff in H.
Qed.

Lemma grows_trans (s1 s2 s3 : ImportState) :
  grows s1 s2 -> grows s2 s3 -> grows s1 s3.
Proof.
  intros [[l1 E1] H1] [[l2 E2] H2]. split.
  - exists (l1 ++ l2). now rewrite E2, E1, app_assoc.
  - intros Ht Hn. apply H2; [| exact Hn]. apply H1; [exact Ht |].
    rewrite E2 in Hn. now apply noCommentEdition_app in Hn.
Qed.

Lemma keeps_bind {A B : Type} (m : M ImportState A) (k : A -> M ImportState B) :
  keeps m -> (forall a : A, keeps (k a)) -> keeps (m ≫= k).
Proof.
  intros Hm Hk s. unfold mbind, M_bind. specialize (Hm s).
  destruct (m s) as [[a|e|msg|] s1]; cbn [snd] in *; try exact Hm.
  apply grows_trans with s1; [exact Hm | apply Hk].
Qed.

Lemma keeps_ret {A : Type} (a : A) : keeps (mret a : M ImportState A).
Proof. intros s. apply grows_refl. Qed.

Lemma keeps_fail {A : Type} (e : error) : keeps (fail e : M ImportState A).
Proof. intros s. apply grows_refl. Qed.

Lemma keeps_crash {A : Type} (msg : string) : keeps (crash msg : M ImportState A).
Proof. intros s. apply grows_refl. Qed.

Lemma keeps_outOfFuel {A : Type} : keeps (outOfFuel : M ImportState A).
Proof. intros s. apply grows_refl. Qed.

Lemma keeps_get : keeps (get : M ImportState ImportState).
Proof. intros s. apply grows_refl. Qed.

Lemma keeps_try {A : Type} (m : M ImportState A) : keeps m -> keeps (try m).
Proof.
  intros Hm s. unfold try. specialize (Hm s).
  now destruct (m s) as [[a|e|msg|] s1].
Qed.

Lemma keeps_ofOutcome {A : Type} (o : outcome A) : keeps (ofOutcome o : M ImportState A).
Proof. destruct o; intros s; apply grows_refl. Qed.

Lemma keeps_ofResult {A : Type} (r : error + A) : keeps (ofResult r).
Proof. destruct r; intros s; apply grows_refl. Qed.

Lemma keeps_deref (b : Id) : keeps (deref b).
Proof.
  intros s. unfold deref. destruct (cache.ResolveBug (repo s) b); apply grows_refl.
Qed.

Lemma keeps_send (r : ImportResult) : keeps (send r).
Proof.
  intros s. split; cbn; [now exists [r] | auto].
Qed.

Lemma keeps_onRepo {A : Type} (f : cache.RepoCache -> A * cache.RepoCache) :
  (forall r : cache.RepoCache, allTagged r = true -> allTagged (snd (f r)) = true) ->
  keeps (onRepo f).
Proof.
  intros Hf s. unfold onRepo. specialize (Hf (repo s)).
  destruct (f (repo s)) as [a r']. split; cbn in *.
  - exists []. now rewrite app_nil_r.
  - auto.
Qed.

(** The untagged EditComment comes with its result. *)
Lemma keeps_edition (f : cache.RepoCache -> bug.Operation * cache.RepoCache) :
  keeps (onRepo f ≫= fun op => send (ImportCommentEdition (bug.op_Id op))).
Proof.
  intros s. unfold mbind, M_bind, onRepo. destruct (f (repo s)) as [op r'].
  split; cbn.
  - now eexists.
  - intros _ Hn. unfold noCommentEdition in Hn. rewrite forallb_app in Hn.
    apply andb_true_iff in Hn as [_ Hn]. discriminate.
Qed.

(** The operations of the store. *)
Lemma allTagged_NewIdentityRaw (name email login avatarUrl : string)
    (metadata : gmap string string) (r : cache.RepoCache) :
  allTagged r = true ->
  allTagged (snd (cache.NewIdentityRaw name email login avatarUrl metadata r)) = true.
Proof. auto. Qed.

Lemma allTagged_Commit (b : Id) (r : cache.RepoCache) :
  allTagged r = true -> allTagged (cache.Commit b r) = true.
Proof.
  unfold allTagged, cache.Commit, cache.updateBug, cache.setBugs. cbn [cache.bugs].
  induction (cache.bugs r) as [|x l IH]; [reflexivity |]. cbn [map forallb].
  intros H. apply andb_true_iff in H as [H1 H2]. rewrite (IH H2), andb_true_r.
  now destruct (N.eqb (cache.bug_Id x) b).
Qed.

Lemma allTagged_appendRaw (b author : Id) (t : Z) (kind : bug.OpKind)
    (metadata : gmap string string) (r : cache.RepoCache) :
  is_Some (metadata !! metaKeyGiteaId) ->
  allTagged r = true ->
  allTagged (snd (cache.appendRaw b author t kind metadata r)) = true.
Proof.
  intros [v Hv].
  unfold allTagged, cache.appendRaw, cache.updateBug, cache.setBugs, cache.bump.
  cbn [snd cache.bugs].
  induction (cache.bugs r) as [|x l IH]; [reflexivity |]. cbn [map forallb].
  intros H. apply andb_true_iff in H as [H1 H2]. rewrite (IH H2), andb_true_r.
  destruct (N.eqb (cache.bug_Id x) b); [| exact H1]. cbn [cache.bug_ops].
  rewrite forallb_app, H1. cbn [forallb]. unfold tagged, bug.GetMetadata.
  cbn [bug.op_Metadata]. now rewrite Hv.
Qed.

Lemma allTagged_NewBugRaw (author : Id) (t : Z) (title message : string)
    (metadata : gmap string string) (r : cache.RepoCache) :
  is_Some (metadata !! metaKeyGiteaId) ->
  allTagged r = true ->
  allTagged (snd (cache.NewBugRaw author t title message metadata r)) = true.
Proof.
  intros [v Hv]. unfold allTagged, cache.NewBugRaw, cache.setBugs, cache.bump.
  cbn [snd cache.bugs]. rewrite forallb_app. intros ->. cbn.
  unfold tagged, bug.GetMetadata. cbn [bug.op_Metadata]. now rewrite Hv.
Qed.

Lemma gitea_id_tag (v : string) :
  is_Some (({[ metaKeyGiteaId := v ]} : gmap string string) !! metaKeyGiteaId).
Proof. rewrite lookup_singleton_eq. eauto. Qed.

Ltac keeps_step :=
  lazymatch goal with
  | |- keeps (onRepo _ ≫= fun op => send (ImportCommentEdition _)) =>
      apply keeps_edition
  | |- keeps (_ ≫= _) => apply keeps_bind; [| intros ?]
  | |- keeps (mret _) => apply keeps_ret
  | |- keeps (fail _) => apply keeps_fail
  | |- keeps (crash _) => apply keeps_crash
  | |- keeps outOfFuel => apply keeps_outOfFuel
  | |- keeps get => apply keeps_get
  | |- keeps (try _) => apply keeps_try
  | |- keeps (ofOutcome _) => apply keeps_ofOutcome
  | |- keeps (ofResult _) => apply keeps_ofResult
  | |- keeps (deref _) => apply keeps_deref
  | |- keeps (send _) => apply keeps_send
  | |- keeps (onRepo (cache.NewIdentityRaw _ _ _ _ _)) =>
      apply keeps_onRepo; intros ?; apply allTagged_NewIdentityRaw
  | |- keeps (onRepo (cache.appendRaw _ _ _ _ {[ metaKeyGiteaId := _ ]})) =>
      apply keeps_onRepo; intros ?; apply allTagged_appendRaw, gitea_id_tag
  | |- keeps (onRepo (fun r => (tt, cache.Commit _ r))) =>
      apply keeps_onRepo; intros ?; apply allTagged_Commit
  | |- keeps (match ?x with _ => _ end) => destruct x
  end.

Variable srv : Server.
Variable Cleanup : string -> error + string.

Lemma keeps_ensurePerson (gi : giteaImporter) (id : Z) :
  keeps (ensurePerson srv gi id).
Proof. unfold ensurePerson. repeat keeps_step. Qed.

Lemma keeps_ensureIssue (gi : giteaImporter) (issue : Issue) :
  keeps (ensureIssue srv Cleanup gi issue).
Proof.
  unfold ensureIssue. apply keeps_bind; [apply keeps_ensurePerson | intros author].
  repeat keeps_step.
  apply keeps_onRepo. intros r. apply allTagged_NewBugRaw.
  unfold metaKeyGiteaId, MetaKeyOrigin. 
  rewrite lookup_insert_ne by discriminate. rewrite lookup_insert_eq. eauto.
Qed.

Lemma keeps_ensureNote (gi : giteaImporter) (b : Id) (note : Note) :
  keeps (ensureNote srv Cleanup gi b note).
Proof.
  unfold ensureNote.
  repeat first [apply keeps_ensurePerson | keeps_step].
Qed.

Lemma keeps_ensureLabelEvent (gi : giteaImporter) (b : Id) (labelEvent : LabelEvent) :
  keeps (ensureLabelEvent srv gi b labelEvent).
Proof.
  unfold ensureLabelEvent.
  repeat first [apply keeps_ensurePerson | keeps_step].
Qed.

Variable ctxErr : option error.

Lemma keeps_advance
    (call : Server -> option error -> CompositeIterator.Iterator
            -> CompositeIterator.Call) :
  keeps (advance srv ctxErr call).
Proof.
  intros s. unfold advance.
  destruct (call srv ctxErr (iterator s)) as [[[more it]|msg] fs];
    (split; cbn; [exists []; now rewrite app_nil_r | auto]).
Qed.

Ltac keeps_import :=
  repeat first [ apply keeps_ensurePerson | apply keeps_ensureIssue
               | apply keeps_ensureNote | apply keeps_ensureLabelEvent
               | apply keeps_advance | keeps_step ].

Lemma keeps_importNotes (fuel : nat) (gi : giteaImporter) (b : Id) :
  keeps (importNotes srv Cleanup ctxErr fuel gi b).
Proof.
  induction fuel as [|f IH]; cbn [importNotes]; [apply keeps_outOfFuel |].
  keeps_import. exact IH.
Qed.

Lemma keeps_importLabelEvents (fuel : nat) (gi : giteaImporter) (b : Id) :
  keeps (importLabelEvents srv ctxErr fuel gi b).
Proof.
  induction fuel as [|f IH]; cbn [importLabelEvents]; [apply keeps_outOfFuel |].
  keeps_import. exact IH.
Qed.

Lemma keeps_importIssues (fuel : nat) (gi : giteaImporter) :
  keeps (importIssues srv Cleanup ctxErr fuel gi).
Proof.
  induction fuel as [|f IH]; cbn [importIssues]; [apply keeps_outOfFuel |].
  repeat first [ apply keeps_importNotes | apply keeps_importLabelEvents
               | apply keeps_ensureIssue | apply keeps_advance | exact IH
               | keeps_step ].
Qed.

(** The import pass adds results, and unless a comment edition is among
    them it leaves a store of tagged operations one. *)
Lemma keeps_ImportAll (fuel : nat) (gi : giteaImporter) :
  keeps (ImportAll srv Cleanup ctxErr fuel gi).
Proof.
  unfold ImportAll. apply keeps_bind.
  - intros s. split; cbn; [exists []; now rewrite app_nil_r | auto].
  - intros _. repeat first [apply keeps_importIssues | keeps_step].
Qed.

End ImportKeepsTags.

(** * The export pass writes nothing for tagged operations *)

Section ExportOfTagged.

Local Open Scope list_scope.

Variable srv : Server.

Lemma silent_refl (x : ExportState) : silent x x.
Proof. now split. Qed.

Lemma silent_trans (x1 x2 x3 : ExportState) :
  silent x1 x2 -> silent x2 x3 -> silent x1 x3.
Proof. intros [E1 E2] [E3 E4]. split; congruence. Qed.

Lemma quiet_bind {A B : Type} (m : M ExportState A) (k : A -> M ExportState B) :
  quiet m -> (forall a : A, quiet (k a)) -> quiet (m ≫= k).
Proof.
  intros Hm Hk x. unfold mbind, M_bind. specialize (Hm x).
  destruct (m x) as [[a|e|msg|] x1]; cbn [snd] in *; try exact Hm.
  apply silent_trans with x1; [exact Hm | apply Hk].
Qed.

Lemma quiet_ret {A : Type} (a : A) : quiet (mret a : M ExportState A).
Proof. intros x. apply silent_refl. Qed.

Lemma quiet_crash {A : Type} (msg : string) : quiet (crash msg : M ExportState A).
Proof. intros x. apply silent_refl. Qed.

Lemma quiet_get : quiet (get : M ExportState ExportState).
Proof. intros x. apply silent_refl. Qed.

Lemma quiet_report (r : ExportResult) : quiet (report r).
Proof. intros x. now split. Qed.

Lemma quiet_cacheOperationID (key : Id) (value : string) :
  quiet (cacheOperationID key value).
Proof. intros x. now split. Qed.

Ltac quiet_step :=
  lazymatch goal with
  | |- quiet (_ ≫= _) => apply quiet_bind; [| intros ?]
  | |- quiet (mret _) => apply quiet_ret
  | |- quiet (crash _) => apply quiet_crash
  | |- quiet get => apply quiet_get
  | |- quiet (report _) => apply quiet_report
  | |- quiet (cacheOperationID _ _) => apply quiet_cacheOperationID
  end.

(** A tagged operation is skipped by the walk. *)
Lemma quiet_exportOperation (b : Id) (bugGiteaID : Z) (bugCreationId : Id)
    (op : bug.Operation) (w : Walk) :
  tagged op = true ->
  quiet (exportOperation srv b bugGiteaID bugCreationId op w)
  /\ forall x : ExportState,
       fst (exportOperation srv b bugGiteaID bugCreationId op w x) = Ok (Some w).
Proof.
  unfold tagged, exportOperation. intros Ht.
  destruct (bug.GetMetadata op metaKeyGiteaId) as [id|].
  - destruct (bug.op_Kind op); split; try reflexivity; repeat quiet_step.
  - destruct (bug.op_Kind op); try discriminate. split; [quiet_step | reflexivity].
Qed.

Lemma quiet_exportOperations (b : Id) (bugGiteaID : Z) (bugCreationId : Id)
    (ops : list bug.Operation) (w : Walk) :
  forallb tagged ops = true ->
  quiet (exportOperations srv b bugGiteaID bugCreationId ops w).
Proof.
  revert w. induction ops as [|op ops IH]; cbn [exportOperations forallb]; intros w H.
  - apply quiet_ret.
  - apply andb_true_iff in H as [H1 H2].
    destruct (quiet_exportOperation b bugGiteaID bugCreationId op w H1) as [Hq _].
    apply quiet_bind; [exact Hq |]. intros [w'|]; [| apply quiet_ret].
    now apply IH.
Qed.

(** With a remote id on the creation operation, no issue is created. *)
Lemma quiet_remoteIssue (b : Id) (snapshot : bug.Snapshot) (createOp : bug.Operation)
    (title message : string) :
  is_Some (bug.GetCreateMetadata snapshot metaKeyGiteaId) ->
  quiet (remoteIssue srv b snapshot createOp title message).
Proof.
  intros [id Hid]. unfold remoteIssue. cbv zeta. rewrite Hid.
  apply quiet_bind; [apply quiet_get |]. intros x.
  repeat first [quiet_step
               | match goal with
                 | |- quiet (if ?c then _ else _) => destruct c
                 | |- quiet (match ?c with _ => _ end) => destruct c
                 end].
Qed.

Lemma quietOnTagged_of_quiet {A : Type} (m : M ExportState A) :
  quiet m -> quietOnTagged m.
Proof. intros H x _. apply H. Qed.

Lemma quietOnTagged_bind {A B : Type} (m : M ExportState A)
    (k : A -> M ExportState B) :
  quietOnTagged m -> (forall a : A, quietOnTagged (k a)) -> quietOnTagged (m ≫= k).
Proof.
  intros Hm Hk x Hx. unfold mbind, M_bind. specialize (Hm x Hx).
  destruct (m x) as [[a|e|msg|] x1]; cbn [snd] in *; try exact Hm.
  apply silent_trans with x1; [exact Hm |]. apply Hk.
  destruct Hm as [-> _]. exact Hx.
Qed.

Lemma tagged_of_resolved (r : cache.RepoCache) (b : Id) (bc : cache.BugCache) :
  allTagged r = true ->
  cache.ResolveBug r b = Some bc ->
  forallb tagged (cache.bug_ops bc) = true.
Proof.
  unfold allTagged, cache.ResolveBug. intros Ht Hf.
  apply find_some in Hf as [Hin _].
  exact (proj1 (forallb_forall _ _) Ht bc Hin).
Qed.

(** [exportBug] on a store of tagged operations. *)
Lemma quiet_exportBug (b : Id) : quietOnTagged (exportBug srv b).
Proof.
  intros x Hx. unfold exportBug, mbind at 1, M_bind at 1, derefBug.
  destruct (cache.ResolveBug (store x) b) as [bc|] eqn:Eb; [| apply silent_refl].
  pose proof (tagged_of_resolved _ _ _ Hx Eb) as Hops.
  cbv zeta.
  match goal with |- silent x (snd (?m x)) => cut (quiet m); [intros Hq; apply Hq |] end.
  destruct (match bug.GetCreateMetadata (cache.Snapshot bc) MetaKeyOrigin with
            | Some origin => negb (String.eqb origin target)
            | None => false
            end); [apply quiet_report |].
  unfold bug.GetCreateMetadata, cache.Snapshot, bug.Compile. cbn [bug.Operations].
  destruct (cache.bug_ops bc) as [|createOp rest] eqn:Eo; [apply quiet_crash |].
  cbn [forallb] in Hops. apply andb_true_iff in Hops as [Hc Hrest].
  destruct (bug.op_Kind createOp) as [title message| | | | | |] eqn:Ek;
    try apply quiet_crash.
  apply quiet_bind.
  - apply quiet_remoteIssue. unfold bug.GetCreateMetadata. cbn [bug.Operations].
    unfold tagged in Hc. rewrite Ek in Hc.
    destruct (bug.GetMetadata createOp metaKeyGiteaId); [eauto | discriminate].
  - intros [[bugGiteaID bugGiteaIDString]|]; [| apply quiet_ret].
    apply quiet_bind; [apply quiet_cacheOperationID | intros _].
    apply quiet_bind; [now apply quiet_exportOperations |].
    intros [w|]; [| apply quiet_ret].
    destruct (bugUpdated w); [apply quiet_ret | apply quiet_report].
Qed.

Variable ctxErr : option error.

Lemma quiet_exportBugs (since : Z) (allIdentitiesIds allBugsIds : list Id) :
  quietOnTagged (exportBugs srv ctxErr since allIdentitiesIds allBugsIds).
Proof.
  induction allBugsIds as [|id rest IH]; cbn [exportBugs].
  - apply quietOnTagged_of_quiet, quiet_ret.
  - destruct ctxErr; [apply quietOnTagged_of_quiet, quiet_ret |].
    apply quietOnTagged_bind; [apply quietOnTagged_of_quiet, quiet_get | intros x].
    destruct (cache.ResolveBug (store x) id) as [bc|];
      [| apply quietOnTagged_of_quiet, quiet_report].
    cbv zeta. destruct (CreateTime (cache.Snapshot bc) <? since).
    + apply quietOnTagged_bind;
        [apply quietOnTagged_of_quiet, quiet_report | intros _; exact IH].
    + apply quietOnTagged_bind; [| intros _; exact IH].
      destruct (HasAnyActor (cache.Snapshot bc) allIdentitiesIds);
        [apply quiet_exportBug | apply quietOnTagged_of_quiet, quiet_ret].
Qed.

(** The export pass over a store of tagged operations issues no call. *)
Lemma quiet_ExportAll (since : Z) : quietOnTagged (ExportAll srv ctxErr since).
Proof.
  unfold ExportAll.
  apply quietOnTagged_bind; [apply quietOnTagged_of_quiet, quiet_get | intros x].
  apply quiet_exportBugs.
Qed.

End ExportOfTagged.

(** The round trip of a whole store. After an import pass over a store
    whose operations are all tagged (SetMetadata operations, or operations
    that carry a remote id), and unless the pass reported the edition of
    an already imported comment, the export pass over the resulting store
    -- whatever its configuration, its clients and the instance -- issues
    no remote write call. *)
Lemma round_trip_of_tagged_store
    (srv : Server) (Cleanup : string -> error + string) (ctxErr : option error)
    (fuel : nat) (gi : giteaImporter) (s : ImportState)
    (srv' : Server) (ctxErr' : option error) (since : Z) (x : ExportState) :
  allTagged (repo s) = true ->
  noCommentEdition (out (snd (ImportAll srv Cleanup ctxErr fuel gi s))) = true ->
  store x = repo (snd (ImportAll srv Cleanup ctxErr fuel gi s)) ->
  calls (snd (ExportAll srv' ctxErr' since x)) = calls x.
Proof.
  intros Ht Hn Hx.
  destruct (keeps_ImportAll srv Cleanup ctxErr fuel gi s) as [_ Hk].
  apply (quiet_ExportAll srv' ctxErr' since x).
  rewrite Hx. now apply Hk.
Qed.

(** * More on the note classifier *)

Section ClassifierShape.

Import GoStrings.

(** Past the title rule, every rule returns. *)
Lemma GetNoteType_returns_without_title_prefix (n : Note) :
  HasPrefix (note_Body n) "changed title from" = false ->
  exists (t : NoteType) (body : string),
    GetNoteType n = Return (t, body)
    /\ t <> NOTE_TITLE_CHANGED
    /\ (note_System n = false -> t = NOTE_COMMENT /\ body = note_Body n)
    /\ (note_System n = true -> t <> NOTE_COMMENT /\ body = "").
Proof.
  intros Hp. unfold GetNoteType. rewrite Hp.
  destruct (note_System n); cbn [negb].
  - repeat match goal with
           | |- context [if ?c then _ else _] => destruct c
           end;
      eexists _, _; (split; [reflexivity |]);
      (split; [discriminate |]); (split; [discriminate |]);
      intros _; (split; [discriminate | reflexivity]).
  - eexists _, _. split; [reflexivity |]. split; [discriminate |].
    split; [auto | discriminate].
Qed.

End ClassifierShape.

(** X1. [GetNoteType] panics exactly on the system notes whose body starts
    with [changed title from] and holds no [** to **]; on every other note
    it returns. *)
Theorem X1_GetNoteType_panics_iff (n : Note) :
  (exists msg : string, GetNoteType n = Panic msg)
  <-> (note_System n = true
       /\ GoStrings.HasPrefix (note_Body n) "changed title from" = true
       /\ ~ occurs "** to **" (note_Body n)).
Proof.
  split.
  - intros [msg H].
    destruct (GoStrings.HasPrefix (note_Body n) "changed title from") eqn:Hp.
    + destruct (note_System n) eqn:Hs.
      * split; [reflexivity |]. split; [reflexivity |]. intros Hocc.
        rewrite (GetNoteType_title n Hs Hp) in H.
        destruct (GoStrings.Index (note_Body n) title_separator) as [m|] eqn:E.
        -- rewrite (getNewTitle_present _ _ E) in H. discriminate.
        -- apply Index_None_iff in E. contradiction.
      * unfold GetNoteType in H. rewrite Hs in H. discriminate.
    + destruct (GetNoteType_returns_without_title_prefix n Hp) as (t & b & E & _).
      congruence.
  - intros (Hs & Hp & Hno). exists "index out of range [1]".
    rewrite (GetNoteType_title n Hs Hp). now rewrite (getNewTitle_absent _ Hno).
Qed.

(** X2. What [GetNoteType] returns: a note that is not system-generated is
    a comment with its body as it is; a system note is never a comment, and
    its payload is empty unless it is a title change, whose payload is the
    title [getNewTitle] extracts. *)
Theorem X2_GetNoteType_payload (n : Note) :
  match GetNoteType n with
  | Panic _ => True
  | Return (t, body) =>
      (note_System n = false -> t = NOTE_COMMENT /\ body = note_Body n)
      /\ (note_System n = true ->
          t <> NOTE_COMMENT
          /\ (t <> NOTE_TITLE_CHANGED -> body = "")
          /\ (t = NOTE_TITLE_CHANGED -> getNewTitle (note_Body n) = Return body))
  end.
Proof.
  destruct (GoStrings.HasPrefix (note_Body n) "changed title from") eqn:Hp.
  - destruct (note_System n) eqn:Hs.
    + rewrite (GetNoteType_title n Hs Hp).
      destruct (getNewTitle (note_Body n)) as [t|msg]; cbn [obind]; [| exact I].
      split; [discriminate |]. intros _. split; [discriminate |].
      split; [congruence | reflexivity].
    + unfold GetNoteType. rewrite Hs. cbn [negb]. split; [auto | discriminate].
  - destruct (GetNoteType_returns_without_title_prefix n Hp)
      as (t & b & -> & Ht & Hc & Hsys).
    split; [exact Hc |]. intros Hs. destruct (Hsys Hs) as [H1 H2].
    split; [exact H1 |]. split; [intros _; exact H2 | contradiction].
Qed.

(** X3 (GetNoteType): the rules for system notes do not shadow one
    another. For a system note, each type but the title change is returned
    exactly when the condition of its own rule holds, whatever the order
    in which the rules are tested: the exact bodies and the prefixes are
    pairwise incompatible. *)
Theorem X3_rules_do_not_shadow (n : Note) :
  note_System n = true ->
  (GetNoteType n = Return (NOTE_CLOSED, "") <-> note_Body n = "closed")
  /\ (GetNoteType n = Return (NOTE_REOPENED, "") <-> note_Body n = "reopened")
  /\ (GetNoteType n = Return (NOTE_DESCRIPTION_CHANGED, "")
      <-> note_Body n = "changed the description")
  /\ (GetNoteType n = Return (NOTE_LOCKED, "") <-> note_Body n = "locked this issue")
  /\ (GetNoteType n = Return (NOTE_UNLOCKED, "") <-> note_Body n = "unlocked this issue")
  /\ (GetNoteType n = Return (NOTE_CHANGED_DUEDATE, "")
      <-> GoStrings.HasPrefix (note_Body n) "changed due date to" = true)
  /\ (GetNoteType n = Return (NOTE_REMOVED_DUEDATE, "")
      <-> note_Body n = "removed due date")
  /\ (GetNoteType n = Return (NOTE_ASSIGNED, "")
      <-> GoStrings.HasPrefix (note_Body n) "assigned to @" = true)
  /\ (GetNoteType n = Return (NOTE_UNASSIGNED, "")
      <-> GoStrings.HasPrefix (note_Body n) "unassigned @" = true)
  /\ (GetNoteType n = Return (NOTE_CHANGED_MILESTONE, "")
      <-> GoStrings.HasPrefix (note_Body n) "changed milestone to %" = true)
  /\ (GetNoteType n = Return (NOTE_REMOVED_MILESTONE, "")
      <-> GoStrings.HasPrefix (note_Body n) "removed milestone" = true)
  /\ (GetNoteType n = Return (NOTE_MENTIONED_IN_ISSUE, "")
      <-> GoStrings.HasPrefix (note_Body n) "mentioned in issue" = true)
  /\ (GetNoteType n = Return (NOTE_MENTIONED_IN_MERGE_REQUEST, "")
      <-> GoStrings.HasPrefix (note_Body n) "mentioned in merge request" = true).
Proof.
  intros Hs.
  assert (forall (t : NoteType),
            t <> NOTE_TITLE_CHANGED ->
            forall P : Prop,
              (GetNoteType n = Return (t, "") -> P) ->
              (P -> GetNoteType n = Return (t, "")) ->
              GetNoteType n = Return (t, "") <-> P) as Hiff by (intros; split; auto).
  repeat match goal with |- _ /\ _ => split end;
    (apply Hiff;
     [ discriminate
     | intros H; unfold GetNoteType in H; rewrite Hs in H; cbn [negb] in H;
       repeat match type of H with
              | context [if ?c then _ else _] => destruct c eqn:?
              end;
       try discriminate;
       try (destruct (getNewTitle (note_Body n)); discriminate);
       first [reflexivity | assumption | now apply String.eqb_eq]
     | intros Hb; try apply HasPrefix_inv in Hb;
       unfold GetNoteType; rewrite Hs, Hb; reflexivity ]).
Qed.

Lemma X3_rules_do_not_shadow_witness :
  GetNoteType Cases.closing = Return (NOTE_CLOSED, "")
  <-> note_Body Cases.closing = "closed".
Proof. exact (proj1 (X3_rules_do_not_shadow Cases.closing eq_refl)). Defined.

(** * Ids as decimal strings *)

Section DecimalIds.

Lemma digits_of_uint_acc (d : Decimal.uint) :
  forall acc : positive,
    strconv.digits (DecimalString.NilEmpty.string_of_uint d) (Z.pos acc)
    = Some (Z.pos (Pos.of_uint_acc d acc)).
Proof.
  induction d; intros acc; cbn [DecimalString.NilEmpty.string_of_uint strconv.digits
    Pos.of_uint_acc]; [reflexivity | ..];
    match goal with
    | |- context [strconv.digit_of ?c] =>
        let v := eval vm_compute in (strconv.digit_of c) in
        change (strconv.digit_of c) with v
    end; cbv iota beta;
    match goal with
    | |- strconv.digits _ ?a = Some (Z.pos (Pos.of_uint_acc _ ?p)) =>
        replace a with (Z.pos p) by lia
    end; apply IHd.
Qed.

Lemma digits_of_uint (d : Decimal.uint) :
  strconv.digits (DecimalString.NilEmpty.string_of_uint d) 0
  = Some (Z.of_N (Pos.of_uint d)).
Proof.
  induction d; cbn [DecimalString.NilEmpty.string_of_uint strconv.digits Pos.of_uint];
    [reflexivity | ..];
    match goal with
    | |- context [strconv.digit_of ?c] =>
        let v := eval vm_compute in (strconv.digit_of c) in
        change (strconv.digit_of c) with v
    end; cbv iota beta; first [exact IHd | apply digits_of_uint_acc].
Qed.

(** The digits of a positive number, read back. *)
Lemma Atoi_of_pos (p : positive) :
  exists (c : ascii) (rest : string),
    DecimalString.NilZero.string_of_uint (Pos.to_uint p) = String c rest
    /\ c <> "-"%char /\ c <> "+"%char
    /\ strconv.digits (String c rest) 0 = Some (Z.pos p).
Proof.
  pose proof (DecimalPos.Unsigned.to_uint_nonnil p) as Hnn.
  pose proof (digits_of_uint (Pos.to_uint p)) as Hd.
  rewrite DecimalPos.Unsigned.of_to in Hd. cbn [Z.of_N] in Hd.
  destruct (Pos.to_uint p) as [|d|d|d|d|d|d|d|d|d|d]; [congruence | ..];
    cbn [DecimalString.NilZero.string_of_uint DecimalString.NilEmpty.string_of_uint] in *;
    eexists _, _; (split; [reflexivity |]); (split; [discriminate |]);
    (split; [discriminate | exact Hd]).
Qed.

End DecimalIds.

(** X4 (gitea.go, parseID; export.go, the ids read back by exportBug): an
    id that the bridge wrote is an id that the bridge reads. The decimal
    string of a number of the 64-bit range, as [parseID] and
    [strconv.Itoa] write it on an operation, is read back by
    [strconv.Atoi] as the same number, without error. *)
Theorem X4_ids_read_back (id : Z) :
  - 2 ^ 63 <= id < 2 ^ 63 ->
  strconv.Atoi (parseID id) = inr id.
Proof.
  intros Hrange. unfold parseID, strconv.Itoa.
  destruct id as [|p|p]; [reflexivity | |].
  - cbn [Z.to_int DecimalString.NilZero.string_of_int].
    destruct (Atoi_of_pos p) as (c & rest & -> & Hm & Hp & Hd).
    unfold strconv.Atoi.
    assert ((match String c rest with
             | String "-"%char r => (true, r)
             | String "+"%char r => (false, r)
             | _ => (false, String c rest)
             end) = (false, String c rest)) as ->.
    { destruct c as [[] [] [] [] [] [] [] []]; try reflexivity; congruence. }
    rewrite Hd.
    assert ((- 2 ^ 63 <=? Z.pos p) && (Z.pos p <? 2 ^ 63) = true) as ->
      by (apply andb_true_iff; split; [apply Z.leb_le | apply Z.ltb_lt]; lia).
    reflexivity.
  - cbn [Z.to_int DecimalString.NilZero.string_of_int].
    destruct (Atoi_of_pos p) as (c & rest & -> & Hm & Hp & Hd).
    unfold strconv.Atoi. rewrite Hd.
    assert ((- 2 ^ 63 <=? - Z.pos p) && (- Z.pos p <? 2 ^ 63) = true) as ->
      by (apply andb_true_iff; split; [apply Z.leb_le | apply Z.ltb_lt]; lia).
    reflexivity.
Qed.

Lemma X4_ids_read_back_witness : strconv.Atoi (parseID 500) = inr 500.
Proof. apply (X4_ids_read_back 500). lia. Defined.

(** * The note iterator over a paged listing *)

Section NotePagination.

Local Open Scope list_scope.

Import NoteIterator.

Variable srv : Server.
Variable conf : config.
Variable iss : Z.
(** The pages the instance serves, all non-empty, each answer reporting
    their number. *)
Variable pages : list (list Note).
Hypothesis pages_nonempty : Forall (fun p => p <> []) pages.
Hypothesis served :
  forall k : nat,
    (k < length pages)%nat ->
    ListIssueNotes srv (gc conf) (project conf) iss
      (Z.of_nat (S k)) (capacity conf)
    = inr (nth k pages [], Z.of_nat (length pages)).

Local Abbreviation inPage := (noteInPage iss pages).
Local Abbreviation laterFetches := (noteLaterFetches iss pages).
Local Abbreviation exhausted := (noteExhausted iss pages).

Lemma drainNotes_S (fuel : nat) (ii : noteIterator) :
  drainNotes srv conf (S fuel) ii
  = match failure (Next srv conf ii) with
    | Some _ => None
    | None =>
        if more (Next srv conf ii) then
          match Value (after (Next srv conf ii)) with
          | Panic _ => None
          | Return v =>
              match drainNotes srv conf fuel (after (Next srv conf ii)) with
              | Some (vs, fs, ii') =>
                  Some (v :: vs, fetched (Next srv conf ii) ++ fs, ii')
              | None => None
              end
          end
        else Some ([], fetched (Next srv conf ii), after (Next srv conf ii))
    end.
Proof. reflexivity. Qed.

Lemma nth_page_nonempty_note (k : nat) :
  (k < length pages)%nat -> nth k pages [] <> [].
Proof.
  intros Hk. apply (proj1 (List.Forall_forall _ _) pages_nonempty).
  now apply nth_In.
Qed.


Lemma Value_inPage_note (k : nat) (pre suf : list Note) (x : Note) :
  nth k pages [] = pre ++ x :: suf ->
  Value (inPage k (length pre)) = Return x.
Proof.
  intros Hc. unfold Value, noteInPage. cbn [cache index]. rewrite Hc.
  apply slice_at_middle.
Qed.

(** Inside a page, [Next] moves the index without fetching. *)
Lemma Next_inPage_note (k : nat) (pre suf : list Note) (x y : Note) :
  nth k pages [] = pre ++ x :: y :: suf ->
  Next srv conf (inPage k (length pre))
  = Build_Step true None (inPage k (S (length pre))) [].
Proof.
  intros Hc. unfold Next, noteInPage. cbn [cache index page lastPage issue]. rewrite Hc.
  destruct (pre ++ x :: y :: suf) eqn:E; [now destruct pre |]. rewrite <- E.
  destruct (Z.ltb_spec (Z.of_nat (length pre))
              (Z.of_nat (length (pre ++ x :: y :: suf)) - 1)) as [_|Hge].
  2: { rewrite length_app in Hge. simpl in Hge. lia. }
  do 2 f_equal. lia.
Qed.

Lemma drainNotes_page (k : nat) (suf pre : list Note) (x : Note) (fuel : nat)
    (vs : list Note) (fs : list Fetch) (fin : noteIterator) :
  nth k pages [] = pre ++ x :: suf ->
  drainNotes srv conf fuel (inPage k (length pre + length suf)) = Some (vs, fs, fin) ->
  drainNotes srv conf (length suf + fuel) (inPage k (length pre)) = Some (suf ++ vs, fs, fin).
Proof.
  revert pre x. induction suf as [|y suf IH]; intros pre x Hc Hd.
  - simpl in *. now rewrite Nat.add_0_r in Hd.
  - cbn [length Nat.add drainNotes]. rewrite (Next_inPage_note k pre suf x y Hc).
    cbn [failure more after fetched].
    assert (nth k pages [] = (pre ++ [x]) ++ y :: suf) as Hc'
      by (now rewrite <- app_assoc).
    assert (S (length pre) = length (pre ++ [x])) as El
      by (rewrite length_app; simpl; lia).
    rewrite El. rewrite (Value_inPage_note k _ _ _ Hc').
    rewrite (IH (pre ++ [x]) y Hc'); [reflexivity |].
    rewrite <- El. rewrite <- Hd. f_equal. f_equal. simpl. lia.
Qed.

(** At the end of the last page, [Next] returns false without a fetch
    and leaves the iterator as it is. *)
Lemma Next_end_last_note (k j : nat) (pre : list Note) (x : Note) :
  nth k pages [] = pre ++ [x] ->
  j = length pre ->
  S k = length pages ->
  Next srv conf (inPage k j) = Build_Step false None (inPage k j) [].
Proof.
  intros Hc -> Hk. unfold Next, noteInPage. cbn [cache index page lastPage issue]. rewrite Hc.
  destruct (pre ++ [x]) eqn:E; [now destruct pre |]. rewrite <- E.
  destruct (Z.ltb_spec (Z.of_nat (length pre))
              (Z.of_nat (length (pre ++ [x])) - 1)) as [Hlt|_].
  1: { rewrite length_app in Hlt. simpl in Hlt. lia. }
  unfold getNext. cbn [lastPage issue]. rewrite <- Hk, Z.eqb_refl. reflexivity.
Qed.

(** At the end of another page, [Next] fetches the next page and stands
    on its first item. *)
Lemma Next_end_page_note (k j : nat) (pre : list Note) (x : Note) :
  nth k pages [] = pre ++ [x] ->
  j = length pre ->
  (S k < length pages)%nat ->
  Next srv conf (inPage k j)
  = Build_Step true None (inPage (S k) 0) [FetchNotes iss (Z.of_nat (S (S k)))].
Proof.
  intros Hc -> Hk. unfold Next, noteInPage. cbn [cache index page lastPage issue]. rewrite Hc.
  destruct (pre ++ [x]) eqn:E; [now destruct pre |]. rewrite <- E.
  destruct (Z.ltb_spec (Z.of_nat (length pre))
              (Z.of_nat (length (pre ++ [x])) - 1)) as [Hlt|_].
  1: { rewrite length_app in Hlt. simpl in Hlt. lia. }
  unfold getNext. cbn [lastPage page issue].
  destruct (Z.eqb_spec (Z.of_nat (length pages)) (Z.of_nat (S k))) as [Heq|_]; [lia |].
  rewrite (served (S k) Hk).
  pose proof (nth_page_nonempty_note (S k) Hk) as Hne.
  destruct (nth (S k) pages []) eqn:En; [congruence |].
  replace (Z.of_nat (S (S k)) + 1) with (Z.of_nat (S (S (S k)))) by lia.
  now destruct (Z.of_nat (length pages) =? Z.of_nat (S (S k))).
Qed.

(** The first call fetches page 1. *)
Lemma Next_first_note :
  (0 < length pages)%nat ->
  Next srv conf (Reset iss newNoteIterator)
  = Build_Step true None (inPage 0 0) [FetchNotes iss 1].
Proof.
  intros Hk. unfold Next, newNoteIterator, Reset, getNext.
  cbn [cache index page lastPage issue].
  change 1 with (Z.of_nat 1) at 1. rewrite (served 0%nat Hk).
  pose proof (nth_page_nonempty_note 0%nat Hk) as Hne.
  destruct (nth 0%nat pages []) eqn:En; [congruence |].
  unfold noteInPage. rewrite En.
  change (Z.of_nat 2) with (1 + 1). change (Z.of_nat 1) with 1.
  change (Z.of_nat 0) with 0.
  now destruct (Z.of_nat (length pages) =? 1).
Qed.

(** From the last item of page [k] on. *)
Lemma drainNotes_end (k j : nat) (pre : list Note) (x : Note) (fuel : nat)
    (r : list Note * list Fetch * noteIterator) :
  nth k pages [] = pre ++ [x] ->
  j = length pre ->
  (k < length pages)%nat ->
  (if Nat.eqb (S k) (length pages)
   then r = ([], [], inPage k j)
   else exists (y : Note) (vs : list Note) (fs : list Fetch) (fin : noteIterator),
          Value (inPage (S k) 0) = Return y
          /\ drainNotes srv conf fuel (inPage (S k) 0) = Some (vs, fs, fin)
          /\ r = (y :: vs, FetchNotes iss (Z.of_nat (S (S k))) :: fs, fin)) ->
  drainNotes srv conf (S fuel) (inPage k j) = Some r.
Proof.
  intros Hc Hj Hk Hr. cbn [drainNotes].
  destruct (Nat.eqb_spec (S k) (length pages)) as [He|Hn].
  - rewrite (Next_end_last_note k j pre x Hc Hj He). now subst r.
  - destruct Hr as (y & vs & fs & fin & Hv & Hd & ->).
    rewrite (Next_end_page_note k j pre x Hc Hj) by lia.
    cbn [failure more after fetched]. now rewrite Hv, Hd.
Qed.

(** From the first item of page [k] on, to the end of the page and
    over its end. *)
Lemma drainNotes_whole_page (k : nat) (x : Note) (rest : list Note) (fuel : nat)
    (vs : list Note) (fs : list Fetch) (fin : noteIterator) :
  nth k pages [] = x :: rest ->
  (k < length pages)%nat ->
  (if Nat.eqb (S k) (length pages)
   then (vs, fs, fin) = ([], [], inPage k (length rest))
   else exists (y : Note) (vs' : list Note) (fs' : list Fetch),
          Value (inPage (S k) 0) = Return y
          /\ drainNotes srv conf fuel (inPage (S k) 0) = Some (vs', fs', fin)
          /\ (vs, fs) = (y :: vs', FetchNotes iss (Z.of_nat (S (S k))) :: fs')) ->
  drainNotes srv conf (length rest + S fuel) (inPage k 0) = Some (rest ++ vs, fs, fin).
Proof.
  intros Hc Hk Hr.
  destruct (exists_last (l := x :: rest)) as [pre [z Ez]]; [discriminate |].
  assert (length rest = length pre) as Hlen.
  { apply (f_equal (@length _)) in Ez. rewrite length_app in Ez. simpl in Ez. lia. }
  apply (drainNotes_page k rest [] x); [exact Hc |]. cbn [length Nat.add].
  apply (drainNotes_end k (length rest) pre z); [congruence | exact Hlen | exact Hk |].
  destruct (Nat.eqb (S k) (length pages)); [exact Hr |].
  destruct Hr as (y & vs' & fs' & Hv & Hd & [= -> ->]).
  now exists y, vs', fs', fin.
Qed.


(** From the first item of page [k] on: the rest of the page, the later
    pages, one fetch for each of them. *)
Lemma drainNotes_pages (r k : nat) :
  (S k + r = length pages)%nat ->
  drainNotes srv conf
    (S (length (tl (nth k pages []) ++ concat (skipn (S k) pages)))) (inPage k 0)
  = Some (tl (nth k pages []) ++ concat (skipn (S k) pages),
          laterFetches k, exhausted).
Proof.
  revert k. induction r as [|r IH]; intros k Hk.
  - assert (k < length pages)%nat as Hlt by lia.
    pose proof (nth_page_nonempty_note k Hlt) as Hne.
    destruct (nth k pages []) as [|x rest] eqn:En; [congruence |].
    rewrite skipn_all2 by lia. cbn [tl concat]. rewrite app_nil_r.
    replace (S (length rest)) with (length rest + 1)%nat by lia.
    rewrite <- (app_nil_r rest) at 2.
    apply (drainNotes_whole_page k x rest 0); [exact En | exact Hlt |].
    destruct (Nat.eqb_spec (S k) (length pages)) as [_|Hn]; [| lia].
    unfold noteLaterFetches, noteExhausted.
    replace (length pages - S k)%nat with 0%nat by lia.
    replace (length pages - 1)%nat with k by lia. rewrite En.
    simpl. now rewrite Nat.sub_0_r.
  - assert (k < length pages)%nat as Hlt by lia.
    assert (S k < length pages)%nat as Hlt' by lia.
    pose proof (nth_page_nonempty_note k Hlt) as Hne.
    pose proof (nth_page_nonempty_note (S k) Hlt') as Hne'.
    specialize (IH (S k) ltac:(lia)).
    rewrite (skipn_nth [] pages (S k) Hlt').
    destruct (nth k pages []) as [|x rest] eqn:En; [congruence |].
    destruct (nth (S k) pages []) as [|y rest'] eqn:En'; [congruence |].
    cbn [tl concat] in *. rewrite <- app_comm_cons.
    set (vs' := rest' ++ concat (skipn (S (S k)) pages)) in *.
    replace (S (length (rest ++ y :: vs')))
      with (length rest + S (S (length vs')))%nat
      by (rewrite length_app; simpl; lia).
    apply (drainNotes_whole_page k x rest (S (length vs'))); [exact En | exact Hlt |].
    destruct (Nat.eqb_spec (S k) (length pages)) as [He|_]; [lia |].
    exists y, vs', (laterFetches (S k)). repeat split.
    + unfold Value, noteInPage. cbn [cache index]. now rewrite En'.
    + exact IH.
    + f_equal. unfold noteLaterFetches.
      replace (length pages - S k)%nat with (S (length pages - S (S k))) by lia.
      reflexivity.
Qed.

(** The whole run: every item of every page in order, one fetch per
    page, and the iterator at rest on the last item. *)
Lemma drainNotes_all :
  (0 < length pages)%nat ->
  drainNotes srv conf (S (length (concat pages))) (Reset iss newNoteIterator)
  = Some (concat pages,
          map (fun i => FetchNotes iss (Z.of_nat (S i))) (seq 0 (length pages)),
          exhausted).
Proof.
  intros Hk. pose proof (nth_page_nonempty_note 0%nat Hk) as Hne.
  pose proof (drainNotes_pages (length pages - 1) 0 ltac:(lia)) as Hd.
  destruct (nth 0 pages []) as [|x rest] eqn:En; [congruence |].
  cbn [tl] in Hd.
  assert (concat pages = x :: (rest ++ concat (skipn 1 pages))) as Ec.
  { pose proof (skipn_nth [] pages 0 Hk) as Ep.
    change (skipn 0 pages) with pages in Ep.
    rewrite Ep at 1. cbn [concat]. now rewrite En. }
  rewrite Ec. cbn [length]. rewrite drainNotes_S, (Next_first_note Hk).
  cbn [failure more after fetched].
  replace (Value (inPage 0 0)) with (Return x)
    by (unfold Value, noteInPage; cbn [cache index]; now rewrite En).
  rewrite Hd. f_equal. f_equal. unfold noteLaterFetches.
  replace (length pages) with (S (length pages - 1)) at 2 by lia.
  reflexivity.
Qed.

(** At rest, [Next] returns false, fetches nothing and changes nothing. *)
Lemma Next_exhausted_note :
  (0 < length pages)%nat ->
  Next srv conf exhausted = Build_Step false None exhausted [].
Proof.
  intros Hk. unfold noteExhausted.
  assert (length pages - 1 < length pages)%nat as Hlt by lia.
  pose proof (nth_page_nonempty_note _ Hlt) as Hne.
  destruct (exists_last Hne) as [pre [z Ez]].
  apply (Next_end_last_note _ _ pre z); [exact Ez | | lia].
  rewrite Ez, length_app. simpl. lia.
Qed.

End NotePagination.

Section NoteDrainMonotone.

Variable srv : Server.
Variable conf : config.

Lemma drainNotes_more_fuel (f : nat) :
  forall (it : NoteIterator.noteIterator)
         (r : list Note * list Fetch * NoteIterator.noteIterator) (f' : nat),
    drainNotes srv conf f it = Some r -> (f <= f')%nat ->
    drainNotes srv conf f' it = Some r.
Proof.
  induction f as [|f IH]; intros it r f' H Hle; [discriminate |].
  destruct f' as [|f']; [lia |].
  rewrite drainNotes_S in *.
  destruct (failure (NoteIterator.Next srv conf it)); [discriminate |].
  destruct (more (NoteIterator.Next srv conf it)); [| exact H].
  destruct (NoteIterator.Value (after (NoteIterator.Next srv conf it)));
    [| discriminate].
  destruct (drainNotes srv conf f (after (NoteIterator.Next srv conf it)))
    as [[[vs fs] fin]|] eqn:E; [| discriminate].
  rewrite (IH _ _ f' E) by lia. exact H.
Qed.

End NoteDrainMonotone.

(** X5. The note iterator, reset to an issue whose N >= 1 notes are served
    in pages of P notes with ceil(N/P) pages reported: calling [Next] until
    it returns false yields the N notes in order with one fetch for each
    of the pages 1 .. ceil(N/P) of that issue; at rest [Next] returns
    false, fetches nothing and changes nothing. *)
Theorem X5_note_pagination (srv : Server) (conf : config) (iss : Z) (notes : list Note)
    (before : NoteIterator.noteIterator) :
  notes <> [] ->
  1 <= capacity conf ->
  (forall page : Z,
     ListIssueNotes srv (gc conf) (project conf) iss page (capacity conf)
     = inr (pageOf notes (capacity conf) page, totalPages notes (capacity conf))) ->
  exists rest : NoteIterator.noteIterator,
    (forall fuel : nat,
       (length notes < fuel)%nat ->
       drainNotes srv conf fuel (NoteIterator.Reset iss before)
       = Some (notes,
               map (FetchNotes iss) (seqZ 1 (totalPages notes (capacity conf))),
               rest))
    /\ NoteIterator.Next srv conf rest = Build_Step false None rest []
    /\ NoteIterator.issue rest = iss.
Proof.
  intros Hne Hcap Hsrv.
  set (pages := pagesOf notes (capacity conf)).
  assert (Forall (fun p => p <> []) pages) as Hpn by (apply pagesOf_nonempty; lia).
  destruct (totalPages_bounds notes (capacity conf) Hcap) as (Hge & _ & Hlt & Hpos).
  specialize (Hlt Hne).
  assert (Z.of_nat (length pages) = totalPages notes (capacity conf)) as HT.
  { unfold pages. rewrite length_pagesOf, Z2Nat.id; lia. }
  assert (forall k : nat, (k < length pages)%nat ->
            ListIssueNotes srv (gc conf) (project conf) iss
              (Z.of_nat (S k)) (capacity conf)
            = inr (nth k pages [], Z.of_nat (length pages))) as Hserved.
  { intros k Hk. rewrite Hsrv, HT. unfold pages. now rewrite nth_pagesOf. }
  assert (0 < length pages)%nat as Hk0.
  { assert (1 <= Z.of_nat (length notes)) by (destruct notes; [congruence | simpl; lia]).
    assert (0 < totalPages notes (capacity conf)) by nia. lia. }
  exists (noteExhausted iss pages). split; [| split].
  - intros fuel Hfuel.
    apply (drainNotes_more_fuel srv conf (S (length (concat pages)))).
    + change (NoteIterator.Reset iss before)
        with (NoteIterator.Reset iss NoteIterator.newNoteIterator).
      rewrite (drainNotes_all srv conf iss pages Hpn Hserved Hk0).
      unfold pages at 1. rewrite concat_pagesOf by lia. do 2 f_equal.
      unfold seqZ. rewrite <- HT, Nat2Z.id. rewrite <- list_fmap_compose.
      f_equal. apply map_ext. intros i. unfold compose. f_equal. lia.
    + unfold pages. rewrite concat_pagesOf by lia. lia.
  - exact (Next_exhausted_note srv conf iss pages Hpn Hk0).
  - reflexivity.
Qed.

Lemma X5_note_pagination_witness :
  exists rest : NoteIterator.noteIterator,
    drainNotes (Cases.noteListing Cases.threeNotes) Scenario.pagesOfTwo 4
      (NoteIterator.Reset 1 NoteIterator.newNoteIterator)
    = Some (Cases.threeNotes, [FetchNotes 1 1; FetchNotes 1 2], rest).
Proof.
  destruct (X5_note_pagination (Cases.noteListing Cases.threeNotes) Scenario.pagesOfTwo
              1 Cases.threeNotes NoteIterator.newNoteIterator)
    as [rest [H _]].
  - discriminate.
  - simpl. lia.
  - intros page. reflexivity.
  - exists rest. apply (H 4%nat). simpl. lia.
Defined.

(** * More on the iterators *)

(** X6. A fetch that fails resets the sub-iterator: the issue iterator is
    the initial one again, and the note iterator is the initial one with
    its issue forgotten (-1); in both cases [Next] returns false. A later
    [Next] on the sub-iterator alone would fetch page 1 again: only the
    composite iterator keeps the error. *)
Theorem X6_fetch_error_resets (srv : Server) (conf : config)
    (ii : IssueIterator.issueIterator) (it : NoteIterator.noteIterator) (e : error) :
  (failure (IssueIterator.Next srv conf ii) = Some e ->
   IssueIterator.Next srv conf ii
   = Build_Step false (Some e) IssueIterator.newIssueIterator
       [FetchIssues (IssueIterator.page ii)])
  /\ (failure (NoteIterator.Next srv conf it) = Some e ->
      NoteIterator.Next srv conf it
      = Build_Step false (Some e) NoteIterator.newNoteIterator
          [FetchNotes (NoteIterator.issue it) (NoteIterator.page it)]
      /\ NoteIterator.issue NoteIterator.newNoteIterator = -1).
Proof.
  split.
  - unfold IssueIterator.Next, IssueIterator.getNext.
    destruct (IssueIterator.cache ii);
      [| destruct (IssueIterator.index ii <? _); [discriminate |]];
      (destruct (IssueIterator.lastPage ii); [discriminate |];
       destruct (ListRepoIssues srv _ _ _ _ _) as [err|[[|x xs] tp]];
       cbn; intros H; try discriminate; now injection H as ->).
  - unfold NoteIterator.Next, NoteIterator.getNext.
    destruct (NoteIterator.cache it);
      [| destruct (NoteIterator.index it <? _); [discriminate |]];
      (destruct (NoteIterator.lastPage it); [discriminate |];
       destruct (ListIssueNotes srv _ _ _ _ _) as [err|[[|x xs] tp]];
       cbn; intros H; try discriminate; now injection H as ->).
Qed.

(** X7 (config_test.go, Iterator.NextIssue): when [NextIssue] returns
    without recording an error, the note iterator is a fresh cursor of the
    issue the issue iterator now stands on: scoped to its IID, page 1, no
    page held, not exhausted. What it held for the issue before is
    dropped. *)
Theorem X7_NextIssue_rescopes (srv : Server) (i i' : CompositeIterator.Iterator)
    (b : bool) (fs : list Fetch) :
  CompositeIterator.Error i = None ->
  CompositeIterator.NextIssue srv None i = (Return (b, i'), fs) ->
  CompositeIterator.Error i' = None ->
  exists v : Issue,
    CompositeIterator.IssueValue i' = Return v
    /\ CompositeIterator.note i'
       = {| NoteIterator.issue := issue_IID v; NoteIterator.page := 1;
            NoteIterator.lastPage := false; NoteIterator.index := -1;
            NoteIterator.cache := [] |}.
Proof.
  unfold CompositeIterator.Error, CompositeIterator.NextIssue. intros Hn H Hn'.
  rewrite Hn in H.
  destruct (failure (IssueIterator.Next srv (CompositeIterator.conf i)
                       (CompositeIterator.issue i))) as [e|].
  - injection H as _ <- _. discriminate.
  - destruct (IssueIterator.Value
                (after (IssueIterator.Next srv (CompositeIterator.conf i)
                          (CompositeIterator.issue i)))) as [v|msg] eqn:Ev;
      cbn [obind] in H; [| discriminate].
    injection H as _ <- _. exists v. unfold CompositeIterator.IssueValue.
    cbn [CompositeIterator.issue CompositeIterator.note].
    split; [exact Ev | reflexivity].
Qed.

Lemma X7_NextIssue_rescopes_witness :
  exists (i' : CompositeIterator.Iterator) (v : Issue),
    CompositeIterator.NextIssue (Scenario.remote [] []) None Scenario.freshIterator
    = (Return (true, i'), [FetchIssues 1])
    /\ CompositeIterator.IssueValue i' = Return v
    /\ NoteIterator.issue (CompositeIterator.note i') = issue_IID v.
Proof.
  eexists. 
  destruct (X7_NextIssue_rescopes (Scenario.remote [] []) Scenario.freshIterator
              _ true [FetchIssues 1] eq_refl eq_refl eq_refl) as [v [Hv Hn]].
  exists v. split; [reflexivity |]. split; [exact Hv |]. now rewrite Hn.
Defined.

(** X8. Under a cancelled context the advancing calls return false, fetch
    nothing and leave the iterator as it is: no error is recorded, so
    [Error()] does not tell a cancelled pass from a finished one. *)
Theorem X8_cancelled_context (srv : Server) (e : error)
    (calls : list Advance) (i : CompositeIterator.Iterator) :
  runCalls srv (map (fun a => (a, Some e)) calls) i
  = (Return (repeat false (length calls), i), []).
Proof.
  induction calls as [|a calls IH]; [reflexivity |].
  assert (advanceBy srv a (Some e) i = (Return (false, i), [])) as Ha.
  { destruct a; cbn [advanceBy];
      unfold CompositeIterator.NextIssue, CompositeIterator.NextNote,
        CompositeIterator.NextLabelEvent;
      now destruct (CompositeIterator.err i). }
  cbn [map runCalls length repeat]. now rewrite Ha, IH.
Qed.

(** X9. An issue without notes: when the note iterator holds no page and
    its fetch answers an empty list, [NextNote] returns false after that
    one fetch, without panic and without error; the cursor is marked
    exhausted only if the answer reported as many pages as the page asked,
    and otherwise it is left exactly as it was, so that the next
    [NextNote] issues the same fetch again. *)
Theorem X9_NextNote_empty_listing (srv : Server) (i : CompositeIterator.Iterator)
    (totalPages : Z) :
  CompositeIterator.Error i = None ->
  NoteIterator.cache (CompositeIterator.note i) = [] ->
  NoteIterator.lastPage (CompositeIterator.note i) = false ->
  ListIssueNotes srv (gc (CompositeIterator.conf i)) (project (CompositeIterator.conf i))
    (NoteIterator.issue (CompositeIterator.note i))
    (NoteIterator.page (CompositeIterator.note i))
    (capacity (CompositeIterator.conf i))
  = inr ([], totalPages) ->
  exists i' : CompositeIterator.Iterator,
    CompositeIterator.NextNote srv None i
    = (Return (false, i'),
       [FetchNotes (NoteIterator.issue (CompositeIterator.note i))
          (NoteIterator.page (CompositeIterator.note i))])
    /\ CompositeIterator.Error i' = None
    /\ NoteIterator.lastPage (CompositeIterator.note i')
       = (totalPages =? NoteIterator.page (CompositeIterator.note i))
    /\ (totalPages <> NoteIterator.page (CompositeIterator.note i) -> i' = i).
Proof.
  unfold CompositeIterator.Error. intros Hn Hc Hl Hs.
  unfold CompositeIterator.NextNote. rewrite Hn.
  unfold NoteIterator.Next. rewrite Hc. unfold NoteIterator.getNext. rewrite Hl, Hs.
  cbn [failure more after fetched]. eexists. split; [reflexivity |].
  cbn [CompositeIterator.err CompositeIterator.note NoteIterator.lastPage].
  split; [reflexivity |]. split.
  - now destruct (totalPages =? _).
  - intros Hne. destruct (Z.eqb_spec totalPages
                            (NoteIterator.page (CompositeIterator.note i))); [contradiction |].
    destruct i as [c er ii nt le]. destruct nt. cbn in *. now subst.
Qed.

Lemma X9_NextNote_empty_listing_witness :
  exists i' : CompositeIterator.Iterator,
    CompositeIterator.NextNote (Scenario.remote [] []) None Cases.onFirstIssue
    = (Return (false, i'), [FetchNotes 1 1])
    /\ NoteIterator.lastPage (CompositeIterator.note i') = true.
Proof.
  destruct (X9_NextNote_empty_listing (Scenario.remote [] []) Cases.onFirstIssue 1
              eq_refl eq_refl eq_refl eq_refl) as [i' [H1 [_ [H2 _]]]].
  exists i'. split; [exact H1 | exact H2].
Defined.

(** * The importer, function by function *)

Section ImporterFacts.

Local Open Scope list_scope.

Variable srv : Server.
Variable Cleanup : string -> error + string.

(** [ensurePerson], case by case. *)
Lemma ensurePerson_cases (gi : giteaImporter) (id : Z) (s : ImportState) :
  ensurePerson srv gi id s
  = match cache.ResolveIdentityImmutableMetadata (repo s) metaKeyGiteaId
            (strconv.Itoa id) with
    | inr i => (Ok (cache.ident_Id i), s)
    | inl err =>
        if cache.IsErrMultipleMatch err then (Fail err, s)
        else
          match GetUser srv (gi_client gi) id with
          | inl e => (Fail e, s)
          | inr user =>
              let created :=
                cache.NewIdentityRaw (user_Name user) (user_PublicEmail user)
                  (user_Username user) (user_AvatarURL user)
                  {[ metaKeyGiteaId := strconv.Itoa id;
                     metaKeyGiteaLogin := user_Username user ]} (repo s) in
              (Ok (cache.ident_Id (fst created)),
               {| repo := snd created; iterator := iterator s;
                  out := out s ++ [ImportIdentity (cache.ident_Id (fst created))];
                  fetches := fetches s |})
          end
    end.
Proof.
  unfold ensurePerson, mbind, M_bind, get.
  destruct (cache.ResolveIdentityImmutableMetadata (repo s) metaKeyGiteaId
              (strconv.Itoa id)) as [err|i]; [| reflexivity].
  destruct (cache.IsErrMultipleMatch err); [reflexivity |].
  destruct (GetUser srv (gi_client gi) id) as [e|user]; reflexivity.
Qed.

Lemma resolve_identity_none (r : cache.RepoCache) (key value : string) (err : error) :
  cache.ResolveIdentityImmutableMetadata r key value = inl err ->
  cache.IsErrMultipleMatch err = false ->
  List.filter
    (fun i => match cache.ident_ImmutableMetadata i !! key with
              | Some v => String.eqb v value
              | None => false
              end) (cache.identities r) = [].
Proof.
  unfold cache.ResolveIdentityImmutableMetadata.
  destruct (List.filter _ (cache.identities r)) as [|i [|j l]]; intros H Hm;
    try reflexivity; try discriminate.
  injection H as <-. discriminate.
Qed.

Lemma resolve_identity_same (r r' : cache.RepoCache) (key value : string) :
  cache.identities r' = cache.identities r ->
  cache.ResolveIdentityImmutableMetadata r' key value
  = cache.ResolveIdentityImmutableMetadata r key value.
Proof. intros H. unfold cache.ResolveIdentityImmutableMetadata. now rewrite H. Qed.

(** The identity that [ensurePerson] returns is the one the store then
    resolves for the remote id. *)
Lemma ensurePerson_found (gi : giteaImporter) (id : Z) (s s' : ImportState) (i : Id) :
  ensurePerson srv gi id s = (Ok i, s') ->
  exists ident : cache.IdentityCache,
    cache.ResolveIdentityImmutableMetadata (repo s') metaKeyGiteaId (strconv.Itoa id)
    = inr ident
    /\ cache.ident_Id ident = i.
Proof.
  rewrite ensurePerson_cases.
  destruct (cache.ResolveIdentityImmutableMetadata (repo s) metaKeyGiteaId
              (strconv.Itoa id)) as [err|ident] eqn:Er.
  - destruct (cache.IsErrMultipleMatch err) eqn:Em; [discriminate |].
    destruct (GetUser srv (gi_client gi) id) as [e|user]; [discriminate |].
    cbv zeta. intros H. injection H as <- <-. cbn [repo].
    unfold cache.ResolveIdentityImmutableMetadata, cache.NewIdentityRaw, cache.bump.
    cbn [snd fst cache.identities cache.ident_Id].
    rewrite List.filter_app, (resolve_identity_none _ _ _ _ Er Em).
    cbn [List.filter app cache.ident_ImmutableMetadata].
    rewrite lookup_insert_eq, String.eqb_refl. eexists. split; reflexivity.
  - intros H. injection H as <- <-. now exists ident.
Qed.

Lemma ensurePerson_of_found (gi : giteaImporter) (id : Z) (s : ImportState)
    (ident : cache.IdentityCache) :
  cache.ResolveIdentityImmutableMetadata (repo s) metaKeyGiteaId (strconv.Itoa id)
  = inr ident ->
  ensurePerson srv gi id s = (Ok (cache.ident_Id ident), s).
Proof. intros H. now rewrite ensurePerson_cases, H. Qed.

(** Once [ensurePerson] has returned an identity, it returns it again,
    and changes nothing, in every state with the same identities. *)
Lemma ensurePerson_again (gi : giteaImporter) (id : Z) (s s' s2 : ImportState) (i : Id) :
  ensurePerson srv gi id s = (Ok i, s') ->
  cache.identities (repo s2) = cache.identities (repo s') ->
  ensurePerson srv gi id s2 = (Ok i, s2).
Proof.
  intros H Hsame. destruct (ensurePerson_found _ _ _ _ _ H) as (ident & Hr & <-).
  apply ensurePerson_of_found.
  now rewrite (resolve_identity_same _ _ _ _ Hsame).
Qed.

(** [ensurePerson] leaves the bugs alone. *)
Lemma ensurePerson_bugs (gi : giteaImporter) (id : Z) (s : ImportState) :
  cache.bugs (repo (snd (ensurePerson srv gi id s))) = cache.bugs (repo s).
Proof.
  rewrite ensurePerson_cases.
  destruct (cache.ResolveIdentityImmutableMetadata (repo s) metaKeyGiteaId
              (strconv.Itoa id)) as [err|ident]; [| reflexivity].
  destruct (cache.IsErrMultipleMatch err); [reflexivity |].
  destruct (GetUser srv (gi_client gi) id) as [e|user]; reflexivity.
Qed.

(** [ensureIssue], case by case. *)
Lemma ensureIssue_cases (gi : giteaImporter) (issue : Issue) (s : ImportState) :
  ensureIssue srv Cleanup gi issue s
  = match ensurePerson srv gi (issue_AuthorID issue) s with
    | (Ok author, sP) =>
        match cache.ResolveBugMatcher (repo sP) (issueMatcher gi issue) with
        | inr b => (Ok b, sP)
        | inl err =>
            if negb (error_eqb err ErrBugNotExist) then (Fail err, sP)
            else
              match Cleanup (issue_Description issue) with
              | inl e => (Fail e, sP)
              | inr cleanText =>
                  let created :=
                    cache.NewBugRaw author (issue_CreatedAt issue)
                      (issue_Title issue) cleanText
                      {[ MetaKeyOrigin := target;
                         metaKeyGiteaId := parseID (issue_IID issue);
                         metaKeyGiteaUrl := issue_WebURL issue;
                         metaKeyGiteaProject := mapGet (gi_conf gi) confKeyProjectID;
                         metaKeyGiteaBaseUrl := mapGet (gi_conf gi) confKeyGiteaBaseUrl ]}
                      (repo sP) in
                  (Ok (fst (fst created)),
                   {| repo := snd created; iterator := iterator sP;
                      out := out sP ++ [ImportBug (fst (fst created))];
                      fetches := fetches sP |})
              end
        end
    | (Fail e, sP) => (Fail e, sP)
    | (Crash msg, sP) => (Crash msg, sP)
    | (OutOfFuel, sP) => (OutOfFuel, sP)
    end.
Proof.
  unfold ensureIssue, mbind, M_bind, get.
  destruct (ensurePerson srv gi (issue_AuthorID issue) s) as [[author|e|msg|] sP];
    try reflexivity.
  destruct (cache.ResolveBugMatcher (repo sP) (issueMatcher gi issue)) as [err|b];
    [| reflexivity].
  destruct (negb (error_eqb err ErrBugNotExist)); [reflexivity |].
  destruct (Cleanup (issue_Description issue)) as [e|cleanText]; reflexivity.
Qed.

Lemma resolve_bug_matcher_none (r : cache.RepoCache) (f : cache.BugExcerpt -> bool) :
  cache.ResolveBugMatcher r f = inl ErrBugNotExist ->
  List.filter (fun b => f (cache.excerpt b)) (cache.bugs r) = [].
Proof.
  unfold cache.ResolveBugMatcher.
  destruct (List.filter _ (cache.bugs r)) as [|x [|y l]]; intros H;
    try reflexivity; discriminate.
Qed.

Lemma resolve_bug_matcher_same (r r' : cache.RepoCache) (f : cache.BugExcerpt -> bool) :
  cache.bugs r' = cache.bugs r ->
  cache.ResolveBugMatcher r' f = cache.ResolveBugMatcher r f.
Proof. intros H. unfold cache.ResolveBugMatcher. now rewrite H. Qed.

End ImporterFacts.

(** X10. [ensurePerson] is idempotent: once it has returned an identity
    for a remote user, a second call for the same user returns the same
    identity and changes nothing -- no identity is created, no result is
    sent. *)
Theorem X10_ensurePerson_idempotent (srv : Server) (gi : giteaImporter) (id : Z)
    (s s' : ImportState) (i : Id) :
  ensurePerson srv gi id s = (Ok i, s') ->
  ensurePerson srv gi id s' = (Ok i, s').
Proof.
  intros H. exact (ensurePerson_again srv gi id s s' s' i H eq_refl).
Qed.

Lemma X10_ensurePerson_idempotent_witness :
  exists s' : ImportState,
    ensurePerson (Scenario.remote [] []) Scenario.gi 7
      (Scenario.importFrom (Scenario.emptyStore [Scenario.tokenOfAlice]))
    = (Ok 10%N, s')
    /\ ensurePerson (Scenario.remote [] []) Scenario.gi 7 s' = (Ok 10%N, s').
Proof.
  eexists. split; [reflexivity |].
  apply (X10_ensurePerson_idempotent (Scenario.remote [] []) Scenario.gi 7
           (Scenario.importFrom (Scenario.emptyStore [Scenario.tokenOfAlice]))).
  reflexivity.
Defined.

(** X11 (gitea.go, ensurePerson and ensureIssue): the two failures that
    [ensurePerson] takes from its lookups leave everything as it was, and
    so does the import of an issue of that author. When several local
    identities carry the remote id, [ensurePerson] fails with the error of
    the multiple match; when none carries it and the remote profile
    cannot be fetched, it fails with the error of [GetUser]. In both
    cases no identity is created and no result is sent, and [ensureIssue]
    for an issue of that author fails with the same error before it looks
    for the bug: no bug is found or created. *)
Theorem X11_ensurePerson_failure (srv : Server) (Cleanup : string -> error + string)
    (gi : giteaImporter) (issue : Issue) (s : ImportState) (e : error) :
  (cache.ResolveIdentityImmutableMetadata (repo s) metaKeyGiteaId
     (strconv.Itoa (issue_AuthorID issue))
   = inl ErrMultipleMatch
   /\ e = ErrMultipleMatch)
  \/ (cache.ResolveIdentityImmutableMetadata (repo s) metaKeyGiteaId
        (strconv.Itoa (issue_AuthorID issue))
      = inl ErrIdentityNotExist
      /\ GetUser srv (gi_client gi) (issue_AuthorID issue) = inl e) ->
  ensurePerson srv gi (issue_AuthorID issue) s = (Fail e, s)
  /\ ensureIssue srv Cleanup gi issue s = (Fail e, s).
Proof.
  intros H.
  assert (ensurePerson srv gi (issue_AuthorID issue) s = (Fail e, s)) as HP.
  { rewrite ensurePerson_cases. destruct H as [[-> ->] | [-> Hu]]; cbn.
    - reflexivity.
    - now rewrite Hu. }
  split; [exact HP |]. now rewrite ensureIssue_cases, HP.
Qed.

Lemma X11_ensurePerson_failure_witness :
  ensurePerson Cases.usersUnreachable Scenario.gi (issue_AuthorID Scenario.issue1)
    (Scenario.importFrom (Scenario.emptyStore [Scenario.tokenOfAlice]))
  = (Fail (ErrRemote "timeout"),
     Scenario.importFrom (Scenario.emptyStore [Scenario.tokenOfAlice]))
  /\ ensureIssue Cases.usersUnreachable Scenario.cleanup Scenario.gi Scenario.issue1
       (Scenario.importFrom (Scenario.emptyStore [Scenario.tokenOfAlice]))
     = (Fail (ErrRemote "timeout"),
        Scenario.importFrom (Scenario.emptyStore [Scenario.tokenOfAlice])).
Proof.
  apply (X11_ensurePerson_failure Cases.usersUnreachable Scenario.cleanup Scenario.gi
           Scenario.issue1
           (Scenario.importFrom (Scenario.emptyStore [Scenario.tokenOfAlice]))
           (ErrRemote "timeout")).
  right. split; reflexivity.
Defined.

(** * Invariants of the import pass *)

Section Preservation.

Local Open Scope list_scope.

Context (R : ImportState -> ImportState -> Prop) `{!PreOrder R}.

Lemma preserves_bind {A B : Type} (m : M ImportState A) (k : A -> M ImportState B) :
  preserves R m -> (forall a : A, preserves R (k a)) -> preserves R (m ≫= k).
Proof.
  intros Hm Hk s. unfold mbind, M_bind. specialize (Hm s).
  destruct (m s) as [[a|e|msg|] s1]; cbn [snd] in *; try exact Hm.
  transitivity s1; [exact Hm | apply Hk].
Qed.

Lemma preserves_ret {A : Type} (a : A) : preserves R (mret a : M ImportState A).
Proof. intros s. reflexivity. Qed.

Lemma preserves_fail {A : Type} (e : error) : preserves R (fail e : M ImportState A).
Proof. intros s. reflexivity. Qed.

Lemma preserves_crash {A : Type} (msg : string) :
  preserves R (crash msg : M ImportState A).
Proof. intros s. reflexivity. Qed.

Lemma preserves_outOfFuel {A : Type} : preserves R (outOfFuel : M ImportState A).
Proof. intros s. reflexivity. Qed.

Lemma preserves_get : preserves R (get : M ImportState ImportState).
Proof. intros s. reflexivity. Qed.

Lemma preserves_try {A : Type} (m : M ImportState A) :
  preserves R m -> preserves R (try m).
Proof.
  intros Hm s. unfold try. specialize (Hm s).
  now destruct (m s) as [[a|e|msg|] s1].
Qed.

Lemma preserves_ofOutcome {A : Type} (o : outcome A) :
  preserves R (ofOutcome o : M ImportState A).
Proof. destruct o; intros s; reflexivity. Qed.

Lemma preserves_ofResult {A : Type} (r : error + A) : preserves R (ofResult r).
Proof. destruct r; intros s; reflexivity. Qed.

Lemma preserves_deref (b : Id) : preserves R (deref b).
Proof.
  intros s. unfold deref. destruct (cache.ResolveBug (repo s) b); reflexivity.
Qed.

End Preservation.

Section RepoPreservation.

Local Open Scope list_scope.

(** A relation on stores that the steps of the importer outside the
    store trivially keep. *)
Context (Rr : cache.RepoCache -> cache.RepoCache -> Prop) `{!PreOrder Rr}.

#[global] Instance onRepos_preorder : PreOrder (onRepos Rr).
Proof.
  split.
  - intros s. unfold onRepos. reflexivity.
  - intros s1 s2 s3 H1 H2. unfold onRepos in *. now transitivity (repo s2).
Qed.

Lemma preserves_send (r : ImportResult) : preserves (onRepos Rr) (send r).
Proof. intros s. unfold onRepos. cbn. reflexivity. Qed.

Lemma preserves_onRepo {A : Type} (f : cache.RepoCache -> A * cache.RepoCache) :
  (forall r : cache.RepoCache, Rr r (snd (f r))) -> preserves (onRepos Rr) (onRepo f).
Proof.
  intros Hf s. unfold onRepo, onRepos. specialize (Hf (repo s)).
  now destruct (f (repo s)).
Qed.

Lemma preserves_advance (srv : Server) (ctxErr : option error)
    (call : Server -> option error -> CompositeIterator.Iterator
            -> CompositeIterator.Call) :
  preserves (onRepos Rr) (advance srv ctxErr call).
Proof.
  intros s. unfold advance, onRepos.
  destruct (call srv ctxErr (iterator s)) as [[[more it]|msg] fs]; cbn; reflexivity.
Qed.

Lemma preserves_modify_iterator (f : ImportState -> CompositeIterator.Iterator) :
  preserves (onRepos Rr)
    (modify (fun s => {| repo := repo s; iterator := f s; out := out s;
                         fetches := fetches s |})).
Proof. intros s. unfold onRepos. cbn. reflexivity. Qed.

End RepoPreservation.

(** The structure of a step, down to its uses of the store. *)
Ltac preserve_step :=
  lazymatch goal with
  | |- preserves _ (_ ≫= _) => apply preserves_bind; [typeclasses eauto | | intros ?]
  | |- preserves _ (mret _) => apply preserves_ret; typeclasses eauto
  | |- preserves _ (fail _) => apply preserves_fail; typeclasses eauto
  | |- preserves _ (crash _) => apply preserves_crash; typeclasses eauto
  | |- preserves _ outOfFuel => apply preserves_outOfFuel; typeclasses eauto
  | |- preserves _ get => apply preserves_get; typeclasses eauto
  | |- preserves _ (try _) => apply preserves_try
  | |- preserves _ (ofOutcome _) => apply preserves_ofOutcome; typeclasses eauto
  | |- preserves _ (ofResult _) => apply preserves_ofResult; typeclasses eauto
  | |- preserves _ (deref _) => apply preserves_deref; typeclasses eauto
  | |- preserves (onRepos _) (send _) => apply preserves_send; typeclasses eauto
  | |- preserves (onRepos _) (advance _ _ _) => apply preserves_advance; typeclasses eauto
  | |- preserves (onRepos _) (onRepo _) => apply preserves_onRepo; intros ?
  | |- preserves _ (match ?x with _ => _ end) => destruct x
  end.

Section ImportInvariant.

Local Open Scope list_scope.

Context (Rr : cache.RepoCache -> cache.RepoCache -> Prop) `{!PreOrder Rr}.

(** What the relation must allow: the four ways the importer writes to
    the store. *)
Hypothesis allows_identity :
  forall (name email login avatarUrl : string) (metadata : gmap string string)
         (r : cache.RepoCache),
    Rr r (snd (cache.NewIdentityRaw name email login avatarUrl metadata r)).
Hypothesis allows_bug :
  forall (author : Id) (t : Z) (title message : string)
         (metadata : gmap string string) (r : cache.RepoCache),
    Rr r (snd (cache.NewBugRaw author t title message metadata r)).
Hypothesis allows_operation :
  forall (b author : Id) (t : Z) (kind : bug.OpKind) (metadata : gmap string string)
         (r : cache.RepoCache),
    Rr r (snd (cache.appendRaw b author t kind metadata r)).
Hypothesis allows_commit :
  forall (b : Id) (r : cache.RepoCache), Rr r (cache.Commit b r).

Variable srv : Server.
Variable Cleanup : string -> error + string.
Variable ctxErr : option error.



Ltac import_step :=
  first [ preserve_step
        | apply allows_identity | apply allows_bug
        | apply allows_operation | apply allows_commit ].

Lemma invariant_ensurePerson (gi : giteaImporter) (id : Z) :
  preserves (onRepos Rr) (ensurePerson srv gi id).
Proof. unfold ensurePerson. repeat import_step. Qed.

Lemma invariant_ensureIssue (gi : giteaImporter) (issue : Issue) :
  preserves (onRepos Rr) (ensureIssue srv Cleanup gi issue).
Proof.
  unfold ensureIssue. repeat first [apply invariant_ensurePerson | import_step].
Qed.

Lemma invariant_ensureNote (gi : giteaImporter) (b : Id) (note : Note) :
  preserves (onRepos Rr) (ensureNote srv Cleanup gi b note).
Proof.
  unfold ensureNote. repeat first [apply invariant_ensurePerson | import_step].
Qed.

Lemma invariant_ensureLabelEvent (gi : giteaImporter) (b : Id)
    (labelEvent : LabelEvent) :
  preserves (onRepos Rr) (ensureLabelEvent srv gi b labelEvent).
Proof.
  unfold ensureLabelEvent. repeat first [apply invariant_ensurePerson | import_step].
Qed.

Lemma invariant_importNotes (fuel : nat) (gi : giteaImporter) (b : Id) :
  preserves (onRepos Rr) (importNotes srv Cleanup ctxErr fuel gi b).
Proof.
  induction fuel as [|f IH]; cbn [importNotes]; [repeat import_step |].
  repeat first [apply invariant_ensureNote | exact IH | import_step].
Qed.

Lemma invariant_importLabelEvents (fuel : nat) (gi : giteaImporter) (b : Id) :
  preserves (onRepos Rr) (importLabelEvents srv ctxErr fuel gi b).
Proof.
  induction fuel as [|f IH]; cbn [importLabelEvents]; [repeat import_step |].
  repeat first [apply invariant_ensureLabelEvent | exact IH | import_step].
Qed.

Lemma invariant_importIssues (fuel : nat) (gi : giteaImporter) :
  preserves (onRepos Rr) (importIssues srv Cleanup ctxErr fuel gi).
Proof.
  induction fuel as [|f IH]; cbn [importIssues]; [repeat import_step |].
  repeat first [ apply invariant_importNotes | apply invariant_importLabelEvents
               | apply invariant_ensureIssue | exact IH | import_step ].
Qed.

Lemma invariant_ImportAll (fuel : nat) (gi : giteaImporter) :
  preserves (onRepos Rr) (ImportAll srv Cleanup ctxErr fuel gi).
Proof.
  unfold ImportAll. apply preserves_bind; [typeclasses eauto | |].
  - apply preserves_modify_iterator. typeclasses eauto.
  - intros _. repeat first [apply invariant_importIssues | import_step].
Qed.

End ImportInvariant.

(** * The import pass only appends *)

Section StoreExtends.

Local Open Scope list_scope.

Lemma bugExtends_refl (b : cache.BugCache) : bugExtends b b.
Proof. split; [reflexivity | exists []; now rewrite List.app_nil_r]. Qed.

Lemma bugExtends_trans (a b c : cache.BugCache) :
  bugExtends a b -> bugExtends b c -> bugExtends a c.
Proof.
  intros [Hid [l Hl]] [Hid' [l' Hl']]. split; [congruence |].
  exists (l ++ l'). now rewrite Hl', Hl, <- List.app_assoc.
Qed.

Lemma Forall2_bugExtends_refl (l : list cache.BugCache) : Forall2 bugExtends l l.
Proof. induction l; constructor; [apply bugExtends_refl | assumption]. Qed.

Lemma Forall2_bugExtends_trans (l k m : list cache.BugCache) :
  Forall2 bugExtends l k -> Forall2 bugExtends k m -> Forall2 bugExtends l m.
Proof.
  intros H. revert m. induction H as [|x y l k Hxy _ IH]; intros m Hm.
  - inversion Hm. constructor.
  - inversion Hm as [|? z ? m' Hyz Hrest]; subst. constructor.
    + exact (bugExtends_trans _ _ _ Hxy Hyz).
    + now apply IH.
Qed.

Lemma Forall2_bugExtends_split (l k m : list cache.BugCache) :
  Forall2 bugExtends (l ++ k) m ->
  exists m1 m2, m = m1 ++ m2 /\ Forall2 bugExtends l m1.
Proof.
  revert m. induction l as [|x l IH]; intros m H.
  - exists [], m. split; [reflexivity | constructor].
  - cbn in H. inversion H as [|? y ? m' Hxy Hrest]; subst.
    destruct (IH _ Hrest) as (m1 & m2 & -> & Hl).
    exists (y :: m1), m2. split; [reflexivity | now constructor].
Qed.

Lemma Forall2_bugExtends_update (id : Id) (f : cache.BugCache -> cache.BugCache)
    (l : list cache.BugCache) :
  (forall b, bugExtends b (f b)) ->
  Forall2 bugExtends l (map (fun b => if N.eqb (cache.bug_Id b) id then f b else b) l).
Proof.
  intros Hf. induction l as [|x l IH]; cbn [map]; constructor; [| exact IH].
  destruct (N.eqb (cache.bug_Id x) id); [apply Hf | apply bugExtends_refl].
Qed.

#[global] Instance storeExtends_preorder : PreOrder storeExtends.
Proof.
  split.
  - intros r. repeat split.
    + exists (cache.bugs r), []. split; [now rewrite List.app_nil_r |].
      apply Forall2_bugExtends_refl.
    + exists []. now rewrite List.app_nil_r.
    + lia.
  - intros r1 r2 r3 ((bs & news & Hb & Hbs) & (l & Hl) & Hc & Hu & Hn)
                    ((bs' & news' & Hb' & Hbs') & (l' & Hl') & Hc' & Hu' & Hn').
    repeat split.
    + rewrite Hb in Hbs'. destruct (Forall2_bugExtends_split _ _ _ Hbs') as (m1 & m2 & -> & Hm1).
      exists m1, (m2 ++ news'). split; [now rewrite Hb', <- List.app_assoc |].
      exact (Forall2_bugExtends_trans _ _ _ Hbs Hm1).
    + exists (l ++ l'). now rewrite Hl', Hl, <- List.app_assoc.
    + congruence.
    + congruence.
    + lia.
Qed.

Lemma storeExtends_update (id : Id) (f : cache.BugCache -> cache.BugCache)
    (r : cache.RepoCache) :
  (forall b, bugExtends b (f b)) -> storeExtends r (cache.updateBug id f r).
Proof.
  intros Hf. repeat split; cbn.
  - eexists _, []. split; [now rewrite List.app_nil_r |].
    now apply Forall2_bugExtends_update.
  - exists []. now rewrite List.app_nil_r.
  - lia.
Qed.

Lemma storeExtends_bump (r : cache.RepoCache) : storeExtends r (cache.bump r).
Proof.
  repeat split; cbn.
  - exists (cache.bugs r), []. split; [now rewrite List.app_nil_r |].
    apply Forall2_bugExtends_refl.
  - exists []. now rewrite List.app_nil_r.
  - lia.
Qed.

Lemma storeExtends_NewIdentityRaw (name email login avatarUrl : string)
    (metadata : gmap string string) (r : cache.RepoCache) :
  storeExtends r (snd (cache.NewIdentityRaw name email login avatarUrl metadata r)).
Proof.
  repeat split; cbn.
  - exists (cache.bugs r), []. split; [now rewrite List.app_nil_r |].
    apply Forall2_bugExtends_refl.
  - eexists. reflexivity.
  - lia.
Qed.

Lemma storeExtends_NewBugRaw (author : Id) (t : Z) (title message : string)
    (metadata : gmap string string) (r : cache.RepoCache) :
  storeExtends r (snd (cache.NewBugRaw author t title message metadata r)).
Proof.
  repeat split; cbn.
  - eexists (cache.bugs r), _. split; [reflexivity |].
    apply Forall2_bugExtends_refl.
  - exists []. now rewrite List.app_nil_r.
  - lia.
Qed.

Lemma storeExtends_appendRaw (b author : Id) (t : Z) (kind : bug.OpKind)
    (metadata : gmap string string) (r : cache.RepoCache) :
  storeExtends r (snd (cache.appendRaw b author t kind metadata r)).
Proof.
  cbn [cache.appendRaw snd]. etransitivity; [| apply storeExtends_bump].
  apply storeExtends_update. intros bc. split; [reflexivity |]. cbn. eexists. reflexivity.
Qed.

Lemma storeExtends_Commit (b : Id) (r : cache.RepoCache) :
  storeExtends r (cache.Commit b r).
Proof.
  apply storeExtends_update. intros bc. split; [reflexivity |]. cbn.
  exists []. now rewrite List.app_nil_r.
Qed.

End StoreExtends.

(** X12 (gitea.go, ImportAll and everything it calls): an import pass only
    appends to the store. Whatever the remote instance answers, however the
    pass ends (done, failed, crashed) and whatever the store held, every
    bug of the store is still there, in place, with its id and with its
    operations as a prefix of what it now has; the identities are a prefix
    of the identities; the credentials and the user are untouched; the
    counter of ids has not gone back. *)
Theorem X12_import_only_appends (srv : Server) (Cleanup : string -> error + string)
    (ctxErr : option error) (fuel : nat) (gi : giteaImporter) (s : ImportState) :
  storeExtends (repo s) (repo (snd (ImportAll srv Cleanup ctxErr fuel gi s))).
Proof.
  apply (invariant_ImportAll storeExtends (PreOrder0 := storeExtends_preorder)
           storeExtends_NewIdentityRaw storeExtends_NewBugRaw
           storeExtends_appendRaw storeExtends_Commit srv Cleanup ctxErr fuel gi s).
Qed.

(** * What one event may write *)

Section Frames.

Local Open Scope list_scope.

#[global] Instance sameBugs_preorder : PreOrder sameBugs.
Proof.
  split.
  - intros r. reflexivity.
  - intros r1 r2 r3 H1 H2. unfold sameBugs in *. congruence.
Qed.



Lemma sameBugs_NewIdentityRaw (name email login avatarUrl : string)
    (metadata : gmap string string) (r : cache.RepoCache) :
  sameBugs r (snd (cache.NewIdentityRaw name email login avatarUrl metadata r)).
Proof. reflexivity. Qed.

Lemma sameBugs_ensurePerson (srv : Server) (gi : giteaImporter) (id : Z) :
  preserves (onRepos sameBugs) (ensurePerson srv gi id).
Proof. apply invariant_ensurePerson; [typeclasses eauto | apply sameBugs_NewIdentityRaw]. Qed.

Variable P : bug.Operation -> Prop.
Variable b : Id.

Lemma appendsAtMostOne_of_same {A : Type} (m : M ImportState A) :
  preserves (onRepos sameBugs) m -> appendsAtMostOne P b m.
Proof. intros H s. left. apply H. Qed.

Lemma appendsAtMostOne_bind_same {A B : Type} (m : M ImportState A)
    (k : A -> M ImportState B) :
  preserves (onRepos sameBugs) m -> (forall a, appendsAtMostOne P b (k a)) ->
  appendsAtMostOne P b (m ≫= k).
Proof.
  intros Hm Hk s. unfold mbind, M_bind. specialize (Hm s). unfold onRepos, sameBugs in Hm.
  destruct (m s) as [[a|e|msg|] s1]; cbn [snd] in *; try (left; exact Hm).
  specialize (Hk a s1). unfold oneMore in *. now rewrite Hm in Hk.
Qed.

Lemma appendsAtMostOne_append_then {B : Type} (author : Id) (t : Z) (kind : bug.OpKind)
    (metadata : gmap string string) (k : bug.Operation -> M ImportState B) :
  (forall r, P (fst (cache.appendRaw b author t kind metadata r))) ->
  (forall op, preserves (onRepos sameBugs) (k op)) ->
  appendsAtMostOne P b (onRepo (cache.appendRaw b author t kind metadata) ≫= k).
Proof.
  intros HP Hk s. unfold mbind, M_bind, onRepo. cbn [cache.appendRaw].
  match goal with |- context [k ?o ?st] => specialize (Hk o st); set (op := o) in * end.
  unfold onRepos, sameBugs in Hk.
  right. exists op. split; [exact (HP (repo s)) |].
  destruct (k op _) as [[x|e|msg|] s1]; cbn [snd] in *; rewrite Hk; reflexivity.
Qed.

End Frames.

Ltac same_step :=
  first [ apply sameBugs_ensurePerson
        | apply sameBugs_NewIdentityRaw
        | preserve_step ].

Ltac one_step :=
  lazymatch goal with
  | |- appendsAtMostOne _ _ (onRepo (cache.appendRaw _ _ _ _ _) ≫= _) =>
      apply appendsAtMostOne_append_then; [intros ? | intros ?; repeat same_step]
  | |- appendsAtMostOne _ _ (_ ≫= _) =>
      apply appendsAtMostOne_bind_same; [repeat same_step | intros ?]
  | |- appendsAtMostOne _ _ (match ?x with _ => _ end) => destruct x
  | |- appendsAtMostOne _ _ _ => apply appendsAtMostOne_of_same; repeat same_step
  end.

(** X13 (gitea.go, ensureNote): whatever the note, the store and the remote
    instance, [ensureNote] leaves the bugs as they are or appends exactly
    one operation, to the bug it was given and to no other; the operation
    is tagged with the id of the note and nothing else, or it is the
    edition of a comment and carries no metadata at all. *)
Theorem X13_ensureNote_appends_at_most_one (srv : Server)
    (Cleanup : string -> error + string) (gi : giteaImporter) (b : Id) (note : Note)
    (s : ImportState) :
  oneMore
    (fun op =>
       bug.op_Metadata op = {[ metaKeyGiteaId := parseID (note_ID note) ]}
       \/ (bug.op_Metadata op = ∅
           /\ exists target message,
                bug.op_Kind op = bug.EditCommentOperation target message))
    b (repo s) (repo (snd (ensureNote srv Cleanup gi b note s))).
Proof.
  revert s. change (appendsAtMostOne
    (fun op =>
       bug.op_Metadata op = {[ metaKeyGiteaId := parseID (note_ID note) ]}
       \/ (bug.op_Metadata op = ∅
           /\ exists target message,
                bug.op_Kind op = bug.EditCommentOperation target message))
    b (ensureNote srv Cleanup gi b note)).
  unfold ensureNote.
  repeat one_step; cbn; try (left; reflexivity); try (right; split; [reflexivity | eauto]).
Qed.

(** X14 (gitea.go, ensureLabelEvent): whatever the event, the store and the
    remote instance, [ensureLabelEvent] leaves the bugs as they are or
    appends exactly one operation, to the bug it was given and to no
    other: a change of labels that adds or removes the one label of the
    event, tagged with the id of the event. *)
Theorem X14_ensureLabelEvent_appends_at_most_one (srv : Server) (gi : giteaImporter)
    (b : Id) (labelEvent : LabelEvent) (s : ImportState) :
  oneMore
    (fun op =>
       bug.op_Metadata op = {[ metaKeyGiteaId := parseID (le_ID labelEvent) ]}
       /\ (bug.op_Kind op = bug.LabelChangeOperation [le_LabelName labelEvent] []
           \/ bug.op_Kind op = bug.LabelChangeOperation [] [le_LabelName labelEvent]))
    b (repo s) (repo (snd (ensureLabelEvent srv gi b labelEvent s))).
Proof.
  revert s. change (appendsAtMostOne
    (fun op =>
       bug.op_Metadata op = {[ metaKeyGiteaId := parseID (le_ID labelEvent) ]}
       /\ (bug.op_Kind op = bug.LabelChangeOperation [le_LabelName labelEvent] []
           \/ bug.op_Kind op = bug.LabelChangeOperation [] [le_LabelName labelEvent]))
    b (ensureLabelEvent srv gi b labelEvent)).
  unfold ensureLabelEvent.
  repeat one_step; cbn; (split; [reflexivity | auto]).
Qed.

(** * The import of one issue *)

Section EnsureIssueFacts.

Local Open Scope list_scope.

Variable srv : Server.
Variable Cleanup : string -> error + string.

(** With the same string configured as project and as base URL, the
    matcher of [ensureIssue] accepts the creation metadata that
    [ensureIssue] itself writes. *)
Lemma issueMatcher_hits_created_bug (gi : giteaImporter) (issue : Issue) :
  mapGet (gi_conf gi) confKeyProjectID = mapGet (gi_conf gi) confKeyGiteaBaseUrl ->
  issueMatcher gi issue
    {| cache.CreateMetadata :=
         {[ MetaKeyOrigin := target;
            metaKeyGiteaId := parseID (issue_IID issue);
            metaKeyGiteaUrl := issue_WebURL issue;
            metaKeyGiteaProject := mapGet (gi_conf gi) confKeyProjectID;
            metaKeyGiteaBaseUrl := mapGet (gi_conf gi) confKeyGiteaBaseUrl ]} |}
  = true.
Proof.
  intros Heq. unfold issueMatcher. cbn [cache.CreateMetadata].
  set (m := ({[ MetaKeyOrigin := target;
                metaKeyGiteaId := parseID (issue_IID issue);
                metaKeyGiteaUrl := issue_WebURL issue;
                metaKeyGiteaProject := mapGet (gi_conf gi) confKeyProjectID;
                metaKeyGiteaBaseUrl := mapGet (gi_conf gi) confKeyGiteaBaseUrl ]}
              : gmap string string)).
  assert (mapGet m MetaKeyOrigin = target) as ->.
  { unfold mapGet, m. now rewrite lookup_insert_eq. }
  assert (mapGet m metaKeyGiteaId = parseID (issue_IID issue)) as ->.
  { unfold mapGet, m. rewrite lookup_insert_ne by discriminate.
    now rewrite lookup_insert_eq. }
  assert (mapGet m metaKeyGiteaBaseUrl = mapGet (gi_conf gi) confKeyGiteaBaseUrl) as ->.
  { unfold mapGet at 1. unfold m. rewrite !lookup_insert_ne by discriminate.
    now rewrite lookup_singleton_eq. }
  assert (mapGet m metaKeyGiteaProject = mapGet (gi_conf gi) confKeyProjectID) as ->.
  { unfold mapGet at 1. unfold m. rewrite !lookup_insert_ne by discriminate.
    now rewrite lookup_insert_eq. }
  rewrite Heq, !String.eqb_refl. reflexivity.
Qed.

(** A call of [ensureIssue] that returns a bug either found it, and
    changed nothing but the identities, or created it, no bug of the
    store matching. *)
Lemma ensureIssue_returns (gi : giteaImporter) (issue : Issue) (s s1 : ImportState)
    (b : Id) :
  ensureIssue srv Cleanup gi issue s = (Ok b, s1) ->
  exists (author : Id) (sP : ImportState),
    ensurePerson srv gi (issue_AuthorID issue) s = (Ok author, sP)
    /\ ((cache.ResolveBugMatcher (repo sP) (issueMatcher gi issue) = inr b /\ s1 = sP)
        \/ (cache.ResolveBugMatcher (repo sP) (issueMatcher gi issue) = inl ErrBugNotExist
            /\ exists (cleanText : string) (bc : cache.BugCache),
                 Cleanup (issue_Description issue) = inr cleanText
                 /\ b = cache.nextId (repo sP)
                 /\ cache.bug_Id bc = b
                 /\ cache.excerpt bc
                    = {| cache.CreateMetadata :=
                           {[ MetaKeyOrigin := target;
                              metaKeyGiteaId := parseID (issue_IID issue);
                              metaKeyGiteaUrl := issue_WebURL issue;
                              metaKeyGiteaProject :=
                                mapGet (gi_conf gi) confKeyProjectID;
                              metaKeyGiteaBaseUrl :=
                                mapGet (gi_conf gi) confKeyGiteaBaseUrl ]} |}
                 /\ cache.bugs (repo s1) = cache.bugs (repo sP) ++ [bc]
                 /\ cache.identities (repo s1) = cache.identities (repo sP)
                 /\ cache.nextId (repo s1) = N.succ (N.succ (cache.nextId (repo sP))))).
Proof.
  rewrite ensureIssue_cases.
  destruct (ensurePerson srv gi (issue_AuthorID issue) s) as [[author|e|msg|] sP];
    try discriminate.
  intros H. exists author, sP. split; [reflexivity |].
  destruct (cache.ResolveBugMatcher (repo sP) (issueMatcher gi issue)) as [err|b'].
  - destruct err; cbn in H; try discriminate.
    destruct (Cleanup (issue_Description issue)) as [e|cleanText]; [discriminate |].
    cbv zeta in H. injection H as <- <-. right. split; [reflexivity |].
    exists cleanText. eexists. split; [reflexivity |]. split; [reflexivity |].
    cbn [repo cache.NewBugRaw snd cache.bump cache.setBugs cache.bugs cache.identities
           cache.nextId].
    split; [| split; [| split; [reflexivity | split; reflexivity]]]; reflexivity.
  - injection H as <- <-. left. split; reflexivity.
Qed.

Lemma resolve_bug_matcher_snoc (r r' : cache.RepoCache) (f : cache.BugExcerpt -> bool)
    (bc : cache.BugCache) :
  cache.bugs r' = cache.bugs r ++ [bc] ->
  cache.ResolveBugMatcher r f = inl ErrBugNotExist ->
  cache.ResolveBugMatcher r' f
  = if f (cache.excerpt bc) then inr (cache.bug_Id bc) else inl ErrBugNotExist.
Proof.
  intros Hb Hnone. unfold cache.ResolveBugMatcher.
  rewrite Hb, List.filter_app, (resolve_bug_matcher_none _ _ Hnone).
  cbn [List.filter app]. now destruct (f (cache.excerpt bc)).
Qed.

End EnsureIssueFacts.

(** X15 (gitea.go, ensureIssue): whatever the issue, the store and the
    remote instance, [ensureIssue] leaves the bugs as they are or appends
    exactly one bug after them; the new bug has one operation, the
    creation under the title of the issue, and its metadata are the
    origin, the id and the URL of the issue, the configured project under
    the project key and the configured base URL under the base URL key. *)
Theorem X15_ensureIssue_creates_at_most_one (srv : Server)
    (Cleanup : string -> error + string) (gi : giteaImporter) (issue : Issue)
    (s : ImportState) :
  oneMoreBug
    (fun bc =>
       exists op : bug.Operation,
         cache.bug_ops bc = [op]
         /\ bug.op_Metadata op
            = {[ MetaKeyOrigin := target;
                 metaKeyGiteaId := parseID (issue_IID issue);
                 metaKeyGiteaUrl := issue_WebURL issue;
                 metaKeyGiteaProject := mapGet (gi_conf gi) confKeyProjectID;
                 metaKeyGiteaBaseUrl := mapGet (gi_conf gi) confKeyGiteaBaseUrl ]}
         /\ exists message : string,
              bug.op_Kind op = bug.CreateOperation (issue_Title issue) message)
    (repo s) (repo (snd (ensureIssue srv Cleanup gi issue s))).
Proof.
  rewrite ensureIssue_cases.
  pose proof (ensurePerson_bugs srv gi (issue_AuthorID issue) s) as Hb.
  destruct (ensurePerson srv gi (issue_AuthorID issue) s) as [[author|e|msg|] sP];
    cbn [snd] in Hb; try (left; exact Hb).
  destruct (cache.ResolveBugMatcher (repo sP) (issueMatcher gi issue)) as [err|b];
    [| left; exact Hb].
  destruct (negb (error_eqb err ErrBugNotExist)); [left; exact Hb |].
  destruct (Cleanup (issue_Description issue)) as [e|cleanText]; [left; exact Hb |].
  right. cbn. rewrite Hb. eexists. split; [| reflexivity].
  eexists. split; [reflexivity |]. split; [reflexivity |]. eexists. reflexivity.
Qed.

(** X16 (gitea.go, ensureIssue): with different strings configured as
    project and as base URL, [ensureIssue] does not recognise the bug it
    created. If no bug of the store matches the issue and a first call
    returns the bug [b], a second call for the same issue returns another
    bug: the store then ends with two bugs created for the one issue,
    with the same creation metadata. *)
Theorem X16_ensureIssue_creates_again (srv : Server)
    (Cleanup : string -> error + string) (gi : giteaImporter) (issue : Issue)
    (s s1 : ImportState) (b : Id) :
  mapGet (gi_conf gi) confKeyProjectID <> mapGet (gi_conf gi) confKeyGiteaBaseUrl ->
  cache.ResolveBugMatcher (repo s) (issueMatcher gi issue) = inl ErrBugNotExist ->
  ensureIssue srv Cleanup gi issue s = (Ok b, s1) ->
  exists (b2 : Id) (s2 : ImportState) (bc bc2 : cache.BugCache),
    ensureIssue srv Cleanup gi issue s1 = (Ok b2, s2)
    /\ b2 <> b
    /\ cache.bugs (repo s2) = (cache.bugs (repo s) ++ [bc; bc2])%list
    /\ cache.bug_Id bc = b
    /\ cache.bug_Id bc2 = b2
    /\ cache.excerpt bc2 = cache.excerpt bc.
Proof.
  intros Hne Hnone H.
  destruct (ensureIssue_returns _ _ _ _ _ _ _ H) as (author & sP & HP & Hcase).
  pose proof (ensurePerson_bugs srv gi (issue_AuthorID issue) s) as Hb.
  rewrite HP in Hb. cbn [snd] in Hb.
  rewrite (resolve_bug_matcher_same _ _ _ Hb) in Hcase.
  destruct Hcase as [[Hfound _] | [_ (cleanText & bc & Hc & -> & Hid & Hex & Hbugs & Hids & Hn)]];
    [congruence |].
  rewrite Hb in Hbugs.
  assert (cache.ResolveBugMatcher (repo s1) (issueMatcher gi issue) = inl ErrBugNotExist)
    as Hres.
  { rewrite (resolve_bug_matcher_snoc (repo s) (repo s1) _ bc Hbugs Hnone), Hex.
    now rewrite (issueMatcher_misses_created_bug gi issue Hne). }
  rewrite ensureIssue_cases.
  rewrite (ensurePerson_again srv gi _ s sP s1 author HP Hids).
  rewrite Hres. cbn [negb error_eqb]. rewrite Hc. cbv zeta.
  eexists _, _, bc, _. split; [reflexivity |].
  cbn [cache.NewBugRaw fst snd repo cache.bump cache.setBugs cache.bugs cache.bug_Id].
  rewrite Hbugs, <- List.app_assoc, Hn. cbn [app].
  split; [lia |]. split; [reflexivity |]. split; [exact Hid |]. split; [reflexivity |].
  rewrite Hex. reflexivity.
Qed.

Lemma X16_ensureIssue_creates_again_witness :
  exists (b2 : Id) (s2 : ImportState) (bc bc2 : cache.BugCache),
    ensureIssue (Scenario.remote [] []) Scenario.cleanup Scenario.gi
      Scenario.issue1
      (snd (ensureIssue (Scenario.remote [] []) Scenario.cleanup Scenario.gi
              Scenario.issue1
              (Scenario.importFrom (Scenario.emptyStore [Scenario.tokenOfAlice]))))
    = (Ok b2, s2)
    /\ b2 <> 11%N
    /\ cache.bugs (repo s2) = ([] ++ [bc; bc2])%list
    /\ cache.bug_Id bc = 11%N
    /\ cache.bug_Id bc2 = b2
    /\ cache.excerpt bc2 = cache.excerpt bc.
Proof.
  apply (X16_ensureIssue_creates_again (Scenario.remote [] [])
           Scenario.cleanup Scenario.gi Scenario.issue1
           (Scenario.importFrom (Scenario.emptyStore [Scenario.tokenOfAlice]))).
  - discriminate.
  - reflexivity.
  - reflexivity.
Defined.

(** X17 (gitea.go, ensureIssue): with the same string configured as
    project and as base URL, [ensureIssue] is idempotent: once it has
    returned a bug for an issue, found or created, a second call for the
    same issue returns the same bug and changes nothing. *)
Theorem X17_ensureIssue_idempotent (srv : Server)
    (Cleanup : string -> error + string) (gi : giteaImporter) (issue : Issue)
    (s s1 : ImportState) (b : Id) :
  mapGet (gi_conf gi) confKeyProjectID = mapGet (gi_conf gi) confKeyGiteaBaseUrl ->
  ensureIssue srv Cleanup gi issue s = (Ok b, s1) ->
  ensureIssue srv Cleanup gi issue s1 = (Ok b, s1).
Proof.
  intros Heq H.
  destruct (ensureIssue_returns _ _ _ _ _ _ _ H) as (author & sP & HP & Hcase).
  rewrite ensureIssue_cases.
  destruct Hcase as [[Hfound ->] | [Hnone (cleanText & bc & Hc & -> & Hid & Hex & Hbugs & Hids & Hn)]].
  - rewrite (ensurePerson_again srv gi _ s sP sP author HP eq_refl).
    now rewrite Hfound.
  - rewrite (ensurePerson_again srv gi _ s sP s1 author HP Hids).
    rewrite (resolve_bug_matcher_snoc (repo sP) (repo s1) _ bc Hbugs Hnone), Hex.
    now rewrite (issueMatcher_hits_created_bug gi issue Heq), Hid.
Qed.

Lemma X17_ensureIssue_idempotent_witness :
  ensureIssue (Scenario.remote [] []) Scenario.cleanup Cases.oneString Scenario.issue1
    (snd (ensureIssue (Scenario.remote [] []) Scenario.cleanup Cases.oneString
            Scenario.issue1
            (Scenario.importFrom (Scenario.emptyStore [Scenario.tokenOfAlice]))))
  = (Ok 11%N,
     snd (ensureIssue (Scenario.remote [] []) Scenario.cleanup Cases.oneString
            Scenario.issue1
            (Scenario.importFrom (Scenario.emptyStore [Scenario.tokenOfAlice])))).
Proof.
  apply (X17_ensureIssue_idempotent (Scenario.remote [] []) Scenario.cleanup
           Cases.oneString Scenario.issue1
           (Scenario.importFrom (Scenario.emptyStore [Scenario.tokenOfAlice]))).
  - reflexivity.
  - reflexivity.
Defined.

(** * The import of one note *)

Section EnsureNoteFacts.

Local Open Scope list_scope.

Variable srv : Server.
Variable Cleanup : string -> error + string.

Lemma GetNoteType_comment (note : Note) :
  note_System note = false -> GetNoteType note = Return (NOTE_COMMENT, note_Body note).
Proof. intros H. unfold GetNoteType. now rewrite H. Qed.

(** [ensureNote] on a note that is a comment, case by case. *)
Lemma ensureNote_comment (gi : giteaImporter) (b : Id) (note : Note) (s : ImportState)
    (bc : cache.BugCache) :
  note_System note = false ->
  cache.ResolveBug (repo s) b = Some bc ->
  ensureNote srv Cleanup gi b note s
  = let resolved :=
      cache.ResolveOperationWithMetadata bc metaKeyGiteaId (parseID (note_ID note)) in
    match (match resolved with
           | inl e => if negb (error_eqb e ErrNoMatchingOp) then Some e else None
           | inr _ => None
           end) with
    | Some e => (Fail e, s)
    | None =>
        match ensurePerson srv gi (note_AuthorID note) s with
        | (Ok author, sP) =>
            match Cleanup (note_Body note) with
            | inl e => (Fail e, sP)
            | inr cleanText =>
                match resolved with
                | inl _ =>
                    (Ok tt,
                     {| repo :=
                          snd (cache.appendRaw b author (note_CreatedAt note)
                                 (bug.AddCommentOperation cleanText)
                                 {[ metaKeyGiteaId := parseID (note_ID note) ]} (repo sP));
                        iterator := iterator sP;
                        out := out sP ++ [ImportComment (cache.nextId (repo sP))];
                        fetches := fetches sP |})
                | inr id =>
                    match cache.ResolveBug (repo sP) b with
                    | None => (Crash "nil pointer dereference", sP)
                    | Some bc' =>
                        match bug.SearchComment (cache.Snapshot bc') id with
                        | inl e => (Fail e, sP)
                        | inr comment =>
                            if negb (String.eqb (bug.comment_Message comment) cleanText)
                            then
                              (Ok tt,
                               {| repo :=
                                    snd (cache.appendRaw b author (note_UpdatedAt note)
                                           (bug.EditCommentOperation
                                              (bug.comment_Id comment) cleanText)
                                           ∅ (repo sP));
                                  iterator := iterator sP;
                                  out := out sP
                                         ++ [ImportCommentEdition (cache.nextId (repo sP))];
                                  fetches := fetches sP |})
                            else (Ok tt, sP)
                        end
                    end
                end
            end
        | (Fail e, sP) => (Fail e, sP)
        | (Crash msg, sP) => (Crash msg, sP)
        | (OutOfFuel, sP) => (OutOfFuel, sP)
        end
    end.
Proof.
  intros Hsys Hb. unfold ensureNote. rewrite (GetNoteType_comment _ Hsys).
  unfold mbind, M_bind, deref. rewrite Hb. cbv zeta.
  destruct (cache.ResolveOperationWithMetadata bc metaKeyGiteaId (parseID (note_ID note)))
    as [e|id].
  - destruct (negb (error_eqb e ErrNoMatchingOp)); [reflexivity |]. cbn.
    destruct (ensurePerson srv gi (note_AuthorID note) s) as [[author|e'|msg|] sP];
      try reflexivity.
    cbn. destruct (Cleanup (note_Body note)) as [e'|cleanText]; reflexivity.
  - cbn.
    destruct (ensurePerson srv gi (note_AuthorID note) s) as [[author|e'|msg|] sP];
      try reflexivity.
    cbn. destruct (Cleanup (note_Body note)) as [e'|cleanText]; [reflexivity |]. cbn.
    destruct (cache.ResolveBug (repo sP) b) as [bc'|]; [| reflexivity].
    destruct (bug.SearchComment (cache.Snapshot bc') id) as [e'|comment]; [reflexivity |].
    cbn. destruct (negb (String.eqb (bug.comment_Message comment) cleanText)); reflexivity.
Qed.

(** *** The store, after an operation was appended *)

Lemma ResolveBug_same (r r' : cache.RepoCache) (b : Id) :
  cache.bugs r' = cache.bugs r -> cache.ResolveBug r' b = cache.ResolveBug r b.
Proof. intros H. unfold cache.ResolveBug. now rewrite H. Qed.

Lemma ResolveBug_updateBug (r : cache.RepoCache) (b : Id)
    (f : cache.BugCache -> cache.BugCache) (bc : cache.BugCache) :
  (forall x, cache.bug_Id (f x) = cache.bug_Id x) ->
  cache.ResolveBug r b = Some bc ->
  cache.ResolveBug (cache.updateBug b f r) b = Some (f bc).
Proof.
  intros Hf. unfold cache.ResolveBug, cache.updateBug, cache.setBugs. cbn [cache.bugs].
  induction (cache.bugs r) as [|x l IH]; [discriminate |].
  cbn [map List.find]. destruct (N.eqb (cache.bug_Id x) b) eqn:E.
  - intros H. injection H as <-. now rewrite Hf, E.
  - rewrite E. exact IH.
Qed.

Lemma ResolveBug_appendRaw (r : cache.RepoCache) (b author : Id) (t : Z)
    (kind : bug.OpKind) (metadata : gmap string string) (bc : cache.BugCache) :
  cache.ResolveBug r b = Some bc ->
  cache.ResolveBug (snd (cache.appendRaw b author t kind metadata r)) b
  = Some {| cache.bug_Id := cache.bug_Id bc;
            cache.bug_ops :=
              cache.bug_ops bc ++ [fst (cache.appendRaw b author t kind metadata r)];
            cache.bug_staged := S (cache.bug_staged bc) |}.
Proof.
  intros H. cbn [cache.appendRaw snd fst].
  match goal with
  | |- cache.ResolveBug (cache.bump ?r') b = _ =>
      change (cache.ResolveBug (cache.bump r') b) with (cache.ResolveBug r' b)
  end.
  erewrite ResolveBug_updateBug; [reflexivity | intros x; reflexivity | exact H].
Qed.

Lemma resolve_operation_none (bc : cache.BugCache) (key value : string) :
  cache.ResolveOperationWithMetadata bc key value = inl ErrNoMatchingOp ->
  List.filter
    (fun op => match bug.GetMetadata op key with
               | Some v => String.eqb value v
               | None => false
               end) (cache.bug_ops bc) = [].
Proof.
  unfold cache.ResolveOperationWithMetadata.
  destruct (List.filter _ (cache.bug_ops bc)) as [|x [|y l]]; intros H;
    try reflexivity; discriminate.
Qed.

(** The operation tagged [key = value], appended to a bug that had none,
    is the one that the bug resolves for the tag. *)
Lemma resolve_operation_snoc (bc bc' : cache.BugCache) (op : bug.Operation)
    (key value : string) :
  cache.ResolveOperationWithMetadata bc key value = inl ErrNoMatchingOp ->
  cache.bug_ops bc' = cache.bug_ops bc ++ [op] ->
  bug.GetMetadata op key = Some value ->
  cache.ResolveOperationWithMetadata bc' key value = inr (bug.op_Id op).
Proof.
  intros Hnone Hops Hop. unfold cache.ResolveOperationWithMetadata.
  rewrite Hops, List.filter_app, (resolve_operation_none _ _ _ Hnone).
  cbn [List.filter app]. now rewrite Hop, String.eqb_refl.
Qed.

(** *** The comments of a bug *)

Lemma apply_ids (P : Id -> Prop) (cs : list bug.Comment) (op : bug.Operation) :
  List.Forall (fun c => P (bug.comment_Id c)) cs -> P (bug.op_Id op) ->
  List.Forall (fun c => P (bug.comment_Id c)) (bug.apply cs op).
Proof.
  intros Hcs Hop. unfold bug.apply.
  destruct (bug.op_Kind op); try exact Hcs.
  - apply List.Forall_app. split; [exact Hcs |]. now constructor.
  - apply List.Forall_app. split; [exact Hcs |]. now constructor.
  - induction Hcs as [|c l Hc _ IH]; cbn [map]; constructor; [| exact IH].
    unfold bug.editComment. now destruct (N.eqb (bug.comment_Id c) Target).
Qed.

(** Every comment of a bug has the id of one of its operations. *)
Lemma comments_ids (P : Id -> Prop) (ops : list bug.Operation) :
  forall cs : list bug.Comment,
    List.Forall (fun c => P (bug.comment_Id c)) cs ->
    List.Forall (fun op => P (bug.op_Id op)) ops ->
    List.Forall (fun c => P (bug.comment_Id c)) (fold_left bug.apply ops cs).
Proof.
  induction ops as [|op ops IH]; intros cs Hcs Hops; cbn [fold_left]; [exact Hcs |].
  inversion Hops as [|? ? Hop Hrest]; subst.
  apply IH; [| exact Hrest]. now apply apply_ids.
Qed.

Lemma find_snoc_fresh {A : Type} (f : A -> bool) (l : list A) (x : A) :
  List.Forall (fun y => f y = false) l -> f x = true ->
  List.find f (l ++ [x]) = Some x.
Proof.
  intros Hl Hx. induction Hl as [|y l Hy _ IH]; cbn [app List.find].
  - now rewrite Hx.
  - now rewrite Hy.
Qed.

(** The comment added by an [AddComment] operation whose id is fresh is
    the one that the snapshot finds under the id of the operation. *)
Lemma SearchComment_added (bc bc' : cache.BugCache) (op : bug.Operation)
    (message : string) (bound : Id) :
  cache.bug_ops bc' = cache.bug_ops bc ++ [op] ->
  bug.op_Kind op = bug.AddCommentOperation message ->
  List.Forall (fun o => (bug.op_Id o < bound)%N) (cache.bug_ops bc) ->
  (bound <= bug.op_Id op)%N ->
  bug.SearchComment (cache.Snapshot bc') (bug.op_Id op)
  = inr {| bug.comment_Id := bug.op_Id op; bug.comment_Message := message |}.
Proof.
  intros Hops Hkind Hfresh Hbound.
  unfold bug.SearchComment, cache.Snapshot, bug.Compile. cbn [bug.Comments].
  rewrite Hops, fold_left_app. cbn [fold_left]. unfold bug.apply at 1. rewrite Hkind.
  rewrite find_snoc_fresh; [reflexivity | | cbn; apply N.eqb_refl].
  pose proof (comments_ids (fun i => (i < bound)%N) (cache.bug_ops bc) []
                (List.Forall_nil _) Hfresh) as Hc.
  eapply List.Forall_impl; [| exact Hc].
  intros c Hlt. cbn beta in Hlt. apply N.eqb_neq. lia.
Qed.

(** [ensurePerson] hands out ids from the counter of the store. *)
Lemma ensurePerson_nextId (gi : giteaImporter) (id : Z) (s : ImportState) :
  (cache.nextId (repo s) <= cache.nextId (repo (snd (ensurePerson srv gi id s))))%N.
Proof.
  rewrite ensurePerson_cases.
  destruct (cache.ResolveIdentityImmutableMetadata (repo s) metaKeyGiteaId
              (strconv.Itoa id)) as [err|ident]; [| cbn; lia].
  destruct (cache.IsErrMultipleMatch err); [cbn; lia |].
  destruct (GetUser srv (gi_client gi) id) as [e|user]; cbn; lia.
Qed.

(** The first import of a comment. *)
Lemma ensureNote_first_comment (gi : giteaImporter) (b : Id) (note : Note)
    (s s1 : ImportState) (bc : cache.BugCache) :
  note_System note = false ->
  cache.ResolveBug (repo s) b = Some bc ->
  cache.ResolveOperationWithMetadata bc metaKeyGiteaId (parseID (note_ID note))
  = inl ErrNoMatchingOp ->
  ensureNote srv Cleanup gi b note s = (Ok tt, s1) ->
  exists (author : Id) (sP : ImportState) (cleanText : string),
    ensurePerson srv gi (note_AuthorID note) s = (Ok author, sP)
    /\ Cleanup (note_Body note) = inr cleanText
    /\ s1 = {| repo :=
                 snd (cache.appendRaw b author (note_CreatedAt note)
                        (bug.AddCommentOperation cleanText)
                        {[ metaKeyGiteaId := parseID (note_ID note) ]} (repo sP));
               iterator := iterator sP;
               out := out sP ++ [ImportComment (cache.nextId (repo sP))];
               fetches := fetches sP |}.
Proof.
  intros Hsys Hb Hnone. rewrite (ensureNote_comment gi b note s bc Hsys Hb).
  cbv zeta. rewrite Hnone. cbn [negb error_eqb].
  destruct (ensurePerson srv gi (note_AuthorID note) s) as [[author|e|msg|] sP];
    try discriminate.
  destruct (Cleanup (note_Body note)) as [e|cleanText]; [discriminate |].
  intros H. injection H as <-. now exists author, sP, cleanText.
Qed.

End EnsureNoteFacts.

(** X18 (gitea.go, ensureNote): a comment is imported once, and followed
    afterwards. In a store whose operation ids are below its counter, let
    [ensureNote] import a comment that the bug did not have. Called again
    with a note of the same id and author, it finds the comment it added:
    if the cleaned body is the one it imported, nothing changes and
    nothing is sent; if not, exactly one operation is appended, the
    edition of that comment to the new cleaned body at the time of the
    update, without any metadata, and the edition is sent. *)
Theorem X18_comment_reimport (srv : Server) (Cleanup : string -> error + string)
    (gi : giteaImporter) (b : Id) (note note' : Note) (s s1 : ImportState)
    (bc : cache.BugCache) (cleanText cleanText' : string) :
  note_System note = false ->
  cache.ResolveBug (repo s) b = Some bc ->
  cache.ResolveOperationWithMetadata bc metaKeyGiteaId (parseID (note_ID note))
  = inl ErrNoMatchingOp ->
  List.Forall (fun op => (bug.op_Id op < cache.nextId (repo s))%N) (cache.bug_ops bc) ->
  ensureNote srv Cleanup gi b note s = (Ok tt, s1) ->
  Cleanup (note_Body note) = inr cleanText ->
  note_System note' = false ->
  note_ID note' = note_ID note ->
  note_AuthorID note' = note_AuthorID note ->
  Cleanup (note_Body note') = inr cleanText' ->
  exists (author comment : Id) (sent : list ImportResult),
    out s1 = (sent ++ [ImportComment comment])%list
    /\ ensureNote srv Cleanup gi b note' s1
       = if String.eqb cleanText cleanText' then (Ok tt, s1)
         else
           (Ok tt,
            {| repo :=
                 snd (cache.appendRaw b author (note_UpdatedAt note')
                        (bug.EditCommentOperation comment cleanText') ∅ (repo s1));
               iterator := iterator s1;
               out := (out s1 ++ [ImportCommentEdition (cache.nextId (repo s1))])%list;
               fetches := fetches s1 |}).
Proof.
  intros Hsys Hb Hnone Hfresh H Hclean Hsys' Hid Hauthor Hclean'.
  destruct (ensureNote_first_comment srv Cleanup gi b note s s1 bc Hsys Hb Hnone H)
    as (author & sP & text & HP & Hc & Hs1).
  assert (text = cleanText) as -> by congruence.
  pose proof (ensurePerson_bugs srv gi (note_AuthorID note) s) as Hbugs.
  pose proof (ensurePerson_nextId srv gi (note_AuthorID note) s) as Hnext.
  rewrite HP in Hbugs, Hnext. cbn [snd] in Hbugs, Hnext.
  assert (cache.ResolveBug (repo sP) b = Some bc) as HbP
    by now rewrite (ResolveBug_same _ _ b Hbugs).
  pose proof (ResolveBug_appendRaw (repo sP) b author (note_CreatedAt note)
                (bug.AddCommentOperation cleanText)
                {[ metaKeyGiteaId := parseID (note_ID note) ]} bc HbP) as Hb1.
  set (added := fst (cache.appendRaw b author (note_CreatedAt note)
                       (bug.AddCommentOperation cleanText)
                       {[ metaKeyGiteaId := parseID (note_ID note) ]} (repo sP))) in *.
  set (bc1 := {| cache.bug_Id := cache.bug_Id bc;
                 cache.bug_ops := (cache.bug_ops bc ++ [added])%list;
                 cache.bug_staged := S (cache.bug_staged bc) |}) in *.
  assert (cache.ResolveBug (repo s1) b = Some bc1) as Hbs1 by (rewrite Hs1; exact Hb1).
  assert (cache.identities (repo s1) = cache.identities (repo sP)) as Hids
    by (rewrite Hs1; reflexivity).
  assert (cache.ResolveOperationWithMetadata bc1 metaKeyGiteaId (parseID (note_ID note'))
          = inr (cache.nextId (repo sP))) as Hres.
  { rewrite Hid.
    apply (resolve_operation_snoc bc bc1 added _ _ Hnone eq_refl).
    unfold bug.GetMetadata. cbn [added cache.appendRaw fst bug.op_Metadata].
    apply lookup_singleton_eq. }
  assert (bug.SearchComment (cache.Snapshot bc1) (cache.nextId (repo sP))
          = inr {| bug.comment_Id := cache.nextId (repo sP);
                   bug.comment_Message := cleanText |}) as Hsearch.
  { apply (SearchComment_added bc bc1 added cleanText (cache.nextId (repo s))
             eq_refl eq_refl Hfresh). exact Hnext. }
  exists author, (cache.nextId (repo sP)), (out sP).
  split; [rewrite Hs1; reflexivity |].
  rewrite (ensureNote_comment srv Cleanup gi b note' s1 bc1 Hsys' Hbs1).
  cbv zeta. rewrite Hres, Hauthor.
  rewrite (ensurePerson_again srv gi _ s sP s1 author HP Hids).
  rewrite Hclean', Hbs1, Hsearch. cbn [bug.comment_Message bug.comment_Id].
  now destruct (String.eqb cleanText cleanText').
Qed.

Lemma X18_comment_reimport_witness :
  exists (author comment : Id) (sent : list ImportResult),
    out (Cases.afterNote (Cases.note 51 "one")) = (sent ++ [ImportComment comment])%list
    /\ ensureNote (Scenario.remote [] []) Scenario.cleanup Scenario.gi 11%N
         (Cases.note 51 "two") (Cases.afterNote (Cases.note 51 "one"))
       = if String.eqb "one" "two" then (Ok tt, Cases.afterNote (Cases.note 51 "one"))
         else
           (Ok tt,
            {| repo :=
                 snd (cache.appendRaw 11%N author (note_UpdatedAt (Cases.note 51 "two"))
                        (bug.EditCommentOperation comment "two") ∅
                        (repo (Cases.afterNote (Cases.note 51 "one"))));
               iterator := iterator (Cases.afterNote (Cases.note 51 "one"));
               out := (out (Cases.afterNote (Cases.note 51 "one"))
                       ++ [ImportCommentEdition
                             (cache.nextId (repo (Cases.afterNote (Cases.note 51 "one"))))])%list;
               fetches := fetches (Cases.afterNote (Cases.note 51 "one")) |}).
Proof.
  eapply (X18_comment_reimport (Scenario.remote [] []) Scenario.cleanup Scenario.gi 11%N
            (Cases.note 51 "one") (Cases.note 51 "two") Cases.afterIssue).
  - reflexivity.
  - reflexivity.
  - reflexivity.
  - apply List.Forall_cons; [reflexivity | apply List.Forall_nil].
  - reflexivity.
  - reflexivity.
  - reflexivity.
  - reflexivity.
  - reflexivity.
  - reflexivity.
Defined.

(** * Importing the same event again *)

Section Sequencing.

Context {S A B : Type}.

Lemma bind_Ok (m : M S A) (k : A -> M S B) (s s' : S) (a : A) :
  m s = (Ok a, s') -> (m ≫= k) s = k a s'.
Proof. intros H. unfold mbind, M_bind. now rewrite H. Qed.

Lemma bind_inv_Ok (m : M S A) (k : A -> M S B) (s s2 : S) (b : B) :
  (m ≫= k) s = (Ok b, s2) ->
  exists (a : A) (s' : S), m s = (Ok a, s') /\ k a s' = (Ok b, s2).
Proof.
  unfold mbind, M_bind. destruct (m s) as [[a|e|msg|] s']; try discriminate.
  intros H. now exists a, s'.
Qed.

End Sequencing.

Section Reimport.

Local Open Scope list_scope.

Variable srv : Server.
Variable Cleanup : string -> error + string.

(** What an appended operation does to the state of the importer. *)
Lemma appended_state (b author : Id) (t : Z) (kind : bug.OpKind)
    (metadata : gmap string string) (k : bug.Operation -> ImportResult)
    (sP s1 : ImportState) :
  (op ← onRepo (cache.appendRaw b author t kind metadata); send (k op)) sP = (Ok tt, s1) ->
  s1 = {| repo := snd (cache.appendRaw b author t kind metadata (repo sP));
          iterator := iterator sP;
          out := out sP ++ [k (fst (cache.appendRaw b author t kind metadata (repo sP)))];
          fetches := fetches sP |}.
Proof. intros H. cbn in H. now injection H as <-. Qed.

(** The guard of [ensureNote] and [ensureLabelEvent] lets through the
    bug that has one operation under the tag, or none. *)
Lemma guard_passes (r : error + Id) (s s' : ImportState) :
  (match (match r with inl e => Some e | inr _ => None end) with
   | Some e => if negb (error_eqb e ErrNoMatchingOp) then fail e else mret tt
   | None => mret tt
   end : M ImportState unit) s = (Ok tt, s') ->
  s' = s /\ (r = inl ErrNoMatchingOp \/ exists id, r = inr id).
Proof.
  destruct r as [e|id].
  - destruct e; cbn; intros H; try discriminate. injection H as <-. auto.
  - cbn. intros H. injection H as <-. eauto.
Qed.

Lemma guard_run (r : error + Id) (s : ImportState) :
  (r = inl ErrNoMatchingOp \/ exists id, r = inr id) ->
  (match (match r with inl e => Some e | inr _ => None end) with
   | Some e => if negb (error_eqb e ErrNoMatchingOp) then fail e else mret tt
   | None => mret tt
   end : M ImportState unit) s = (Ok tt, s).
Proof. intros [-> | [id ->]]; reflexivity. Qed.

Lemma ofOutcome_Ok {A : Type} (o : outcome A) (s s' : ImportState) (a : A) :
  ofOutcome o s = (Ok a, s') -> o = Return a /\ s' = s.
Proof. destruct o; cbn; intros H; [| discriminate]. now injection H as <- <-. Qed.

Lemma ofResult_Ok {A : Type} (r : error + A) (s s' : ImportState) (a : A) :
  ofResult r s = (Ok a, s') -> r = inr a /\ s' = s.
Proof. destruct r; cbn; intros H; [discriminate |]. now injection H as <- <-. Qed.

Lemma deref_Ok (b : Id) (s s' : ImportState) (bc : cache.BugCache) :
  deref b s = (Ok bc, s') -> cache.ResolveBug (repo s) b = Some bc /\ s' = s.
Proof.
  unfold deref. destruct (cache.ResolveBug (repo s) b); intros H; [| discriminate].
  now injection H as <- <-.
Qed.

Lemma deref_run (b : Id) (s : ImportState) (bc : cache.BugCache) :
  cache.ResolveBug (repo s) b = Some bc -> deref b s = (Ok bc, s).
Proof. intros H. unfold deref. now rewrite H. Qed.

(** An operation without the tag does not change what the bug resolves
    for the tag. *)
Lemma resolve_operation_untagged (bc bc' : cache.BugCache) (op : bug.Operation)
    (key value : string) :
  cache.bug_ops bc' = cache.bug_ops bc ++ [op] ->
  bug.GetMetadata op key = None ->
  cache.ResolveOperationWithMetadata bc' key value
  = cache.ResolveOperationWithMetadata bc key value.
Proof.
  intros Hops Hop. unfold cache.ResolveOperationWithMetadata.
  rewrite Hops, List.filter_app. cbn [List.filter]. rewrite Hop.
  now rewrite List.app_nil_r.
Qed.

(** After the edition of the comment [target], the snapshot finds it
    with the new message. *)
Lemma find_edited (target : Id) (message : string) (cs : list bug.Comment)
    (c : bug.Comment) :
  List.find (fun c => N.eqb (bug.comment_Id c) target) cs = Some c ->
  List.find (fun c => N.eqb (bug.comment_Id c) target)
    (map (bug.editComment target message) cs)
  = Some {| bug.comment_Id := bug.comment_Id c; bug.comment_Message := message |}.
Proof.
  induction cs as [|x l IH]; [discriminate |]. cbn [List.find map].
  destruct (N.eqb (bug.comment_Id x) target) eqn:E.
  - intros H. injection H as <-.
    assert (bug.editComment target message x
            = {| bug.comment_Id := bug.comment_Id x; bug.comment_Message := message |})
      as -> by (unfold bug.editComment; now rewrite E).
    cbn [bug.comment_Id]. now rewrite E.
  - assert (bug.editComment target message x = x) as ->
      by (unfold bug.editComment; now rewrite E).
    rewrite E. exact IH.
Qed.

Lemma SearchComment_Ok (snap : bug.Snapshot) (id : Id) (c : bug.Comment) :
  bug.SearchComment snap id = inr c ->
  List.find (fun c => N.eqb (bug.comment_Id c) id) (bug.Comments snap) = Some c
  /\ bug.comment_Id c = id.
Proof.
  unfold bug.SearchComment.
  destruct (List.find _ (bug.Comments snap)) as [c'|] eqn:E; [| discriminate].
  intros H. injection H as <-. split; [reflexivity |].
  apply List.find_some in E. now apply N.eqb_eq.
Qed.


Lemma slice_at_map {A B : Type} (f : A -> B) (l : list A) (i : Z) (x : A) :
  slice_at l i = Return x -> slice_at (map f l) i = Return (f x).
Proof.
  unfold slice_at. destruct (i <? 0); [discriminate |].
  rewrite List.nth_error_map.
  destruct (nth_error l (Z.to_nat i)); cbn; intros H; [| discriminate].
  now injection H as <-.
Qed.

Lemma Comments_snoc (bc bc' : cache.BugCache) (op : bug.Operation) :
  cache.bug_ops bc' = cache.bug_ops bc ++ [op] ->
  bug.Comments (cache.Snapshot bc') = bug.apply (bug.Comments (cache.Snapshot bc)) op.
Proof.
  intros H. unfold cache.Snapshot, bug.Compile. cbn [bug.Comments].
  now rewrite H, fold_left_app.
Qed.

Lemma passes_of_none (r : error + Id) :
  r = inl ErrNoMatchingOp -> r = inl ErrNoMatchingOp \/ exists id, r = inr id.
Proof. now left. Qed.

Lemma passes_of_found (r : error + Id) (id : Id) :
  r = inr id -> r = inl ErrNoMatchingOp \/ exists id, r = inr id.
Proof. intros H. right. now exists id. Qed.

End Reimport.


(** The second call of [ensureNote], up to the kind of the note. *)
Ltac resume Hb1 Hr1 HP1 Hg :=
  unfold ensureNote;
  rewrite (bind_Ok _ _ _ _ _ (deref_run _ _ _ Hb1)); cbv zeta;
  rewrite (bind_Ok _ _ _ _ _ (guard_run _ _ Hr1));
  rewrite (bind_Ok _ _ _ _ _ HP1);
  rewrite Hg;
  rewrite (bind_Ok (ofOutcome (Return _)) _ _ _ _ eq_refl).

(** X19 (gitea.go, ensureNote): [ensureNote] is idempotent. In a store
    whose operation ids are below its counter, once [ensureNote] has
    returned without error for a note, of whatever kind, a second call for
    the same note returns without error and changes nothing: no operation
    is appended, no identity is created, no result is sent. *)
Theorem X19_ensureNote_idempotent (srv : Server) (Cleanup : string -> error + string)
    (gi : giteaImporter) (b : Id) (note : Note) (s s1 : ImportState)
    (bc : cache.BugCache) :
  cache.ResolveBug (repo s) b = Some bc ->
  List.Forall (fun op => (bug.op_Id op < cache.nextId (repo s))%N) (cache.bug_ops bc) ->
  ensureNote srv Cleanup gi b note s = (Ok tt, s1) ->
  ensureNote srv Cleanup gi b note s1 = (Ok tt, s1).
Proof.
  intros Hb Hfresh H.
  unfold ensureNote in H.
  apply bind_inv_Ok in H as (bc0 & s0 & Hd & H).
  apply deref_Ok in Hd as [Hd ->]. assert (bc0 = bc) as -> by congruence. clear Hd.
  cbv zeta in H.
  apply bind_inv_Ok in H as ([] & s0 & Hguard & H).
  apply guard_passes in Hguard as [-> Hr].
  apply bind_inv_Ok in H as (author & sP & HP & H).
  apply bind_inv_Ok in H as ([nt body] & s0 & Hg & H).
  apply ofOutcome_Ok in Hg as [Hg ->].
  pose proof (ensurePerson_bugs srv gi (note_AuthorID note) s) as Hbugs.
  pose proof (ensurePerson_nextId srv gi (note_AuthorID note) s) as Hnext.
  rewrite HP in Hbugs, Hnext. cbn [snd] in Hbugs, Hnext.
  assert (cache.ResolveBug (repo sP) b = Some bc) as HbP
    by now rewrite (ResolveBug_same _ _ b Hbugs).
  pose proof (ensurePerson_again srv gi _ s sP sP author HP eq_refl) as HPP.
  pose proof H as H0.
  destruct nt.
  6-16: (injection H as <-; resume HbP Hr HPP Hg; exact H0).
  - (* a comment *)
    apply bind_inv_Ok in H as (cleanText & s0 & Hc & H).
    apply ofResult_Ok in Hc as [Hc ->].
    destruct Hr as [Hn | [id Hid]].
    + rewrite Hn in H. apply appended_state in H.
      pose proof (ResolveBug_appendRaw (repo sP) b author (note_CreatedAt note)
                    (bug.AddCommentOperation cleanText)
                    {[ metaKeyGiteaId := parseID (note_ID note) ]} bc HbP) as Hb1.
      set (added := fst (cache.appendRaw b author (note_CreatedAt note)
                           (bug.AddCommentOperation cleanText)
                           {[ metaKeyGiteaId := parseID (note_ID note) ]} (repo sP))) in *.
      set (bc1 := {| cache.bug_Id := cache.bug_Id bc;
                     cache.bug_ops := cache.bug_ops bc ++ [added];
                     cache.bug_staged := S (cache.bug_staged bc) |}) in *.
      assert (cache.ResolveBug (repo s1) b = Some bc1) as Hbs1 by (rewrite H; exact Hb1).
      assert (cache.ResolveOperationWithMetadata bc1 metaKeyGiteaId (parseID (note_ID note))
              = inr (cache.nextId (repo sP))) as Hres.
      { apply (resolve_operation_snoc bc bc1 added _ _ Hn eq_refl).
        unfold bug.GetMetadata. cbn [added cache.appendRaw fst bug.op_Metadata].
        apply lookup_singleton_eq. }
      assert (bug.SearchComment (cache.Snapshot bc1) (cache.nextId (repo sP))
              = inr {| bug.comment_Id := cache.nextId (repo sP);
                       bug.comment_Message := cleanText |}) as Hsearch.
      { apply (SearchComment_added bc bc1 added cleanText (cache.nextId (repo s))
                 eq_refl eq_refl Hfresh). exact Hnext. }
      assert (ensurePerson srv gi (note_AuthorID note) s1 = (Ok author, s1)) as HP1.
      { apply (ensurePerson_again srv gi _ s sP s1 author HP). rewrite H. reflexivity. }
      resume Hbs1 (passes_of_found _ _ Hres) HP1 Hg.
      rewrite Hc, Hres. cbn [ofResult].
      rewrite (bind_Ok (mret cleanText) _ _ _ _ eq_refl).
      rewrite (bind_Ok _ _ _ _ _ (deref_run _ _ _ Hbs1)).
      rewrite Hsearch. cbn [ofResult].
      rewrite (bind_Ok (mret _) _ _ _ _ eq_refl).
      cbn [bug.comment_Message]. now rewrite String.eqb_refl.
    + rewrite Hid in H.
      apply bind_inv_Ok in H as (bc0 & s0 & Hd & H).
      apply deref_Ok in Hd as [Hd ->]. assert (bc0 = bc) as -> by congruence. clear Hd.
      apply bind_inv_Ok in H as (comment & s0 & Hs & H).
      apply ofResult_Ok in Hs as [Hs ->].
      destruct (negb (bug.comment_Message comment =? cleanText)%string) eqn:Hdiff;
        [| injection H as <-; resume HbP (passes_of_found _ _ Hid) HPP Hg; exact H0].
      apply appended_state in H.
      destruct (SearchComment_Ok _ _ _ Hs) as [Hfind Hcid].
      pose proof (ResolveBug_appendRaw (repo sP) b author (note_UpdatedAt note)
                    (bug.EditCommentOperation (bug.comment_Id comment) cleanText)
                    ∅ bc HbP) as Hb1.
      set (added := fst (cache.appendRaw b author (note_UpdatedAt note)
                           (bug.EditCommentOperation (bug.comment_Id comment) cleanText)
                           ∅ (repo sP))) in *.
      set (bc1 := {| cache.bug_Id := cache.bug_Id bc;
                     cache.bug_ops := cache.bug_ops bc ++ [added];
                     cache.bug_staged := S (cache.bug_staged bc) |}) in *.
      assert (cache.ResolveBug (repo s1) b = Some bc1) as Hbs1 by (rewrite H; exact Hb1).
      assert (cache.ResolveOperationWithMetadata bc1 metaKeyGiteaId (parseID (note_ID note))
              = inr id) as Hres.
      { rewrite (resolve_operation_untagged bc bc1 added _ _ eq_refl); [exact Hid |].
        unfold bug.GetMetadata. cbn [added cache.appendRaw fst bug.op_Metadata].
        apply lookup_empty. }
      assert (bug.SearchComment (cache.Snapshot bc1) id
              = inr {| bug.comment_Id := bug.comment_Id comment;
                       bug.comment_Message := cleanText |}) as Hsearch.
      { unfold bug.SearchComment. rewrite (Comments_snoc bc bc1 added eq_refl).
        unfold bug.apply. cbn [added cache.appendRaw fst bug.op_Kind].
        rewrite Hcid. now rewrite (find_edited id cleanText _ comment Hfind), Hcid. }
      assert (ensurePerson srv gi (note_AuthorID note) s1 = (Ok author, s1)) as HP1.
      { apply (ensurePerson_again srv gi _ s sP s1 author HP). rewrite H. reflexivity. }
      resume Hbs1 (passes_of_found _ _ Hres) HP1 Hg.
      rewrite Hc, Hres. cbn [ofResult].
      rewrite (bind_Ok (mret cleanText) _ _ _ _ eq_refl).
      rewrite (bind_Ok _ _ _ _ _ (deref_run _ _ _ Hbs1)).
      rewrite Hsearch. cbn [ofResult].
      rewrite (bind_Ok (mret _) _ _ _ _ eq_refl).
      cbn [bug.comment_Message]. now rewrite String.eqb_refl.
  - (* a change of title *)
    destruct Hr as [Hn | [id Hid]];
      [| rewrite Hid in H; injection H as <-;
         resume HbP (passes_of_found _ _ Hid) HPP Hg; exact H0].
    rewrite Hn in H. apply appended_state in H.
    pose proof (ResolveBug_appendRaw (repo sP) b author (note_CreatedAt note)
                  (bug.SetTitleOperation body)
                  {[ metaKeyGiteaId := parseID (note_ID note) ]} bc HbP) as Hb1.
    set (added := fst (cache.appendRaw b author (note_CreatedAt note)
                         (bug.SetTitleOperation body)
                         {[ metaKeyGiteaId := parseID (note_ID note) ]} (repo sP))) in *.
    set (bc1 := {| cache.bug_Id := cache.bug_Id bc;
                   cache.bug_ops := cache.bug_ops bc ++ [added];
                   cache.bug_staged := S (cache.bug_staged bc) |}) in *.
    assert (cache.ResolveBug (repo s1) b = Some bc1) as Hbs1 by (rewrite H; exact Hb1).
    assert (cache.ResolveOperationWithMetadata bc1 metaKeyGiteaId (parseID (note_ID note))
            = inr (cache.nextId (repo sP))) as Hres.
    { apply (resolve_operation_snoc bc bc1 added _ _ Hn eq_refl).
      unfold bug.GetMetadata. cbn [added cache.appendRaw fst bug.op_Metadata].
      apply lookup_singleton_eq. }
    assert (ensurePerson srv gi (note_AuthorID note) s1 = (Ok author, s1)) as HP1.
    { apply (ensurePerson_again srv gi _ s sP s1 author HP). rewrite H. reflexivity. }
    resume Hbs1 (passes_of_found _ _ Hres) HP1 Hg.
    now rewrite Hres.
  - (* a change of description *)
    apply bind_inv_Ok in H as (s' & s0 & Hget & H).
    injection Hget as <- <-.
    apply bind_inv_Ok in H as (issue & s0 & Hi & H).
    apply ofOutcome_Ok in Hi as [Hi ->].
    apply bind_inv_Ok in H as (bc0 & s0 & Hd & H).
    apply deref_Ok in Hd as [Hd ->]. assert (bc0 = bc) as -> by congruence. clear Hd.
    apply bind_inv_Ok in H as (firstComment & s0 & Hf & H).
    apply ofOutcome_Ok in Hf as [Hf ->].
    destruct Hr as [Hn | [id Hid]];
      [| rewrite Hid in H; injection H as <-;
         resume HbP (passes_of_found _ _ Hid) HPP Hg; exact H0].
    rewrite Hn in H.
    destruct (negb (issue_Description issue =? bug.comment_Message firstComment)%string);
      [| injection H as <-;
         resume HbP (passes_of_none _ Hn) HPP Hg; exact H0].
    apply appended_state in H.
    pose proof (ResolveBug_appendRaw (repo sP) b author (note_UpdatedAt note)
                  (bug.EditCommentOperation (bug.comment_Id firstComment)
                     (issue_Description issue))
                  {[ metaKeyGiteaId := parseID (note_ID note) ]} bc HbP) as Hb1.
    set (added := fst (cache.appendRaw b author (note_UpdatedAt note)
                         (bug.EditCommentOperation (bug.comment_Id firstComment)
                            (issue_Description issue))
                         {[ metaKeyGiteaId := parseID (note_ID note) ]} (repo sP))) in *.
    set (bc1 := {| cache.bug_Id := cache.bug_Id bc;
                   cache.bug_ops := cache.bug_ops bc ++ [added];
                   cache.bug_staged := S (cache.bug_staged bc) |}) in *.
    assert (cache.ResolveBug (repo s1) b = Some bc1) as Hbs1 by (rewrite H; exact Hb1).
    assert (cache.ResolveOperationWithMetadata bc1 metaKeyGiteaId (parseID (note_ID note))
            = inr (cache.nextId (repo sP))) as Hres.
    { apply (resolve_operation_snoc bc bc1 added _ _ Hn eq_refl).
      unfold bug.GetMetadata. cbn [added cache.appendRaw fst bug.op_Metadata].
      apply lookup_singleton_eq. }
    assert (ensurePerson srv gi (note_AuthorID note) s1 = (Ok author, s1)) as HP1.
    { apply (ensurePerson_again srv gi _ s sP s1 author HP). rewrite H. reflexivity. }
    assert (iterator s1 = iterator sP) as Hit by (rewrite H; reflexivity).
    assert (exists c, slice_at (bug.Comments (cache.Snapshot bc1)) 0 = Return c)
      as [c Hc1].
    { rewrite (Comments_snoc bc bc1 added eq_refl).
      unfold bug.apply. cbn [added cache.appendRaw fst bug.op_Kind].
      eexists. apply slice_at_map. exact Hf. }
    resume Hbs1 (passes_of_found _ _ Hres) HP1 Hg.
    rewrite (bind_Ok get _ s1 s1 s1 eq_refl).
    rewrite Hit, Hi.
    rewrite (bind_Ok (ofOutcome (Return issue)) _ _ _ _ eq_refl).
    rewrite (bind_Ok _ _ _ _ _ (deref_run _ _ _ Hbs1)).
    rewrite Hc1.
    rewrite (bind_Ok (ofOutcome (Return c)) _ _ _ _ eq_refl).
    now rewrite Hres.
  - destruct Hr as [Hn | [id Hid]];
      [| rewrite Hid in H; injection H as <-;
         resume HbP (passes_of_found _ _ Hid) HPP Hg; exact H0].
    rewrite Hn in H. apply appended_state in H.
    pose proof (ResolveBug_appendRaw (repo sP) b author (note_CreatedAt note)
                  (bug.SetStatusOperation bug.ClosedStatus)
                  {[ metaKeyGiteaId := parseID (note_ID note) ]} bc HbP) as Hb1.
    set (added := fst (cache.appendRaw b author (note_CreatedAt note)
                         (bug.SetStatusOperation bug.ClosedStatus)
                         {[ metaKeyGiteaId := parseID (note_ID note) ]} (repo sP))) in *.
    set (bc1 := {| cache.bug_Id := cache.bug_Id bc;
                   cache.bug_ops := cache.bug_ops bc ++ [added];
                   cache.bug_staged := S (cache.bug_staged bc) |}) in *.
    assert (cache.ResolveBug (repo s1) b = Some bc1) as Hbs1 by (rewrite H; exact Hb1).
    assert (cache.ResolveOperationWithMetadata bc1 metaKeyGiteaId (parseID (note_ID note))
            = inr (cache.nextId (repo sP))) as Hres.
    { apply (resolve_operation_snoc bc bc1 added _ _ Hn eq_refl).
      unfold bug.GetMetadata. cbn [added cache.appendRaw fst bug.op_Metadata].
      apply lookup_singleton_eq. }
    assert (ensurePerson srv gi (note_AuthorID note) s1 = (Ok author, s1)) as HP1.
    { apply (ensurePerson_again srv gi _ s sP s1 author HP). rewrite H. reflexivity. }
    resume Hbs1 (passes_of_found _ _ Hres) HP1 Hg.
    now rewrite Hres.
  - destruct Hr as [Hn | [id Hid]];
      [| rewrite Hid in H; injection H as <-;
         resume HbP (passes_of_found _ _ Hid) HPP Hg; exact H0].
    rewrite Hn in H. apply appended_state in H.
    pose proof (ResolveBug_appendRaw (repo sP) b author (note_CreatedAt note)
                  (bug.SetStatusOperation bug.OpenStatus)
                  {[ metaKeyGiteaId := parseID (note_ID note) ]} bc HbP) as Hb1.
    set (added := fst (cache.appendRaw b author (note_CreatedAt note)
                         (bug.SetStatusOperation bug.OpenStatus)
                         {[ metaKeyGiteaId := parseID (note_ID note) ]} (repo sP))) in *.
    set (bc1 := {| cache.bug_Id := cache.bug_Id bc;
                   cache.bug_ops := cache.bug_ops bc ++ [added];
                   cache.bug_staged := S (cache.bug_staged bc) |}) in *.
    assert (cache.ResolveBug (repo s1) b = Some bc1) as Hbs1 by (rewrite H; exact Hb1).
    assert (cache.ResolveOperationWithMetadata bc1 metaKeyGiteaId (parseID (note_ID note))
            = inr (cache.nextId (repo sP))) as Hres.
    { apply (resolve_operation_snoc bc bc1 added _ _ Hn eq_refl).
      unfold bug.GetMetadata. cbn [added cache.appendRaw fst bug.op_Metadata].
      apply lookup_singleton_eq. }
    assert (ensurePerson srv gi (note_AuthorID note) s1 = (Ok author, s1)) as HP1.
    { apply (ensurePerson_again srv gi _ s sP s1 author HP). rewrite H. reflexivity. }
    resume Hbs1 (passes_of_found _ _ Hres) HP1 Hg.
    now rewrite Hres.
Qed.

Lemma X19_ensureNote_idempotent_witness :
  ensureNote (Scenario.remote [] []) Scenario.cleanup Scenario.gi 11%N Cases.closing
    (Cases.afterNote Cases.closing)
  = (Ok tt, Cases.afterNote Cases.closing).
Proof.
  eapply (X19_ensureNote_idempotent (Scenario.remote [] []) Scenario.cleanup Scenario.gi
            11%N Cases.closing Cases.afterIssue).
  - reflexivity.
  - apply List.Forall_cons; [reflexivity | apply List.Forall_nil].
  - reflexivity.
Defined.

(** X20 (gitea.go, ensureLabelEvent): [ensureLabelEvent] is idempotent.
    Once it has returned without error for a label event, a second call
    for the same event returns without error and changes nothing: the
    change of labels is not appended a second time. *)
Theorem X20_ensureLabelEvent_idempotent (srv : Server) (gi : giteaImporter) (b : Id)
    (labelEvent : LabelEvent) (s s1 : ImportState) :
  ensureLabelEvent srv gi b labelEvent s = (Ok tt, s1) ->
  ensureLabelEvent srv gi b labelEvent s1 = (Ok tt, s1).
Proof.
  intros H. pose proof H as H0. unfold ensureLabelEvent in H.
  apply bind_inv_Ok in H as (bc & s0 & Hd & H).
  apply deref_Ok in Hd as [Hb ->].
  destruct (cache.ResolveOperationWithMetadata bc metaKeyGiteaId
              (parseID (le_ID labelEvent))) as [err|id] eqn:Hr.
  - destruct err; cbn [negb error_eqb] in H; try discriminate.
    apply bind_inv_Ok in H as (author & sP & HP & H).
    pose proof (ensurePerson_bugs srv gi (le_UserID labelEvent) s) as Hbugs.
    rewrite HP in Hbugs. cbn [snd] in Hbugs.
    assert (cache.ResolveBug (repo sP) b = Some bc) as HbP
      by now rewrite (ResolveBug_same _ _ b Hbugs).
    assert (forall kind,
              (onRepo (cache.appendRaw b author (le_CreatedAt labelEvent) kind
                         {[ metaKeyGiteaId := parseID (le_ID labelEvent) ]});; mret tt) sP
              = (Ok tt, s1) ->
              ensureLabelEvent srv gi b labelEvent s1 = (Ok tt, s1)) as Happended.
    { intros kind Hk. cbn in Hk. injection Hk as Hs1.
      pose proof (ResolveBug_appendRaw (repo sP) b author (le_CreatedAt labelEvent) kind
                    {[ metaKeyGiteaId := parseID (le_ID labelEvent) ]} bc HbP) as Hb1.
      set (added := fst (cache.appendRaw b author (le_CreatedAt labelEvent) kind
                           {[ metaKeyGiteaId := parseID (le_ID labelEvent) ]} (repo sP)))
        in *.
      set (bc1 := {| cache.bug_Id := cache.bug_Id bc;
                     cache.bug_ops := (cache.bug_ops bc ++ [added])%list;
                     cache.bug_staged := S (cache.bug_staged bc) |}) in *.
      assert (cache.ResolveBug (repo s1) b = Some bc1) as Hbs1
        by (rewrite <- Hs1; exact Hb1).
      assert (cache.ResolveOperationWithMetadata bc1 metaKeyGiteaId
                (parseID (le_ID labelEvent)) = inr (cache.nextId (repo sP))) as Hres.
      { apply (resolve_operation_snoc bc bc1 added _ _ Hr eq_refl).
        unfold bug.GetMetadata. cbn [added cache.appendRaw fst bug.op_Metadata].
        apply lookup_singleton_eq. }
      unfold ensureLabelEvent.
      rewrite (bind_Ok _ _ _ _ _ (deref_run _ _ _ Hbs1)). now rewrite Hres. }
    destruct (String.eqb (le_Action labelEvent) "add"); [exact (Happended _ H) |].
    destruct (String.eqb (le_Action labelEvent) "remove"); [exact (Happended _ H) |].
    discriminate.
  - injection H as <-. exact H0.
Qed.

Lemma X20_ensureLabelEvent_idempotent_witness :
  ensureLabelEvent (Scenario.remote [] []) Scenario.gi 11%N Scenario.addA
    (Cases.afterLabelEvent Scenario.addA)
  = (Ok tt, Cases.afterLabelEvent Scenario.addA).
Proof.
  apply (X20_ensureLabelEvent_idempotent (Scenario.remote [] []) Scenario.gi 11%N
           Scenario.addA Cases.afterIssue).
  reflexivity.
Defined.

(** * The import pass, before its first issue *)

(** X21 (gitea.go, ImportAll): under a context that is already cancelled,
    the import pass does nothing and reports nothing: no page is fetched,
    no result is sent, not even an error, and the store is untouched. The
    pass ends as a finished pass does. *)
Theorem X21_ImportAll_cancelled (srv : Server) (Cleanup : string -> error + string)
    (e : error) (fuel : nat) (gi : giteaImporter) (s : ImportState) :
  ImportAll srv Cleanup (Some e) (S fuel) gi s
  = (Ok tt,
     {| repo := repo s;
        iterator := CompositeIterator.NewIterator (gi_client gi) 10
                      (mapGet (gi_conf gi) confKeyOwner)
                      (mapGet (gi_conf gi) confKeyProjectID);
        out := out s;
        fetches := fetches s |}).
Proof.
  change (ImportAll srv Cleanup (Some e) (S fuel) gi s)
    with (Ok tt : res unit,
          {| repo := repo s;
             iterator := CompositeIterator.NewIterator (gi_client gi) 10
                           (mapGet (gi_conf gi) confKeyOwner)
                           (mapGet (gi_conf gi) confKeyProjectID);
             out := out s;
             fetches := (fetches s ++ [])%list |}).
  now rewrite List.app_nil_r.
Qed.

(** X22 (gitea.go, ImportAll): when the first page of issues cannot be
    fetched, the pass reports that one error, with an empty stage and an
    empty id, and ends normally: the page was asked once, nothing else is
    sent and the store is untouched. *)
Theorem X22_ImportAll_listing_error (srv : Server) (Cleanup : string -> error + string)
    (e : error) (fuel : nat) (gi : giteaImporter) (s : ImportState) :
  ListRepoIssues srv (gi_client gi) (mapGet (gi_conf gi) confKeyOwner)
    (mapGet (gi_conf gi) confKeyProjectID) 1 10 = inl e ->
  exists it : CompositeIterator.Iterator,
    ImportAll srv Cleanup None (S fuel) gi s
    = (Ok tt,
       {| repo := repo s; iterator := it;
          out := (out s ++ [ImportError "" e ""])%list;
          fetches := (fetches s ++ [FetchIssues 1])%list |})
    /\ CompositeIterator.Error it = Some e.
Proof.
  intros Hl. eexists.
  unfold ImportAll, importIssues, mbind, M_bind, modify, advance,
    CompositeIterator.NextIssue, CompositeIterator.NewIterator.
  cbn [iterator CompositeIterator.err CompositeIterator.conf CompositeIterator.issue
       IssueIterator.Next IssueIterator.newIssueIterator IssueIterator.Reset
       IssueIterator.cache IssueIterator.getNext IssueIterator.lastPage
       IssueIterator.page gc owner project capacity].
  rewrite Hl. cbn. split; reflexivity.
Qed.

Lemma X22_ImportAll_listing_error_witness :
  exists it : CompositeIterator.Iterator,
    ImportAll Scenario.unreachable Scenario.cleanup None 1 Scenario.gi
      (Scenario.importFrom (Scenario.emptyStore [Scenario.tokenOfAlice]))
    = (Ok tt,
       {| repo := Scenario.emptyStore [Scenario.tokenOfAlice]; iterator := it;
          out := ([] ++ [ImportError "" (ErrRemote "timeout") ""])%list;
          fetches := ([] ++ [FetchIssues 1])%list |})
    /\ CompositeIterator.Error it = Some (ErrRemote "timeout").
Proof.
  apply (X22_ImportAll_listing_error Scenario.unreachable Scenario.cleanup
           (ErrRemote "timeout") 0 Scenario.gi
           (Scenario.importFrom (Scenario.emptyStore [Scenario.tokenOfAlice]))).
  reflexivity.
Defined.

(** X23 (gitea.go, ImportAll; config_test.go, NextIssue): the import of a
    project without issues crashes. When the first page of issues is
    empty, the pass stops on the index panic of [NextIssue]: nothing is
    sent, the store is untouched, and the closing report of the
    iterator's error is not reached. *)
Theorem X23_ImportAll_empty_project (srv : Server) (Cleanup : string -> error + string)
    (totalPages : Z) (fuel : nat) (gi : giteaImporter) (s : ImportState) :
  ListRepoIssues srv (gi_client gi) (mapGet (gi_conf gi) confKeyOwner)
    (mapGet (gi_conf gi) confKeyProjectID) 1 10 = inr ([], totalPages) ->
  ImportAll srv Cleanup None (S fuel) gi s
  = (Crash "index out of range",
     {| repo := repo s;
        iterator := CompositeIterator.NewIterator (gi_client gi) 10
                      (mapGet (gi_conf gi) confKeyOwner)
                      (mapGet (gi_conf gi) confKeyProjectID);
        out := out s;
        fetches := (fetches s ++ [FetchIssues 1])%list |}).
Proof.
  intros Hl.
  unfold ImportAll, importIssues, mbind, M_bind, modify, advance,
    CompositeIterator.NextIssue, CompositeIterator.NewIterator.
  cbn [iterator CompositeIterator.err CompositeIterator.conf CompositeIterator.issue
       IssueIterator.Next IssueIterator.newIssueIterator IssueIterator.Reset
       IssueIterator.cache IssueIterator.getNext IssueIterator.lastPage
       IssueIterator.page gc owner project capacity].
  rewrite Hl. cbn. reflexivity.
Qed.

Lemma X23_ImportAll_empty_project_witness :
  ImportAll (Scenario.listing []) Scenario.cleanup None 1 Scenario.gi
    (Scenario.importFrom (Scenario.emptyStore [Scenario.tokenOfAlice]))
  = (Crash "index out of range",
     {| repo := Scenario.emptyStore [Scenario.tokenOfAlice];
        iterator := CompositeIterator.NewIterator (gi_client Scenario.gi) 10
                      (mapGet (gi_conf Scenario.gi) confKeyOwner)
                      (mapGet (gi_conf Scenario.gi) confKeyProjectID);
        out := [];
        fetches := ([] ++ [FetchIssues 1])%list |}).
Proof.
  apply (X23_ImportAll_empty_project (Scenario.listing []) Scenario.cleanup
           (totalPages ([] : list Issue) 10) 0 Scenario.gi
           (Scenario.importFrom (Scenario.emptyStore [Scenario.tokenOfAlice]))).
  reflexivity.
Defined.

(** * Invariants of the export pass *)

Section ExportPreservation.

Local Open Scope list_scope.

Context (R : ExportState -> ExportState -> Prop) `{!PreOrder R}.

Lemma preservesE_bind {A B : Type} (m : M ExportState A) (k : A -> M ExportState B) :
  preservesE R m -> (forall a : A, preservesE R (k a)) -> preservesE R (m ≫= k).
Proof.
  intros Hm Hk x. unfold mbind, M_bind. specialize (Hm x).
  destruct (m x) as [[a|e|msg|] x1]; cbn [snd] in *; try exact Hm.
  transitivity x1; [exact Hm | apply Hk].
Qed.

Lemma preservesE_ret {A : Type} (a : A) : preservesE R (mret a : M ExportState A).
Proof. intros x. reflexivity. Qed.

Lemma preservesE_crash {A : Type} (msg : string) :
  preservesE R (crash msg : M ExportState A).
Proof. intros x. reflexivity. Qed.

Lemma preservesE_get : preservesE R (get : M ExportState ExportState).
Proof. intros x. reflexivity. Qed.

Lemma preservesE_derefBug (b : Id) : preservesE R (derefBug b).
Proof.
  intros x. unfold derefBug. destruct (cache.ResolveBug (store x) b); reflexivity.
Qed.

End ExportPreservation.

Section HistoryKept.

Local Open Scope list_scope.

Lemma opKept_refl (o : bug.Operation) : opKept o o.
Proof. repeat split; auto. Qed.

Lemma opKept_trans (a b c : bug.Operation) : opKept a b -> opKept b c -> opKept a c.
Proof.
  intros (Hi & Ha & Ht & Hk & Hm & Ho) (Hi' & Ha' & Ht' & Hk' & Hm' & Ho').
  repeat split; try congruence.
  - intros k v H. auto.
  - intros k Hk0. now rewrite Ho', Ho.
Qed.

Lemma Forall2_opKept_refl (l : list bug.Operation) : Forall2 opKept l l.
Proof. induction l; constructor; [apply opKept_refl | assumption]. Qed.

Lemma Forall2_trans_gen {A : Type} (P : A -> A -> Prop) :
  (forall a b c, P a b -> P b c -> P a c) ->
  forall l k m, Forall2 P l k -> Forall2 P k m -> Forall2 P l m.
Proof.
  intros HP l k m H. revert m. induction H as [|x y l k Hxy _ IH]; intros m Hm.
  - inversion Hm. constructor.
  - inversion Hm as [|? z ? m' Hyz Hrest]; subst. constructor; [eauto | now apply IH].
Qed.

Lemma Forall2_app_split {A : Type} (P : A -> A -> Prop) (l k m : list A) :
  Forall2 P (l ++ k) m ->
  exists m1 m2, m = m1 ++ m2 /\ Forall2 P l m1 /\ Forall2 P k m2.
Proof.
  revert m. induction l as [|x l IH]; intros m H.
  - exists [], m. repeat split; [constructor | exact H].
  - cbn in H. inversion H as [|? y ? m' Hxy Hrest]; subst.
    destruct (IH _ Hrest) as (m1 & m2 & -> & Hl & Hk).
    exists (y :: m1), m2. repeat split; [now constructor | exact Hk].
Qed.

Lemma isSetMetadata_kept (l k : list bug.Operation) :
  Forall2 opKept l k -> List.Forall isSetMetadata l -> List.Forall isSetMetadata k.
Proof.
  induction 1 as [|x y l k Hxy _ IH]; intros Hl; [constructor |].
  inversion Hl as [|? ? Hx Hrest]; subst. constructor; [| now apply IH].
  destruct Hx as (t & m & Hx). destruct Hxy as (_ & _ & _ & Hk & _).
  exists t, m. congruence.
Qed.

Lemma bugKept_refl (b : cache.BugCache) : bugKept b b.
Proof.
  split; [reflexivity |]. exists (cache.bug_ops b), [].
  repeat split; [now rewrite List.app_nil_r | apply Forall2_opKept_refl | constructor].
Qed.

Lemma bugKept_trans (a b c : cache.BugCache) : bugKept a b -> bugKept b c -> bugKept a c.
Proof.
  intros (Hid & ops & news & Hops & Hk & Hn) (Hid' & ops' & news' & Hops' & Hk' & Hn').
  split; [congruence |].
  rewrite Hops in Hk'.
  destruct (Forall2_app_split _ _ _ _ Hk') as (m1 & m2 & -> & H1 & H2).
  exists m1, (m2 ++ news'). repeat split.
  - now rewrite Hops', <- List.app_assoc.
  - exact (Forall2_trans_gen _ opKept_trans _ _ _ Hk H1).
  - apply List.Forall_app. split; [| exact Hn'].
    exact (isSetMetadata_kept _ _ H2 Hn).
Qed.

Lemma Forall2_bugKept_refl (l : list cache.BugCache) : Forall2 bugKept l l.
Proof. induction l; constructor; [apply bugKept_refl | assumption]. Qed.

#[global] Instance storeKept_preorder : PreOrder storeKept.
Proof.
  split.
  - intros r. repeat split; [apply Forall2_bugKept_refl | lia].
  - intros r1 r2 r3 (Hb & Hi & Hc & Hu & Hn) (Hb' & Hi' & Hc' & Hu' & Hn').
    repeat split; try congruence; [| lia].
    exact (Forall2_trans_gen _ bugKept_trans _ _ _ Hb Hb').
Qed.

#[global] Instance exportKeeps_preorder : PreOrder exportKeeps.
Proof.
  split.
  - intros x. split; [reflexivity |].
    split; [reflexivity |]. split; [reflexivity |]. split; [reflexivity |].
    split; exists []; now rewrite List.app_nil_r.
  - intros x1 x2 x3 (Hs & Hc & Hi & Hr & (l & Hl) & (c & Hcl))
                    (Hs' & Hc' & Hi' & Hr' & (l' & Hl') & (c' & Hcl')).
    split; [now transitivity (store x2) |].
    split; [congruence |]. split; [congruence |]. split; [congruence |].
    split.
    + exists (l ++ l'). now rewrite Hl', Hl, <- List.app_assoc.
    + exists (c ++ c'). now rewrite Hcl', Hcl, <- List.app_assoc.
Qed.

Lemma storeKept_update (id : Id) (f : cache.BugCache -> cache.BugCache)
    (r : cache.RepoCache) :
  (forall b, bugKept b (f b)) -> storeKept r (cache.updateBug id f r).
Proof.
  intros Hf. repeat split; cbn; [| lia].
  induction (cache.bugs r) as [|x l IH]; cbn [map]; constructor; [| exact IH].
  destruct (N.eqb (cache.bug_Id x) id); [apply Hf | apply bugKept_refl].
Qed.

Lemma storeKept_bump (r : cache.RepoCache) : storeKept r (cache.bump r).
Proof. repeat split; cbn; [apply Forall2_bugKept_refl | lia]. Qed.

Lemma opKept_attach (new : gmap string string) (o : bug.Operation) :
  (forall k, is_Some (new !! k) -> In k exportKeys) ->
  opKept o (bug.attach new o).
Proof.
  intros Hnew. repeat split; cbn [bug.attach bug.op_Metadata].
  - intros k v H. apply lookup_union_Some_l. exact H.
  - intros k Hk. destruct (bug.op_Metadata o !! k) as [v|] eqn:E.
    + now apply lookup_union_Some_l.
    + apply lookup_union_None. split; [exact E |].
      destruct (new !! k) as [v|] eqn:E'; [| reflexivity].
      exfalso. apply Hk, Hnew. now exists v.
Qed.

Lemma storeKept_SetMetadata (b target : Id) (new : gmap string string)
    (r : cache.RepoCache) :
  (forall k, is_Some (new !! k) -> In k exportKeys) ->
  storeKept r (snd (cache.SetMetadata b target new r)).
Proof.
  intros Hnew. cbn [cache.SetMetadata snd].
  etransitivity; [| apply storeKept_bump].
  apply storeKept_update. intros bc. split; [reflexivity |]. cbn.
  eexists _, _. split; [reflexivity |]. split.
  - induction (cache.bug_ops bc) as [|o l IH]; cbn [map]; constructor; [| exact IH].
    destruct (N.eqb (bug.op_Id o) target); [now apply opKept_attach | apply opKept_refl].
  - constructor; [| constructor]. eexists _, _. reflexivity.
Qed.

Lemma storeKept_Commit (b : Id) (r : cache.RepoCache) : storeKept r (cache.Commit b r).
Proof.
  apply storeKept_update. intros bc. split; [reflexivity |]. cbn.
  exists (cache.bug_ops bc), []. repeat split;
    [now rewrite List.app_nil_r | apply Forall2_opKept_refl | constructor].
Qed.

Lemma keys_of_creation (id url base : string) (k : string) :
  is_Some (({[ metaKeyGiteaId := id; metaKeyGiteaUrl := url;
               metaKeyGiteaBaseUrl := base ]} : gmap string string) !! k) ->
  In k exportKeys.
Proof.
  intros [v H]. unfold exportKeys.
  destruct (decide (k = metaKeyGiteaId)) as [->|H1]; [now left |].
  destruct (decide (k = metaKeyGiteaUrl)) as [->|H2]; [right; now left |].
  destruct (decide (k = metaKeyGiteaBaseUrl)) as [->|H3]; [right; right; now left |].
  rewrite !lookup_insert_ne in H by congruence.
  rewrite lookup_singleton_ne in H by congruence. discriminate.
Qed.

Lemma keys_of_export (id url : string) (k : string) :
  is_Some (({[ metaKeyGiteaId := id; metaKeyGiteaUrl := url ]}
            : gmap string string) !! k) ->
  In k exportKeys.
Proof.
  intros [v H]. unfold exportKeys.
  destruct (decide (k = metaKeyGiteaId)) as [->|H1]; [now left |].
  destruct (decide (k = metaKeyGiteaUrl)) as [->|H2]; [right; now left |].
  rewrite !lookup_insert_ne in H by congruence.
  rewrite lookup_singleton_ne in H by congruence. discriminate.
Qed.

(** *** The steps of the exporter *)

Lemma exportKeeps_report (r : ExportResult) : preservesE exportKeeps (report r).
Proof.
  intros x. split; [reflexivity |]. do 3 (split; [reflexivity |]). cbn.
  split; [eexists; reflexivity | exists []; now rewrite List.app_nil_r].
Qed.

Lemma exportKeeps_record (c : RemoteWrite) : preservesE exportKeeps (record c).
Proof.
  intros x. split; [reflexivity |]. do 3 (split; [reflexivity |]). cbn.
  split; [exists []; now rewrite List.app_nil_r | eexists; reflexivity].
Qed.

Lemma exportKeeps_cacheOperationID (key : Id) (value : string) :
  preservesE exportKeeps (cacheOperationID key value).
Proof.
  intros x. split; [reflexivity |]. do 3 (split; [reflexivity |]). cbn.
  split; exists []; now rewrite List.app_nil_r.
Qed.

Lemma exportKeeps_onStore {A : Type} (f : cache.RepoCache -> A * cache.RepoCache) :
  (forall r, storeKept r (snd (f r))) -> preservesE exportKeeps (onStore f).
Proof.
  intros Hf x. unfold onStore. specialize (Hf (store x)).
  destruct (f (store x)) as [a r]. split; [exact Hf |].
  do 3 (split; [reflexivity |]). cbn.
  split; exists []; now rewrite List.app_nil_r.
Qed.

End HistoryKept.

Ltac export_step :=
  lazymatch goal with
  | |- preservesE _ (_ ≫= _) => apply preservesE_bind; [typeclasses eauto | | intros ?]
  | |- preservesE _ (mret _) => apply preservesE_ret; typeclasses eauto
  | |- preservesE _ (crash _) => apply preservesE_crash; typeclasses eauto
  | |- preservesE _ get => apply preservesE_get; typeclasses eauto
  | |- preservesE _ (derefBug _) => apply preservesE_derefBug; typeclasses eauto
  | |- preservesE exportKeeps (report _) => apply exportKeeps_report
  | |- preservesE exportKeeps (record _) => apply exportKeeps_record
  | |- preservesE exportKeeps (cacheOperationID _ _) => apply exportKeeps_cacheOperationID
  | |- preservesE exportKeeps (onStore (cache.SetMetadata _ _ _)) =>
      apply exportKeeps_onStore; intros ?; apply storeKept_SetMetadata;
      first [apply keys_of_creation | apply keys_of_export]
  | |- preservesE exportKeeps (CommitAsNeeded _) =>
      apply exportKeeps_onStore; intros ?; apply storeKept_Commit
  | |- preservesE _ (match ?x with _ => _ end) => destruct x
  end.

Section ExportKeepsHistory.

Variable srv : Server.
Variable ctxErr : option error.

Lemma exportKeeps_exported (b : Id) (op : bug.Operation) (id : Z) (w : Walk) :
  preservesE exportKeeps (exported b op id w).
Proof. unfold exported, markOperationAsExported. repeat export_step. Qed.

Lemma exportKeeps_exportOperation (b : Id) (bugGiteaID : Z) (bugCreationId : Id)
    (op : bug.Operation) (w : Walk) :
  preservesE exportKeeps (exportOperation srv b bugGiteaID bugCreationId op w).
Proof.
  unfold exportOperation, addCommentGiteaIssue, editCommentGiteaIssue,
    updateGiteaIssueBody, updateGiteaIssueStatus, updateGiteaIssueTitle,
    updateGiteaIssueLabels, updateIssue.
  repeat first [apply exportKeeps_exported | export_step].
Qed.

Lemma exportKeeps_exportOperations (b : Id) (bugGiteaID : Z) (bugCreationId : Id)
    (ops : list bug.Operation) :
  forall w : Walk,
    preservesE exportKeeps (exportOperations srv b bugGiteaID bugCreationId ops w).
Proof.
  induction ops as [|op rest IH]; intros w; cbn [exportOperations].
  - export_step.
  - repeat first [apply exportKeeps_exportOperation | apply IH | export_step].
Qed.

Lemma exportKeeps_remoteIssue (b : Id) (snapshot : bug.Snapshot)
    (createOp : bug.Operation) (title message : string) :
  preservesE exportKeeps (remoteIssue srv b snapshot createOp title message).
Proof.
  unfold remoteIssue, createGiteaIssue. cbv zeta. repeat export_step.
Qed.

Lemma exportKeeps_exportBug (b : Id) : preservesE exportKeeps (exportBug srv b).
Proof.
  unfold exportBug. cbv zeta.
  repeat first [ apply exportKeeps_remoteIssue | apply exportKeeps_exportOperations
               | export_step ].
Qed.

Lemma exportKeeps_exportBugs (since : Z) (allIdentitiesIds allBugsIds : list Id) :
  preservesE exportKeeps (exportBugs srv ctxErr since allIdentitiesIds allBugsIds).
Proof.
  induction allBugsIds as [|id rest IH]; cbn [exportBugs]; [export_step |].
  cbv zeta. repeat first [apply exportKeeps_exportBug | exact IH | export_step].
Qed.

Lemma exportKeeps_ExportAll (since : Z) :
  preservesE exportKeeps (ExportAll srv ctxErr since).
Proof.
  unfold ExportAll. repeat first [apply exportKeeps_exportBugs | export_step].
Qed.

End ExportKeepsHistory.

(** X24 (export.go, ExportAll and everything it calls): an export pass
    never rewrites the local history. Whatever the remote instance
    answers and however the pass ends, every bug of the store is still
    there, in place; each of its operations keeps its id, author, time
    and kind, and every metadata entry it had; entries are only added
    under the keys of the remote id, URL and base URL; the operations
    appended to a bug are all SetMetadata operations. The identities, the
    credentials, the configuration and the clients of the exporter are
    untouched, and results and calls are only added. *)
Theorem X24_export_keeps_history (srv : Server) (ctxErr : option error) (since : Z)
    (x : ExportState) :
  exportKeeps x (snd (ExportAll srv ctxErr since x)).
Proof. apply exportKeeps_ExportAll. Qed.

(** * The bug that the exporter created *)

Section CreatedBug.

Local Open Scope list_scope.

Lemma ResolveBug_kept (r r' : cache.RepoCache) (b : Id) (bc : cache.BugCache) :
  storeKept r r' ->
  cache.ResolveBug r b = Some bc ->
  exists bc' : cache.BugCache, cache.ResolveBug r' b = Some bc' /\ bugKept bc bc'.
Proof.
  intros (Hb & _). unfold cache.ResolveBug.
  induction Hb as [|x y l k Hxy _ IH]; [discriminate |].
  cbn [List.find]. destruct Hxy as [Hid Hops]. rewrite Hid.
  destruct (N.eqb (cache.bug_Id x) b).
  - intros H. injection H as <-. exists y. split; [reflexivity |]. now split.
  - exact IH.
Qed.

Lemma head_kept (bc bc' : cache.BugCache) (o : bug.Operation) (rest : list bug.Operation) :
  bugKept bc bc' ->
  cache.bug_ops bc = o :: rest ->
  exists (o' : bug.Operation) (rest' : list bug.Operation),
    cache.bug_ops bc' = o' :: rest' /\ opKept o o'.
Proof.
  intros (_ & ops & news & Hops & Hk & _) Ho. rewrite Ho in Hk.
  inversion Hk as [|? o' ? ops' Hoo' _]; subst.
  exists o', (ops' ++ news). split; [now rewrite Hops | exact Hoo'].
Qed.

(** The store after the creation operation of the bug [b] was marked as
    exported. *)
Lemma ResolveBug_marked (r : cache.RepoCache) (b : Id) (bc : cache.BugCache)
    (createOp : bug.Operation) (rest : list bug.Operation)
    (new : gmap string string) :
  cache.ResolveBug r b = Some bc ->
  cache.bug_ops bc = createOp :: rest ->
  exists (bc' : cache.BugCache) (rest' : list bug.Operation),
    cache.ResolveBug
      (cache.Commit b (snd (cache.SetMetadata b (bug.op_Id createOp) new r))) b
    = Some bc'
    /\ cache.bug_ops bc' = bug.attach new createOp :: rest'.
Proof.
  intros Hb Ho. unfold cache.Commit. cbn [cache.SetMetadata snd].
  eexists _, _. split.
  - apply ResolveBug_updateBug; [intros x; reflexivity |].
    match goal with
    | |- cache.ResolveBug (cache.bump ?r') b = _ =>
        change (cache.ResolveBug (cache.bump r') b) with (cache.ResolveBug r' b)
    end.
    apply ResolveBug_updateBug; [intros x; reflexivity | exact Hb].
  - cbn [cache.bug_ops]. rewrite Ho. cbn [map app]. now rewrite N.eqb_refl.
Qed.

Lemma derefBug_run (b : Id) (x : ExportState) (bc : cache.BugCache) :
  cache.ResolveBug (store x) b = Some bc -> derefBug b x = (Ok bc, x).
Proof. intros H. unfold derefBug. now rewrite H. Qed.

(** The creation of the remote issue of a bug that has none. *)
Lemma remoteIssue_creates (srv : Server) (b : Id) (snapshot : bug.Snapshot)
    (createOp : bug.Operation) (title message : string) (x : ExportState)
    (client : Client) (issue : Issue) :
  bug.GetCreateMetadata snapshot metaKeyGiteaId = None ->
  identityClient (ge x) !! bug.op_Author createOp = Some client ->
  CreateIssue srv client (repositoryID (ge x)) title message = inr issue ->
  remoteIssue srv b snapshot createOp title message x
  = (Ok (Some (issue_IID issue, strconv.Itoa (issue_IID issue))),
     {| ge := ge x;
        store := cache.Commit b
                   (snd (cache.SetMetadata b (bug.op_Id createOp)
                           {[ metaKeyGiteaId := strconv.Itoa (issue_IID issue);
                              metaKeyGiteaUrl := issue_WebURL issue;
                              metaKeyGiteaBaseUrl := "" ]} (store x)));
        results := results x ++ [ExportBug b];
        calls := calls x
                 ++ [CallCreateIssue client (repositoryID (ge x)) title message] |}).
Proof.
  intros Hid Hclient Hcreate.
  unfold remoteIssue, mbind, M_bind, get. cbv zeta. rewrite Hid.
  unfold getIdentityClient. rewrite Hclient.
  unfold createGiteaIssue, mbind, M_bind, record, modify. rewrite Hcreate.
  reflexivity.
Qed.

End CreatedBug.

(** X25 (export.go, exportBug): the exporter never comes back to a bug
    it created. Let [exportBug] create the remote issue of a bug whose
    creation operation carries no origin, no remote id and no base URL.
    Whatever happens in the rest of that call, a second [exportBug] of the
    bug, under a configuration whose base URL is not empty, issues no call
    and changes nothing: it reports that the issue was imported from
    another instance and returns, so that operations added to the bug
    since are not exported. *)
Theorem X25_created_bug_is_skipped_later (srv : Server) (b : Id) (s : ExportState)
    (bc : cache.BugCache) (createOp : bug.Operation) (rest : list bug.Operation)
    (title message : string) (client : Client) (issue : Issue) :
  cache.ResolveBug (store s) b = Some bc ->
  cache.bug_ops bc = createOp :: rest ->
  bug.op_Kind createOp = bug.CreateOperation title message ->
  bug.GetMetadata createOp MetaKeyOrigin = None ->
  bug.GetMetadata createOp metaKeyGiteaId = None ->
  bug.GetMetadata createOp metaKeyGiteaBaseUrl = None ->
  identityClient (ge s) !! bug.op_Author createOp = Some client ->
  CreateIssue srv client (repositoryID (ge s)) title message = inr issue ->
  mapGet (conf (ge s)) confKeyGiteaBaseUrl <> "" ->
  exportBug srv b (snd (exportBug srv b s))
  = (Ok tt,
     {| ge := ge (snd (exportBug srv b s));
        store := store (snd (exportBug srv b s));
        results := (results (snd (exportBug srv b s))
                    ++ [ExportNothing b
                          "skipping issue imported from another Gitea instance"])%list;
        calls := calls (snd (exportBug srv b s)) |}).
Proof.
  intros Hb Hops Hkind Horigin Hid Hbase Hclient Hcreate Hconf.
  set (new := ({[ metaKeyGiteaId := strconv.Itoa (issue_IID issue);
                  metaKeyGiteaUrl := issue_WebURL issue;
                  metaKeyGiteaBaseUrl := "" ]} : gmap string string)).
  set (mid := {| ge := ge s;
                 store := cache.Commit b
                            (snd (cache.SetMetadata b (bug.op_Id createOp) new (store s)));
                 results := (results s ++ [ExportBug b])%list;
                 calls := (calls s
                           ++ [CallCreateIssue client (repositoryID (ge s)) title message])%list
              |}).
  assert (exists k : M ExportState unit,
            preservesE exportKeeps k /\ exportBug srv b s = k mid) as (k & Hk & Hfirst).
  { eexists. split; [| unfold exportBug].
    2: { rewrite (bind_Ok _ _ _ _ _ (derefBug_run _ _ _ Hb)). cbv zeta.
         unfold bug.GetCreateMetadata at 1 2, cache.Snapshot at 1 2 3, bug.Compile at 1 2 3.
         cbn [bug.Operations].
         rewrite Hops, Horigin, Hkind.
         erewrite (bind_Ok (remoteIssue _ _ _ _ _ _));
           [| apply (remoteIssue_creates srv b _ createOp title message s client issue);
              [unfold bug.GetCreateMetadata, cache.Snapshot, bug.Compile;
               cbn [bug.Operations]; now rewrite Hops
              | exact Hclient | exact Hcreate]].
         fold new. fold mid.
         match goal with |- ?f mid = _ => pattern mid at 1 end.
         reflexivity. }
    cbv beta.
    repeat first [apply exportKeeps_exportOperations | export_step]. }
  rewrite Hfirst. set (s1 := snd (k mid)).
  destruct (Hk mid) as (Hstore & Hconf1 & _). fold s1 in Hstore, Hconf1.
  destruct (ResolveBug_marked (store s) b bc createOp rest new Hb Hops)
    as (bcm & restm & Hbm & Hopsm).
  destruct (ResolveBug_kept _ _ b bcm Hstore Hbm) as (bc1 & Hb1 & Hkept).
  destruct (head_kept _ _ _ _ Hkept Hopsm) as (o1 & rest1 & Hops1 & Ho1).
  destruct Ho1 as (_ & _ & _ & Hkind1 & Hmore & Hother).
  cbn [bug.attach bug.op_Kind bug.op_Metadata] in Hkind1, Hmore, Hother.
  assert (bug.GetMetadata o1 MetaKeyOrigin = None) as Horigin1.
  { unfold bug.GetMetadata. rewrite Hother.
    - apply lookup_union_None. split; [exact Horigin |]. reflexivity.
    - unfold exportKeys. cbn. intros [H | [H | [H | []]]]; discriminate. }
  assert (bug.GetMetadata o1 metaKeyGiteaId = Some (strconv.Itoa (issue_IID issue)))
    as Hid1.
  { apply Hmore. apply lookup_union_Some_raw. right. split; [exact Hid |].
    unfold new. apply lookup_insert_eq. }
  assert (bug.GetMetadata o1 metaKeyGiteaBaseUrl = Some "") as Hbase1.
  { apply Hmore. apply lookup_union_Some_raw. right. split; [exact Hbase |].
    unfold new. rewrite !lookup_insert_ne by discriminate. apply lookup_singleton_eq. }
  unfold exportBug.
  rewrite (bind_Ok _ _ _ _ _ (derefBug_run _ _ _ Hb1)). cbv zeta.
  unfold bug.GetCreateMetadata at 1 2, cache.Snapshot at 1 2 3, bug.Compile at 1 2 3.
  cbn [bug.Operations].
  rewrite Hops1, Horigin1, Hkind1, Hkind.
  unfold remoteIssue, mbind, M_bind, get. cbv zeta.
  unfold bug.GetCreateMetadata, cache.Snapshot, bug.Compile. cbn [bug.Operations].
  rewrite Hops1, Hid1, Hbase1.
  change (conf (ge mid)) with (conf (ge s)) in Hconf1. rewrite Hconf1.
  apply not_eq_sym, String.eqb_neq in Hconf. rewrite Hconf. reflexivity.
Qed.

Lemma X25_created_bug_is_skipped_later_witness :
  exportBug (Scenario.remote [] []) 11%N
    (snd (exportBug (Scenario.remote [] []) 11%N (Scenario.exportFrom Scenario.localBug)))
  = (Ok tt,
     {| ge := ge (snd (exportBug (Scenario.remote [] []) 11%N
                         (Scenario.exportFrom Scenario.localBug)));
        store := store (snd (exportBug (Scenario.remote [] []) 11%N
                               (Scenario.exportFrom Scenario.localBug)));
        results := (results (snd (exportBug (Scenario.remote [] []) 11%N
                                    (Scenario.exportFrom Scenario.localBug)))
                    ++ [ExportNothing 11%N
                          "skipping issue imported from another Gitea instance"])%list;
        calls := calls (snd (exportBug (Scenario.remote [] []) 11%N
                               (Scenario.exportFrom Scenario.localBug))) |}).
Proof.
  eapply (X25_created_bug_is_skipped_later (Scenario.remote [] []) 11%N
            (Scenario.exportFrom Scenario.localBug)).
  - reflexivity.
  - reflexivity.
  - reflexivity.
  - reflexivity.
  - reflexivity.
  - reflexivity.
  - vm_compute. reflexivity.
  - reflexivity.
  - vm_compute. discriminate.
Defined.

(** * The export of one operation *)

(** X26 (export.go, exportBug, the loop over the operations): the export
    of one operation issues at most one remote call. When it issues one,
    the operation carries no remote id, the call is made with the client
    cached for the author of the operation, and it is a call on the
    remote issue of the bug in the repository of the exporter: a new
    note, the update of a note, or the update of the issue, never the
    creation of an issue. *)
Theorem X26_exportOperation_at_most_one_call (srv : Server) (b : Id) (bugGiteaID : Z)
    (bugCreationId : Id) (op : bug.Operation) (w : Walk) (x : ExportState) :
  calls (snd (exportOperation srv b bugGiteaID bugCreationId op w x)) = calls x
  \/ exists (c : RemoteWrite) (client : Client),
       calls (snd (exportOperation srv b bugGiteaID bugCreationId op w x))
       = (calls x ++ [c])%list
       /\ bug.GetMetadata op metaKeyGiteaId = None
       /\ identityClient (ge x) !! bug.op_Author op = Some client
       /\ match c with
          | CallCreateIssue _ _ _ _ => False
          | CallCreateIssueNote gc repository issueID _
          | CallUpdateIssueNote gc repository issueID _ _
          | CallUpdateIssue gc repository issueID _ =>
              gc = client /\ repository = repositoryID (ge x) /\ issueID = bugGiteaID
          end.
Proof.
  unfold exportOperation.
  destruct (bug.op_Kind op) as [title message|message|targetId message|status|title
                                |added removed|t m] eqn:Hkind;
    try (left; reflexivity);
    (destruct (bug.GetMetadata op metaKeyGiteaId) as [id|] eqn:Hid; [left; reflexivity |]);
    rewrite (bind_Ok get _ x x x eq_refl); unfold getIdentityClient;
    (destruct (identityClient (ge x) !! bug.op_Author op) as [client|] eqn:Hclient;
     [| left; reflexivity]).
  - left. reflexivity.
  - right. eexists _, client. split; [| split; [reflexivity | split; [reflexivity |]]].
    + unfold addCommentGiteaIssue, mbind, M_bind, record, modify.
      destruct (CreateIssueNote srv client (repositoryID (ge x)) bugGiteaID message);
        reflexivity.
    + cbn. auto.
  - destruct (N.eqb targetId bugCreationId).
    + right. eexists _, client. split; [| split; [reflexivity | split; [reflexivity |]]].
      * unfold updateGiteaIssueBody, updateIssue, mbind, M_bind, record, modify.
        cbn [mret M_ret].
        destruct (UpdateIssue srv client (repositoryID (ge x)) bugGiteaID _); reflexivity.
      * cbn. auto.
    + destruct (cachedOperationIDs (ge x) !! targetId) as [commentID|];
        [| left; reflexivity].
      destruct (strconv.Atoi commentID) as [e|commentIDint]; [left; reflexivity |].
      right. eexists _, client. split; [| split; [reflexivity | split; [reflexivity |]]].
      * unfold editCommentGiteaIssue, mbind, M_bind, record, modify. cbn [mret M_ret].
        destruct (UpdateIssueNote srv client (repositoryID (ge x)) bugGiteaID
                    commentIDint message); reflexivity.
      * cbn. auto.
  - unfold updateGiteaIssueStatus.
    destruct (status =? bug.OpenStatus);
      [| destruct (status =? bug.ClosedStatus); [| left; reflexivity]].
    + right. eexists _, client. split; [| split; [reflexivity | split; [reflexivity |]]].
      * unfold updateIssue, mbind, M_bind, record, modify. cbn [mret M_ret].
        destruct (UpdateIssue srv client (repositoryID (ge x)) bugGiteaID _); reflexivity.
      * cbn. auto.
    + right. eexists _, client. split; [| split; [reflexivity | split; [reflexivity |]]].
      * unfold updateIssue, mbind, M_bind, record, modify. cbn [mret M_ret].
        destruct (UpdateIssue srv client (repositoryID (ge x)) bugGiteaID _); reflexivity.
      * cbn. auto.
  - right. eexists _, client. split; [| split; [reflexivity | split; [reflexivity |]]].
    + unfold updateGiteaIssueTitle, updateIssue, mbind, M_bind, record, modify.
      cbn [mret M_ret].
      destruct (UpdateIssue srv client (repositoryID (ge x)) bugGiteaID _); reflexivity.
    + cbn. auto.
  - right. eexists _, client. split; [| split; [reflexivity | split; [reflexivity |]]].
    + cbv zeta.
      unfold updateGiteaIssueLabels, updateIssue, mbind, M_bind, record, modify.
      cbn [mret M_ret].
      destruct (UpdateIssue srv client (repositoryID (ge x)) bugGiteaID _); reflexivity.
    + cbn. auto.
Qed.

Section Labels.

Local Open Scope list_scope.

Lemma fold_add_labels (added : list string) :
  forall (set : gset string) (l : string),
    l ∈ fold_left (fun set label => {[ label ]} ∪ set) added set
    <-> l ∈ set \/ In l added.
Proof.
  induction added as [|a added IH]; intros set l; cbn [fold_left In].
  - tauto.
  - rewrite IH, elem_of_union, elem_of_singleton. intuition congruence.
Qed.

Lemma fold_remove_labels (removed : list string) :
  forall (set : gset string) (l : string),
    l ∈ fold_left (fun set label => set ∖ {[ label ]}) removed set
    <-> l ∈ set /\ ~ In l removed.
Proof.
  induction removed as [|a removed IH]; intros set l; cbn [fold_left In].
  - tauto.
  - rewrite IH, elem_of_difference, elem_of_singleton. intuition congruence.
Qed.

End Labels.

(** X27 (export.go, exportBug, case LabelChangeOperation): the export of a
    change of labels pushes the whole running set of labels. For an
    operation without remote id whose author has a client, the one call
    is the update of the remote issue with a list of labels and nothing
    else; the list holds no label twice, and a label is in it exactly
    when it was in the running set of the walk or is added by the
    operation, and is not removed by the operation. *)
Theorem X27_label_change_pushes_running_set (srv : Server) (b : Id) (bugGiteaID : Z)
    (bugCreationId : Id) (op : bug.Operation) (w : Walk) (x : ExportState)
    (added removed : list string) (client : Client) :
  bug.op_Kind op = bug.LabelChangeOperation added removed ->
  bug.GetMetadata op metaKeyGiteaId = None ->
  identityClient (ge x) !! bug.op_Author op = Some client ->
  exists labels : list string,
    calls (snd (exportOperation srv b bugGiteaID bugCreationId op w x))
    = (calls x
       ++ [CallUpdateIssue client (repositoryID (ge x)) bugGiteaID
             {| opt_Title := None; opt_Description := None;
                opt_Labels := Some labels; opt_StateEvent := None |}])%list
    /\ List.NoDup labels
    /\ forall l : string,
         In l labels <-> (l ∈ labelSet w \/ In l added) /\ ~ In l removed.
Proof.
  intros Hkind Hid Hclient. unfold exportOperation. rewrite Hkind, Hid.
  rewrite (bind_Ok get _ x x x eq_refl). unfold getIdentityClient. rewrite Hclient.
  cbv zeta.
  set (set := fold_left (fun set label => set ∖ {[ label ]}) removed
                (fold_left (fun set label => {[ label ]} ∪ set) added (labelSet w))).
  exists (elements set). split; [| split].
  - unfold updateGiteaIssueLabels, updateIssue, mbind, M_bind, record, modify.
    cbn [mret M_ret].
    destruct (UpdateIssue srv client (repositoryID (ge x)) bugGiteaID _); reflexivity.
  - apply NoDup_ListNoDup, NoDup_elements.
  - intros l. rewrite <- list_elem_of_In, elem_of_elements. unfold set.
    now rewrite fold_remove_labels, fold_add_labels.
Qed.

Lemma X27_label_change_pushes_running_set_witness :
  exists labels : list string,
    calls (snd (exportOperation (Scenario.remote [] []) 11%N 1 12%N Cases.relabel
                  Cases.seenC (Scenario.exportFrom Scenario.localBug)))
    = (calls (Scenario.exportFrom Scenario.localBug)
       ++ [CallUpdateIssue (buildClient Scenario.baseURL Scenario.tokenOfAlice)
             (repositoryID (ge (Scenario.exportFrom Scenario.localBug))) 1
             {| opt_Title := None; opt_Description := None;
                opt_Labels := Some labels; opt_StateEvent := None |}])%list
    /\ List.NoDup labels
    /\ forall l : string,
         In l labels <-> (l ∈ labelSet Cases.seenC \/ In l ["A"; "B"]) /\ ~ In l ["A"].
Proof.
  apply (X27_label_change_pushes_running_set (Scenario.remote [] []) 11%N 1 12%N
           Cases.relabel Cases.seenC (Scenario.exportFrom Scenario.localBug)
           ["A"; "B"] ["A"] (buildClient Scenario.baseURL Scenario.tokenOfAlice)).
  - reflexivity.
  - reflexivity.
  - vm_compute. reflexivity.
Defined.

(** * An exporter without clients *)

Section NoClient.

Local Open Scope list_scope.

#[local] Instance silent_preorder : PreOrder silent.
Proof.
  split.
  - intros x. now split.
  - intros x1 x2 x3 [E1 E2] [E3 E4]. split; congruence.
Qed.

Lemma silent_report (r : ExportResult) : preservesE silent (report r).
Proof. intros x. now split. Qed.

Lemma HasAnyActor_nil (snap : bug.Snapshot) : HasAnyActor snap [] = false.
Proof.
  unfold HasAnyActor. induction (bug.Operations snap) as [|op ops IH]; [reflexivity |].
  cbn [existsb]. exact IH.
Qed.

Variable srv : Server.
Variable ctxErr : option error.

Lemma silent_exportBugs_nil (since : Z) (allBugsIds : list Id) :
  preservesE silent (exportBugs srv ctxErr since [] allBugsIds).
Proof.
  induction allBugsIds as [|id rest IH]; cbn [exportBugs]; [export_step |].
  destruct ctxErr; [export_step |].
  apply preservesE_bind; [typeclasses eauto | export_step | intros x].
  destruct (cache.ResolveBug (store x) id) as [bc|]; [| apply silent_report].
  cbv zeta. rewrite HasAnyActor_nil.
  destruct (CreateTime (cache.Snapshot bc) <? since).
  - apply preservesE_bind; [typeclasses eauto | apply silent_report | intros _; exact IH].
  - apply preservesE_bind; [typeclasses eauto | export_step | intros _; exact IH].
Qed.

End NoClient.

(** X28 (export.go, ExportAll): an exporter that holds no client exports
    nothing. When no identity has a cached client, the pass issues no
    call and leaves the store as it is, whatever the bugs of the store. *)
Theorem X28_no_client_no_export (srv : Server) (ctxErr : option error) (since : Z)
    (x : ExportState) :
  identityClient (ge x) = ∅ ->
  store (snd (ExportAll srv ctxErr since x)) = store x
  /\ calls (snd (ExportAll srv ctxErr since x)) = calls x.
Proof.
  intros Hnone. unfold ExportAll. rewrite (bind_Ok get _ x x x eq_refl).
  rewrite Hnone, map_to_list_empty. cbn [map].
  apply (silent_exportBugs_nil srv ctxErr since _ x).
Qed.

Lemma X28_no_client_no_export_witness :
  store (snd (ExportAll (Scenario.remote [] []) None 0
                (Scenario.exportFrom
                   (cache.setBugs (Scenario.emptyStore [])
                      (cache.bugs Scenario.localBug)))))
  = store (Scenario.exportFrom
             (cache.setBugs (Scenario.emptyStore []) (cache.bugs Scenario.localBug)))
  /\ calls (snd (ExportAll (Scenario.remote [] []) None 0
                   (Scenario.exportFrom
                      (cache.setBugs (Scenario.emptyStore [])
                         (cache.bugs Scenario.localBug)))))
     = calls (Scenario.exportFrom
                (cache.setBugs (Scenario.emptyStore []) (cache.bugs Scenario.localBug))).
Proof.
  apply (X28_no_client_no_export (Scenario.remote [] []) None 0
           (Scenario.exportFrom
              (cache.setBugs (Scenario.emptyStore []) (cache.bugs Scenario.localBug)))).
  reflexivity.
Defined.

(** * The initialisation of the exporter *)

(** X29 (export.go, cacheAllClient): after [Init], all the clients of the
    exporter are one client. Whatever the credentials of the store, two
    identities that have a cached client have the same one: each client
    is built from the first listed credential, not from the credential of
    its identity. *)
Theorem X29_Init_clients_are_one (repo : cache.RepoCache) (cfg : gmap string string)
    (rid : string) (r : option error) (g : giteaExporter) (id1 id2 : Id)
    (c1 c2 : Client) :
  Init repo cfg rid = Return (r, g) ->
  identityClient g !! id1 = Some c1 ->
  identityClient g !! id2 = Some c2 ->
  c1 = c2.
Proof.
  unfold Init, cacheAllClient. intros H H1 H2.
  destruct (cacheAllClientLoop_first_token _ _ _ _ _ _ H id1 c1 H1)
    as [Habs | (f1 & Hf1 & ->)]; [cbn in Habs; now rewrite lookup_empty in Habs |].
  destruct (cacheAllClientLoop_first_token _ _ _ _ _ _ H id2 c2 H2)
    as [Habs | (f2 & Hf2 & ->)]; [cbn in Habs; now rewrite lookup_empty in Habs |].
  congruence.
Qed.

Lemma X29_Init_clients_are_one_witness :
  exists c1 c2 : Client,
    identityClient (Scenario.exporterOf Scenario.twoIdentities) !! 10%N = Some c1
    /\ identityClient (Scenario.exporterOf Scenario.twoIdentities) !! 11%N = Some c2
    /\ c1 = c2.
Proof.
  exists (buildClient Scenario.baseURL Scenario.tokenOfAlice),
         (buildClient Scenario.baseURL Scenario.tokenOfAlice).
  split; [vm_compute; reflexivity |]. split; [vm_compute; reflexivity |].
  apply (X29_Init_clients_are_one Scenario.twoIdentities Scenario.cfg "alice/demo" None
           (Scenario.exporterOf Scenario.twoIdentities) 10%N 11%N).
  - vm_compute. reflexivity.
  - vm_compute. reflexivity.
  - vm_compute. reflexivity.
Defined.

(** * The round trip, bug by bug *)

Section ImportAccounting.

Local Open Scope list_scope.

Lemma accounted_app_l (sent sent' : list ImportResult) (op : bug.Operation) :
  accounted sent op -> accounted (sent ++ sent') op.
Proof. intros [H | H]; [now left | right]. apply in_or_app. now left. Qed.

Lemma accounted_app_r (sent sent' : list ImportResult) (op : bug.Operation) :
  accounted sent' op -> accounted (sent ++ sent') op.
Proof. intros [H | H]; [now left | right]. apply in_or_app. now right. Qed.

Lemma bugAccounted_refl (sent : list ImportResult) (b : cache.BugCache) :
  bugAccounted sent b b.
Proof.
  split; [reflexivity |]. exists []. split; [now rewrite List.app_nil_r | constructor].
Qed.

Lemma Forall2_bugAccounted_refl (sent : list ImportResult) (l : list cache.BugCache) :
  Forall2 (bugAccounted sent) l l.
Proof. induction l; constructor; [apply bugAccounted_refl | assumption]. Qed.

Lemma bugAccounted_trans (sent sent' : list ImportResult) (a b c : cache.BugCache) :
  bugAccounted sent a b -> bugAccounted sent' b c -> bugAccounted (sent ++ sent') a c.
Proof.
  intros (Hid & l & Hl & Hf) (Hid' & l' & Hl' & Hf'). split; [congruence |].
  exists (l ++ l'). split; [now rewrite Hl', Hl, <- List.app_assoc |].
  apply List.Forall_app. split.
  - eapply List.Forall_impl; [| exact Hf]. intros op. apply accounted_app_l.
  - eapply List.Forall_impl; [| exact Hf']. intros op. apply accounted_app_r.
Qed.

Lemma Forall2_bugAccounted_trans (sent sent' : list ImportResult)
    (l k m : list cache.BugCache) :
  Forall2 (bugAccounted sent) l k -> Forall2 (bugAccounted sent') k m ->
  Forall2 (bugAccounted (sent ++ sent')) l m.
Proof.
  intros H. revert m. induction H as [|x y l k Hxy _ IH]; intros m Hm.
  - inversion Hm. constructor.
  - inversion Hm as [|? z ? m' Hyz Hrest]; subst. constructor.
    + exact (bugAccounted_trans _ _ _ _ _ Hxy Hyz).
    + now apply IH.
Qed.

Lemma storeAccounted_refl (sent : list ImportResult) (r r' : cache.RepoCache) :
  cache.bugs r' = cache.bugs r -> storeAccounted sent r r'.
Proof.
  intros H. exists (cache.bugs r), []. rewrite H.
  repeat split; [now rewrite List.app_nil_r | apply Forall2_bugAccounted_refl | constructor].
Qed.

Lemma storeAccounted_trans (sent sent' : list ImportResult) (r1 r2 r3 : cache.RepoCache) :
  storeAccounted sent r1 r2 -> storeAccounted sent' r2 r3 ->
  storeAccounted (sent ++ sent') r1 r3.
Proof.
  intros (bs & news & Hb & Hbs & Hn) (bs' & news' & Hb' & Hbs' & Hn').
  rewrite Hb in Hbs'.
  destruct (Forall2_app_split _ _ _ _ Hbs') as (m1 & m2 & -> & H1 & H2).
  exists m1, (m2 ++ news'). repeat split.
  - now rewrite Hb', <- List.app_assoc.
  - exact (Forall2_bugAccounted_trans _ _ _ _ _ Hbs H1).
  - apply List.Forall_app. split.
    + clear - Hn H2. revert m2 H2.
      induction Hn as [|n news Hn0 _ IH]; intros m2 H2; inversion H2 as [|? y ? m' Hny Hrest];
        subst; constructor; [| now apply IH].
      destruct Hny as (_ & added & -> & Ha). apply List.Forall_app. split.
      * eapply List.Forall_impl; [| exact Hn0]. intros op. apply accounted_app_l.
      * eapply List.Forall_impl; [| exact Ha]. intros op. apply accounted_app_r.
    + eapply List.Forall_impl; [| exact Hn']. intros b Hb0.
      eapply List.Forall_impl; [| exact Hb0]. intros op. apply accounted_app_r.
Qed.

#[global] Instance importAccounts_preorder : PreOrder importAccounts.
Proof.
  split.
  - intros s. exists []. split; [now rewrite List.app_nil_r |].
    now apply storeAccounted_refl.
  - intros s1 s2 s3 (sent & Ho & Hs) (sent' & Ho' & Hs').
    exists (sent ++ sent'). split; [now rewrite Ho', Ho, <- List.app_assoc |].
    exact (storeAccounted_trans _ _ _ _ _ Hs Hs').
Qed.

(** *** The steps of the importer *)

Lemma accounts_send (r : ImportResult) : preserves importAccounts (send r).
Proof.
  intros s. exists [r]. split; [reflexivity |]. now apply storeAccounted_refl.
Qed.

Lemma accounts_advance (srv : Server) (ctxErr : option error)
    (call : Server -> option error -> CompositeIterator.Iterator
            -> CompositeIterator.Call) :
  preserves importAccounts (advance srv ctxErr call).
Proof.
  intros s. unfold advance.
  destruct (call srv ctxErr (iterator s)) as [[[more it]|msg] fs]; cbn [snd];
    (exists []; split; [cbn; now rewrite List.app_nil_r | now apply storeAccounted_refl]).
Qed.

Lemma accounts_modify_iterator (f : ImportState -> CompositeIterator.Iterator) :
  preserves importAccounts
    (modify (fun s => {| repo := repo s; iterator := f s; out := out s;
                         fetches := fetches s |})).
Proof.
  intros s. exists []. split; [cbn; now rewrite List.app_nil_r |].
  now apply storeAccounted_refl.
Qed.

Lemma accounts_onRepo {A : Type} (f : cache.RepoCache -> A * cache.RepoCache) :
  (forall r, storeAccounted [] r (snd (f r))) -> preserves importAccounts (onRepo f).
Proof.
  intros Hf s. unfold onRepo. specialize (Hf (repo s)).
  destruct (f (repo s)) as [a r]. exists []. split; [cbn; now rewrite List.app_nil_r |].
  exact Hf.
Qed.

Lemma storeAccounted_append (sent : list ImportResult) (b author : Id) (t : Z)
    (kind : bug.OpKind) (metadata : gmap string string) (r : cache.RepoCache) :
  accounted sent (fst (cache.appendRaw b author t kind metadata r)) ->
  storeAccounted sent r (snd (cache.appendRaw b author t kind metadata r)).
Proof.
  intros Ha. cbn [cache.appendRaw snd fst] in *.
  eexists _, []. split; [cbn; now rewrite List.app_nil_r |]. split; [| constructor].
  induction (cache.bugs r) as [|x l IH]; cbn [map]; constructor; [| exact IH].
  destruct (N.eqb (cache.bug_Id x) b); [| apply bugAccounted_refl].
  split; [reflexivity |]. cbn. eexists. split; [reflexivity |]. now constructor.
Qed.

Lemma tagged_with_id (op : bug.Operation) (v : string) :
  bug.GetMetadata op metaKeyGiteaId = Some v -> tagged op = true.
Proof. intros H. unfold tagged. now rewrite H. Qed.

Lemma accounts_append_tagged (b author : Id) (t : Z) (kind : bug.OpKind) (v : string) :
  preserves importAccounts
    (onRepo (cache.appendRaw b author t kind {[ metaKeyGiteaId := v ]})).
Proof.
  apply accounts_onRepo. intros r. apply storeAccounted_append. left.
  apply (tagged_with_id _ v). apply lookup_singleton_eq.
Qed.

Lemma accounts_edition (b author : Id) (t : Z) (kind : bug.OpKind)
    (metadata : gmap string string) :
  preserves importAccounts
    (op ← onRepo (cache.appendRaw b author t kind metadata);
     send (ImportCommentEdition (bug.op_Id op))).
Proof.
  intros s. cbn. eexists [_]. split; [reflexivity |].
  apply (storeAccounted_append _ b author t kind metadata (repo s)).
  right. cbn. now left.
Qed.

Lemma accounts_NewIdentityRaw (name email login avatarUrl : string)
    (metadata : gmap string string) :
  preserves importAccounts
    (onRepo (cache.NewIdentityRaw name email login avatarUrl metadata)).
Proof. apply accounts_onRepo. intros r. now apply storeAccounted_refl. Qed.

Lemma accounts_Commit (b : Id) :
  preserves importAccounts (onRepo (fun r => (tt, cache.Commit b r))).
Proof.
  apply accounts_onRepo. intros r. cbn [snd]. unfold cache.Commit.
  eexists _, []. split; [cbn; now rewrite List.app_nil_r |]. split; [| constructor].
  induction (cache.bugs r) as [|x l IH]; cbn [map]; constructor; [| exact IH].
  destruct (N.eqb (cache.bug_Id x) b); [| apply bugAccounted_refl].
  split; [reflexivity |]. cbn. exists []. split; [now rewrite List.app_nil_r | constructor].
Qed.

Lemma accounts_NewBugRaw (author : Id) (t : Z) (title message : string)
    (metadata : gmap string string) (v : string) :
  metadata !! metaKeyGiteaId = Some v ->
  preserves importAccounts (onRepo (cache.NewBugRaw author t title message metadata)).
Proof.
  intros Hv. apply accounts_onRepo. intros r. cbn [cache.NewBugRaw snd].
  eexists (cache.bugs r), [_]. split; [reflexivity |].
  split; [apply Forall2_bugAccounted_refl |].
  constructor; [| constructor]. cbn. constructor; [| constructor].
  left. now apply (tagged_with_id _ v).
Qed.

End ImportAccounting.

Ltac accounts_step :=
  first [ apply accounts_edition
        | apply accounts_append_tagged
        | apply accounts_NewIdentityRaw
        | apply accounts_Commit
        | apply accounts_send
        | apply accounts_advance
        | preserve_step ].

Section ImportAccountsFunctions.

Variable srv : Server.
Variable Cleanup : string -> error + string.
Variable ctxErr : option error.

Lemma accounts_ensurePerson (gi : giteaImporter) (id : Z) :
  preserves importAccounts (ensurePerson srv gi id).
Proof. unfold ensurePerson. repeat accounts_step. Qed.

Lemma accounts_ensureIssue (gi : giteaImporter) (issue : Issue) :
  preserves importAccounts (ensureIssue srv Cleanup gi issue).
Proof.
  unfold ensureIssue.
  repeat first [ apply accounts_ensurePerson
               | apply (accounts_NewBugRaw _ _ _ _ _ (parseID (issue_IID issue)));
                 rewrite lookup_insert_ne by discriminate; apply lookup_insert_eq
               | accounts_step ].
Qed.

Lemma accounts_ensureNote (gi : giteaImporter) (b : Id) (note : Note) :
  preserves importAccounts (ensureNote srv Cleanup gi b note).
Proof. unfold ensureNote. repeat first [apply accounts_ensurePerson | accounts_step]. Qed.

Lemma accounts_ensureLabelEvent (gi : giteaImporter) (b : Id) (labelEvent : LabelEvent) :
  preserves importAccounts (ensureLabelEvent srv gi b labelEvent).
Proof.
  unfold ensureLabelEvent. repeat first [apply accounts_ensurePerson | accounts_step].
Qed.

Lemma accounts_importNotes (fuel : nat) (gi : giteaImporter) (b : Id) :
  preserves importAccounts (importNotes srv Cleanup ctxErr fuel gi b).
Proof.
  induction fuel as [|f IH]; cbn [importNotes]; [repeat accounts_step |].
  repeat first [apply accounts_ensureNote | exact IH | accounts_step].
Qed.

Lemma accounts_importLabelEvents (fuel : nat) (gi : giteaImporter) (b : Id) :
  preserves importAccounts (importLabelEvents srv ctxErr fuel gi b).
Proof.
  induction fuel as [|f IH]; cbn [importLabelEvents]; [repeat accounts_step |].
  repeat first [apply accounts_ensureLabelEvent | exact IH | accounts_step].
Qed.

Lemma accounts_importIssues (fuel : nat) (gi : giteaImporter) :
  preserves importAccounts (importIssues srv Cleanup ctxErr fuel gi).
Proof.
  induction fuel as [|f IH]; cbn [importIssues]; [repeat accounts_step |].
  repeat first [ apply accounts_importNotes | apply accounts_importLabelEvents
               | apply accounts_ensureIssue | exact IH | accounts_step ].
Qed.

Lemma accounts_ImportAll (fuel : nat) (gi : giteaImporter) :
  preserves importAccounts (ImportAll srv Cleanup ctxErr fuel gi).
Proof.
  unfold ImportAll. apply preserves_bind; [typeclasses eauto | |].
  - apply accounts_modify_iterator.
  - intros _. repeat first [apply accounts_importIssues | accounts_step].
Qed.

End ImportAccountsFunctions.

Section RoundTripOfOneBug.

Local Open Scope list_scope.

Lemma Forall2_In_r {A B : Type} (P : A -> B -> Prop) (l : list A) (k : list B) (y : B) :
  Forall2 P l k -> In y k -> exists x : A, In x l /\ P x y.
Proof.
  induction 1 as [|a b l k Hab _ IH]; intros Hy; [contradiction |].
  destruct Hy as [<- | Hy].
  - exists a. split; [now left | exact Hab].
  - destruct (IH Hy) as (x & Hx & HP). exists x. split; [now right | exact HP].
Qed.

(** In a store that accounts for [sent], the bug resolved for an id
    whose bugs were all tagged holds only operations accounted for. *)
Lemma resolved_accounted (sent : list ImportResult) (r r' : cache.RepoCache) (b : Id)
    (bc : cache.BugCache) :
  storeAccounted sent r r' ->
  (forall old : cache.BugCache,
     In old (cache.bugs r) -> cache.bug_Id old = b ->
     forallb tagged (cache.bug_ops old) = true) ->
  cache.ResolveBug r' b = Some bc ->
  List.Forall (accounted sent) (cache.bug_ops bc).
Proof.
  intros (bs & news & Hb & Hbs & Hn) Hold Hres. unfold cache.ResolveBug in Hres.
  apply find_some in Hres as [Hin Hid]. apply N.eqb_eq in Hid.
  rewrite Hb in Hin. apply in_app_or in Hin as [Hin | Hin].
  - destruct (Forall2_In_r _ _ _ _ Hbs Hin) as (old & Ho & Hid' & added & -> & Ha).
    apply List.Forall_app. split; [| exact Ha].
    apply List.Forall_forall. intros op Hop. left.
    exact (proj1 (forallb_forall _ _) (Hold old Ho (eq_trans (eq_sym Hid') Hid)) op Hop).
  - exact (proj1 (List.Forall_forall _ _) Hn bc Hin).
Qed.

(** [exportBug] on a bug whose operations are all tagged issues no
    call and leaves the store as it is, whatever the other bugs. *)
Lemma exportBug_of_tagged_bug (srv : Server) (b : Id) (x : ExportState)
    (bc : cache.BugCache) :
  cache.ResolveBug (store x) b = Some bc ->
  forallb tagged (cache.bug_ops bc) = true ->
  silent x (snd (exportBug srv b x)).
Proof.
  intros Eb Hops. unfold exportBug, mbind at 1, M_bind at 1, derefBug. rewrite Eb.
  cbv zeta.
  match goal with |- silent x (snd (?m x)) => cut (quiet m); [intros Hq; apply Hq |] end.
  destruct (match bug.GetCreateMetadata (cache.Snapshot bc) MetaKeyOrigin with
            | Some origin => negb (String.eqb origin target)
            | None => false
            end); [apply quiet_report |].
  unfold bug.GetCreateMetadata, cache.Snapshot, bug.Compile. cbn [bug.Operations].
  destruct (cache.bug_ops bc) as [|createOp rest] eqn:Eo; [apply quiet_crash |].
  cbn [forallb] in Hops. apply andb_true_iff in Hops as [Hc Hrest].
  destruct (bug.op_Kind createOp) as [title message| | | | | |] eqn:Ek;
    try apply quiet_crash.
  apply quiet_bind.
  - apply quiet_remoteIssue. unfold bug.GetCreateMetadata. cbn [bug.Operations].
    unfold tagged in Hc. rewrite Ek in Hc.
    destruct (bug.GetMetadata createOp metaKeyGiteaId); [eauto | discriminate].
  - intros [[bugGiteaID bugGiteaIDString]|]; [| apply quiet_ret].
    apply quiet_bind; [apply quiet_cacheOperationID | intros _].
    apply quiet_bind; [now apply quiet_exportOperations |].
    intros [w|]; [| apply quiet_ret].
    destruct (bugUpdated w); [apply quiet_ret | apply quiet_report].
Qed.

End RoundTripOfOneBug.

(** C3 (as amended). Round trip, bug by bug. Take any import pass and,
    in the store it leaves, a bug that the pass created or that extends
    bugs whose operations were all tagged (SetMetadata operations, or
    operations that carry a remote id), and none of whose operations the
    pass reported as the edition of an already imported comment. Then
    every operation of the bug is tagged, and its export -- whatever the
    other bugs of the store, the configuration, the clients and the
    instance -- issues no remote write call and leaves the store as it
    is. *)
Theorem C3_round_trip_without_comment_edition
    (srv : Server) (Cleanup : string -> error + string) (ctxErr : option error)
    (fuel : nat) (gi : giteaImporter) (s : ImportState) (sent : list ImportResult)
    (b : Id) (bc : cache.BugCache) (srv' : Server) (x : ExportState) :
  out (snd (ImportAll srv Cleanup ctxErr fuel gi s)) = (out s ++ sent)%list ->
  (forall old : cache.BugCache,
     In old (cache.bugs (repo s)) -> cache.bug_Id old = b ->
     forallb tagged (cache.bug_ops old) = true) ->
  cache.ResolveBug (repo (snd (ImportAll srv Cleanup ctxErr fuel gi s))) b = Some bc ->
  (forall op : bug.Operation,
     In op (cache.bug_ops bc) -> ~ In (ImportCommentEdition (bug.op_Id op)) sent) ->
  store x = repo (snd (ImportAll srv Cleanup ctxErr fuel gi s)) ->
  forallb tagged (cache.bug_ops bc) = true
  /\ calls (snd (exportBug srv' b x)) = calls x
  /\ store (snd (exportBug srv' b x)) = store x.
Proof.
  intros Hout Hold Hres Hno Hx.
  destruct (accounts_ImportAll srv Cleanup ctxErr fuel gi s) as (sent' & Hout' & Hacc).
  assert (sent' = sent) as -> by (rewrite Hout in Hout'; now apply List.app_inv_head in Hout').
  pose proof (resolved_accounted _ _ _ _ _ Hacc Hold Hres) as Hall.
  assert (forallb tagged (cache.bug_ops bc) = true) as Ht.
  { apply forallb_forall. intros op Hop.
    destruct (proj1 (List.Forall_forall _ _) Hall op Hop) as [H | H]; [exact H |].
    exfalso. exact (Hno op Hop H). }
  split; [exact Ht |].
  rewrite <- Hx in Hres.
  destruct (exportBug_of_tagged_bug srv' b x bc Hres Ht) as [Hs Hc].
  split; [exact Hc | exact Hs].
Qed.

Lemma C3_round_trip_without_comment_edition_witness :
  allTagged (repo RoundTrip.imported) = false
  /\ out RoundTrip.imported = [ImportBug 13; ImportComment 15]
  /\ calls (snd (exportBug (Scenario.remote [] []) 13%N
                  (Scenario.exportFrom (repo RoundTrip.imported))))
     = calls (Scenario.exportFrom (repo RoundTrip.imported)).
Proof.
  split; [vm_compute; reflexivity |]. split; [vm_compute; reflexivity |].
  eapply (C3_round_trip_without_comment_edition
            (Scenario.remote [Scenario.comment5] []) Scenario.cleanup None 8 Scenario.gi
            (Scenario.importFrom Scenario.localBug)
            [ImportBug 13; ImportComment 15] 13%N _ (Scenario.remote [] [])
            (Scenario.exportFrom (repo RoundTrip.imported))).
  - vm_compute. reflexivity.
  - intros old [<- | []] H. vm_compute in H. discriminate H.
  - vm_compute. reflexivity.
  - intros op _ [H | [H | []]]; discriminate H.
  - reflexivity.
Defined.
